(** * Processing-job routes of Foundry: a shallow embedding and its properties

    The development follows [server/routes/jobs.ts] (the job controller),
    [server/lib/validation.ts] (parameter parsing), [server/errors/index.ts]
    (the error classes), [server/middleware/auth.ts] and
    [server/middleware/error-handler.ts] (authentication and the answers to
    errors), [server/lib/response.ts], [server/lib/encryption.ts],
    [server/config/env.ts] and the tables of [server/db/schema.ts] that the
    job routes touch.

    Modelling conventions.
    - Integer columns, identifiers and millisecond timestamps are [Z].
    - [text] columns are [string]; nullable columns are [option].
    - A table with a serial primary key is a [gmap Z row] together with the
      next value of its sequence.
    - A handler is a computation in the monad [M]: it reads and writes the
      database, may throw, and records the database after every write, so
      that the intermediate states of a request are visible.
    - The clock ([new Date()], [Date.now()], the database's [defaultNow()])
      is the argument [now] of a handler: one reading per request.
    - In [M] a handler is served with no other request between its
      statements. The handlers that write are given a second time statement
      by statement in [Interleaving], where requests are in flight together
      and each awaited statement is committed on its own, at the time at
      which it is executed; served alone and with one reading of the clock,
      the two agree.
    - The keys of the tables and the numbers of JavaScript have no bound
      here; [Limits] says within which bounds they stand for the database
      and for [parseInt].
    - The rate limiter is not modelled; the verification of a token is a
      parameter of the authentication middleware. *)

From Stdlib Require Import ZArith QArith Qround Qfield Qminmax Lqa Lia List Ascii String.
From stdpp Require Import base option list gmap strings pretty sorting.

Open Scope Z_scope.

(* ===================================================================== *)
(** ** Errors ([server/errors/index.ts]) *)
(* ===================================================================== *)

Module Errors.

Inductive ErrorClass :=
| BadRequest | Unauthorized | Forbidden | NotFound | Conflict
| Gone | UnprocessableEntity | RateLimit | InternalServer.

Record AppError := mkAppError {
  cls : ErrorClass;
  message : string;
  statusCode : Z;
  code : string;
  isOperational : bool
}.

Definition BadRequestError (message code : string) : AppError :=
  mkAppError BadRequest message 400 code true.
Definition ForbiddenError (message : string) : AppError :=
  mkAppError Forbidden message 403 "FORBIDDEN" true.
Definition NotFoundError (message : string) : AppError :=
  mkAppError NotFound message 404 "NOT_FOUND" true.

(** The default value of the [code] argument of [BadRequestError]. *)
Definition BAD_REQUEST : string := "BAD_REQUEST".

(** What a handler can throw: an [AppError], or an exception of another
    class (a database error, a [SyntaxError] of [JSON.parse]). *)
Inductive Thrown :=
| ThrowApp (e : AppError)
| ThrowOther (name msg : string).

Definition is_class (c : ErrorClass) (t : Thrown) : Prop :=
  match t with
  | ThrowApp e => cls e = c
  | ThrowOther _ _ => False
  end.

#[global] Instance ErrorClass_eq_dec : EqDecision ErrorClass.
Proof. solve_decision. Defined.

End Errors.
Export Errors.

(* ===================================================================== *)
(** ** Parameter parsing ([server/lib/validation.ts]) *)
(* ===================================================================== *)

Module Validation.

(** The values [parseInt] can return. A finite result is kept as the
    exact integer; JavaScript rounds an integer beyond 2^53 to the nearest
    double, so a [Num] stands for what the code computes only up to
    [MAX_SAFE_INTEGER] (see [Limits]). *)
Inductive JsNum :=
| NaN
| Infinity (negative : bool)
| Num (z : Z).

(** Integers of this magnitude and above round to an infinity. *)
Definition overflow_threshold : Z := 2 ^ 1024 - 2 ^ 970.

Definition to_number (z : Z) : JsNum :=
  if Z.abs z <? overflow_threshold then Num z else Infinity (z <? 0).

(** White space that [parseInt] skips; only the ASCII part of
    [StrWhiteSpaceChar] (TAB, LF, VT, FF, CR, SP) is modelled, so a text
    that starts with another white space character (U+00A0, U+FEFF, ...)
    reads as [NaN] here where JavaScript skips it; what is stated of an
    arbitrary text is stated through the result of [parseInt]. *)
Definition is_white_space (a : ascii) : bool :=
  let n := Z.of_nat (nat_of_ascii a) in
  ((9 <=? n) && (n <=? 13)) || (n =? 32).

Fixpoint trim_start (s : string) : string :=
  match s with
  | String a r => if is_white_space a then trim_start r else s
  | EmptyString => s
  end.

Definition digit_value (a : ascii) : option Z :=
  let n := Z.of_nat (nat_of_ascii a) in
  if (48 <=? n) && (n <=? 57) then Some (n - 48) else None.

(** The value of the longest prefix of decimal digits, [None] when that
    prefix is empty. [acc] is the value read so far. *)
Fixpoint leading_digits (acc : option Z) (s : string) : option Z :=
  match s with
  | String a r =>
      match digit_value a with
      | Some d => leading_digits (Some (10 * default 0 acc + d)) r
      | None => acc
      end
  | EmptyString => acc
  end.

(** [parseInt(value, 10)]. *)
Definition parseInt (value : string) : JsNum :=
  let inputS := trim_start value in
  let '(sign, digits) :=
    match inputS with
    | String "-" r => (-1, r)
    | String "+" r => (1, r)
    | _ => (1, inputS)
    end in
  match leading_digits None digits with
  | None => NaN
  | Some mathInt => to_number (sign * mathInt)
  end.

(** The branch [Num] is the one where [isNaN(parsed)] and
    [!Number.isFinite(parsed)] are both false. *)
Definition parseIntParam (value paramName : string) : Thrown + Z :=
  match parseInt value with
  | Num parsed =>
      if parsed <=? 0
      then inl (ThrowApp (BadRequestError
             ("Invalid " +:+ paramName +:+ ": must be a positive integer")
             "INVALID_ID"))
      else inr parsed
  | _ => inl (ThrowApp (BadRequestError
             ("Invalid " +:+ paramName +:+ ": must be a positive integer")
             "INVALID_ID"))
  end.

Definition parseQueryInt (value : option string) (paramName : string)
    (defaultValue : Z) (min max : option Z) : Thrown + Z :=
  match value with
  | None => inr defaultValue
  | Some value =>
      match parseInt value with
      | Num parsed =>
          if match min with Some min => parsed <? min | None => false end
          then inl (ThrowApp (BadRequestError
                 ("Invalid " +:+ paramName +:+ ": must be at least "
                    +:+ pretty (default 0 min))
                 "VALIDATION_ERROR"))
          else if match max with Some max => max <? parsed | None => false end
          then inl (ThrowApp (BadRequestError
                 ("Invalid " +:+ paramName +:+ ": must be at most "
                    +:+ pretty (default 0 max))
                 "VALIDATION_ERROR"))
          else inr parsed
      | _ => inl (ThrowApp (BadRequestError
               ("Invalid " +:+ paramName +:+ ": must be an integer")
               "VALIDATION_ERROR"))
      end
  end.

(** The query string of a list request: [req.query.page] and
    [req.query.page_size], each absent or a string. *)
Record Query := mkQuery {
  q_page : option string;
  q_page_size : option string
}.

Record PaginationParams := mkPaginationParams {
  page : Z;
  limit : Z;
  offset : Z
}.

Definition parsePaginationParams (query : Query) : Thrown + PaginationParams :=
  match parseQueryInt (q_page query) "page" 1 (Some 1) None with
  | inl e => inl e
  | inr page =>
      match parseQueryInt (q_page_size query) "page_size" 20 (Some 1) (Some 100) with
      | inl e => inl e
      | inr limit =>
          let offset := (page - 1) * limit in
          inr (mkPaginationParams page limit offset)
      end
  end.

Record Pagination := mkPagination {
  pg_page : Z;
  pg_pageSize : Z;
  pg_totalPages : Z;
  pg_totalCount : Z
}.

(** [Math.ceil(totalCount / limit)] for a positive [limit]. *)
Definition calculatePagination (page limit totalCount : Z) : Pagination :=
  let totalPages := (totalCount + limit - 1) / limit in
  mkPagination page limit totalPages totalCount.

End Validation.
Export Validation.

(* ===================================================================== *)
(** ** Tables ([server/db/schema.ts]) *)
(* ===================================================================== *)

(** Only the columns that the job routes read or write are kept for
    [projects], [dataSources] and [schemaMappings], with the [deletedAt] of
    a data source, which the data source routes set and read;
    [processingJobs] and [jobLogs] have all their columns. Timestamps are
    milliseconds. *)

Module Project.
Record t := mk {
  id : Z;
  organisationId : Z;
  deletedAt : option Z
}.
End Project.

Module DataSource.
Record t := mk {
  id : Z;
  name : string;
  recordCount : option Z;
  status : string;
  deletedAt : option Z
}.
End DataSource.

Module SchemaMapping.
Record t := mk {
  id : Z;
  projectId : Z;
  dataSourceId : Z;
  isActive : Z
}.
End SchemaMapping.

Module Job.
Record t := mk {
  id : Z;
  organisationId : Z;
  projectId : Z;
  schemaMappingId : Z;
  dataSourceId : Z;
  status : string;
  outputFormat : string;
  outputName : option string;
  inputRecordCount : Z;
  outputRecordCount : option Z;
  piiDetectedCount : option Z;
  progress : Z;
  currentStage : option string;
  errorMessage : option string;
  startedAt : option Z;
  completedAt : option Z;
  createdAt : Z;
  updatedAt : Z
}.
End Job.

Module JobLog.
Record t := mk {
  id : Z;
  jobId : Z;
  level : string;
  message : string;
  details : option string;
  createdAt : Z
}.
End JobLog.

(* ===================================================================== *)
(** ** The store and the handler monad *)
(* ===================================================================== *)

Module Store.

(** A table with a [serial] primary key: its rows by key, and the next
    value of its sequence. *)
Record Table (R : Type) := mkTable {
  rows : gmap Z R;
  nextval : Z
}.
Arguments mkTable {R} _ _.
Arguments rows {R} _.
Arguments nextval {R} _.

Record Db := mkDb {
  projects : gmap Z Project.t;
  dataSources : gmap Z DataSource.t;
  schemaMappings : gmap Z SchemaMapping.t;
  processingJobs : Table Job.t;
  jobLogs : Table JobLog.t
}.

Definition with_processingJobs (t : Table Job.t) (db : Db) : Db :=
  mkDb (projects db) (dataSources db) (schemaMappings db) t (jobLogs db).

Definition with_jobLogs (t : Table JobLog.t) (db : Db) : Db :=
  mkDb (projects db) (dataSources db) (schemaMappings db) (processingJobs db) t.

(** One run of a handler: what it returned or threw, the database after
    each of its writes (oldest first), and the database it leaves. *)
Record Run (A : Type) := mkRun {
  outcome : Thrown + A;
  trace : list Db;
  final : Db
}.
Arguments mkRun {A} _ _ _.
Arguments outcome {A} _.
Arguments trace {A} _.
Arguments final {A} _.

Definition M (A : Type) : Type := Db -> Run A.

Definition ret {A} (a : A) : M A := fun db => mkRun (inr a) [] db.

Definition throw {A} (e : Thrown) : M A := fun db => mkRun (inl e) [] db.

(** A throw ends the handler; the writes made before it stay. *)
Definition bind {A B} (m : M A) (k : A -> M B) : M B := fun db =>
  match m db with
  | mkRun (inl e) writes db' => mkRun (inl e) writes db'
  | mkRun (inr a) writes db' =>
      match k a db' with
      | mkRun result writes' db'' => mkRun result (writes ++ writes') db''
      end
  end.

Definition get : M Db := fun db => mkRun (inr db) [] db.

Definition put (db' : Db) : M unit := fun _ => mkRun (inr tt) [db'] db'.

Definition lift {A} (x : Thrown + A) : M A :=
  match x with inl e => throw e | inr a => ret a end.

Declare Scope handler_scope.
Delimit Scope handler_scope with handler.
Notation "'await' x <- m ;; k" := (bind m (fun x => k))
  (at level 10, x name, m at level 99, k at level 200) : handler_scope.
Notation "'run' m ;; k" := (bind m (fun _ => k))
  (at level 10, m at level 99, k at level 200) : handler_scope.

(** [db.insert(table).values(...).returning()]: the key comes from the
    sequence, which advances even when the insertion fails on a key that
    is already taken. *)
Definition insert_row {R} (values : Z -> R) (t : Table R)
  : Thrown + (R * Table R) :=
  let key := nextval t in
  match rows t !! key with
  | Some _ =>
      inl (ThrowOther "DatabaseError"
             "duplicate key value violates unique constraint")
  | None => inr (values key, mkTable (<[key := values key]> (rows t)) (key + 1))
  end.

Definition advance {R} (t : Table R) : Table R :=
  mkTable (rows t) (nextval t + 1).

(** [db.update(table).set(...).where(eq(table.id, key))]. *)
Definition update_row {R} (set : R -> R) (key : Z) (t : Table R) : Table R :=
  mkTable (alter set key (rows t)) (nextval t).

Definition insertJob (values : Z -> Job.t) : M Job.t :=
  (await db <- get ;;
   match insert_row values (processingJobs db) with
   | inl e =>
       run put (with_processingJobs (advance (processingJobs db)) db) ;;
       throw e
   | inr (job, t) => run put (with_processingJobs t db) ;; ret job
   end)%handler.

Definition insertJobLog (values : Z -> JobLog.t) : M JobLog.t :=
  (await db <- get ;;
   match insert_row values (jobLogs db) with
   | inl e =>
       run put (with_jobLogs (advance (jobLogs db)) db) ;;
       throw e
   | inr (log, t) => run put (with_jobLogs t db) ;; ret log
   end)%handler.

Definition updateJob (set : Job.t -> Job.t) (key : Z) : M unit :=
  (await db <- get ;;
   put (with_processingJobs (update_row set key (processingJobs db)) db))%handler.

End Store.
Export Store.
Open Scope handler_scope.

(* ===================================================================== *)
(** ** Authentication payload and role check ([server/middleware/auth.ts]) *)
(* ===================================================================== *)

Module Auth.

Record JWTPayload := mkJWTPayload {
  userId : Z;
  email : string;
  organisationId : Z;
  role : string
}.

(** [requireRole(...roles)] on a request that [requireAuth] has already
    given its [user]. *)
Definition requireRole (roles : list string) (user : JWTPayload) : M unit :=
  if decide (role user ∈ roles) then ret tt
  else throw (ThrowApp (ForbiddenError "Insufficient permissions")).

End Auth.
Export Auth.

(* ===================================================================== *)
(** ** Numbers of the progress snapshot *)
(* ===================================================================== *)

Module JsMath.

(** [Math.round]: the nearest integer, a tie going up. The argument is
    the exact quotient; double rounding of the division is not modelled. *)
Definition Math_round (x : Q) : Z := Qfloor (x + (1 # 2))%Q.

Definition Math_max (a b : Z) : Z := Z.max a b.

End JsMath.
Export JsMath.

(* ===================================================================== *)
(** ** Job routes ([server/routes/jobs.ts]) *)
(* ===================================================================== *)

Module Jobs.

(** *** Queries *)

Definition table_rows {R} (t : Table R) : list R := (map_to_list (rows t)).*2.

(** [projects.findFirst(and(eq(id, projectId), isNull(deletedAt)))]. *)
Definition findProject (projectId : Z) (db : Db) : option Project.t :=
  match projects db !! projectId with
  | Some project =>
      match Project.deletedAt project with
      | None => Some project
      | Some _ => None
      end
  | None => None
  end.

(** [schemaMappings.findFirst(and(eq(id, ..), eq(projectId, ..)),
    with: { dataSource: true })]: the mapping and its data source, deleted
    or not. The handler allows for a mapping without a data source; the
    foreign key of [schema_mappings.data_source_id] lets none exist, and
    nothing is stated of that case. *)
Definition findMapping (schemaMappingId projectId : Z) (db : Db)
  : option (SchemaMapping.t * option DataSource.t) :=
  match schemaMappings db !! schemaMappingId with
  | Some mapping =>
      if decide (SchemaMapping.projectId mapping = projectId)
      then Some (mapping, dataSources db !! SchemaMapping.dataSourceId mapping)
      else None
  | None => None
  end.



(** [processingJobs.findFirst(eq(id, jobId))], for an id that fits the
    column ([INT4_MAX] at most, see [Limits]); beyond it the query fails in
    the database, which the table does not show. *)
Definition findJob (jobId : Z) (db : Db) : option Job.t :=
  rows (processingJobs db) !! jobId.

Definition newest_job_first (a b : Job.t) : Prop :=
  Job.createdAt b <= Job.createdAt a.

Definition newest_log_first (a b : JobLog.t) : Prop :=
  JobLog.createdAt b <= JobLog.createdAt a.

#[global] Instance newest_job_first_dec a b : Decision (newest_job_first a b).
Proof. unfold newest_job_first. apply _. Defined.

#[global] Instance newest_log_first_dec a b : Decision (newest_log_first a b).
Proof. unfold newest_log_first. apply _. Defined.

(** [limit] and [offset] of a query on an ordered list of rows, for an
    offset that the database accepts (see [Limits]). *)
Definition paginate {R} (limit offset : Z) (l : list R) : list R :=
  take (Z.to_nat limit) (drop (Z.to_nat offset) l).

(** The rows of [jobLogs] with [jobId = jobId]. *)
Definition logsOfJob (jobId : Z) (db : Db) : list JobLog.t :=
  filter (fun log => JobLog.jobId log = jobId) (table_rows (jobLogs db)).

(** [orderBy: desc(jobLogs.createdAt)]. *)
Definition orderedLogsOfJob (jobId : Z) (db : Db) : list JobLog.t :=
  merge_sort newest_log_first (logsOfJob jobId db).

(** The [where] clause of the job list. *)
Definition jobMatches (projectId : Z) (statusFilter : option string)
    (job : Job.t) : Prop :=
  Job.projectId job = projectId /\
  match statusFilter with
  | None | Some "" => True
  | Some wanted => Job.status job = wanted
  end.

#[global] Instance jobMatches_dec projectId statusFilter job :
  Decision (jobMatches projectId statusFilter job).
Proof.
  unfold jobMatches. destruct statusFilter as [[|]|]; apply _.
Defined.

(** *** Access checks *)

Definition verifyProjectAccess (projectId organisationId : Z) : M Project.t :=
  await db <- get ;;
  match findProject projectId db with
  | None => throw (ThrowApp (NotFoundError "Project not found"))
  | Some project =>
      if decide (Project.organisationId project <> organisationId)
      then throw (ThrowApp (ForbiddenError "Access denied to this project"))
      else ret project
  end.

(** The lookup and the organisation check that open every [/:jobId]
    handler. *)
Definition loadJob (jobId organisationId : Z) : M Job.t :=
  await db <- get ;;
  match findJob jobId db with
  | None => throw (ThrowApp (NotFoundError "Job not found"))
  | Some job =>
      if decide (Job.organisationId job <> organisationId)
      then throw (ThrowApp (ForbiddenError "Access denied to this job"))
      else ret job
  end.

(** *** Views *)

Record JobView := mkJobView {
  v_id : Z;
  v_projectId : Z;
  v_dataSourceId : Z;
  v_dataSourceName : option string;
  v_schemaMappingId : Z;
  v_status : string;
  v_outputFormat : string;
  v_outputName : option string;
  v_inputRecordCount : Z;
  v_outputRecordCount : option Z;
  v_piiDetectedCount : option Z;
  v_progress : Z;
  v_currentStage : option string;
  v_errorMessage : option string;
  v_startedAt : option Z;
  v_completedAt : option Z;
  v_createdAt : Z
}.

(** [job.dataSource?.name || null]. *)
Definition dataSourceName (db : Db) (job : Job.t) : option string :=
  match dataSources db !! Job.dataSourceId job with
  | Some dataSource =>
      if decide (DataSource.name dataSource = "") then None
      else Some (DataSource.name dataSource)
  | None => None
  end.

Definition formatJob (db : Db) (job : Job.t) : JobView :=
  mkJobView (Job.id job) (Job.projectId job) (Job.dataSourceId job)
    (dataSourceName db job) (Job.schemaMappingId job) (Job.status job)
    (Job.outputFormat job) (Job.outputName job) (Job.inputRecordCount job)
    (Job.outputRecordCount job) (Job.piiDetectedCount job) (Job.progress job)
    (Job.currentStage job) (Job.errorMessage job) (Job.startedAt job)
    (Job.completedAt job) (Job.createdAt job).

(** *** GET /api/projects/:projectId/jobs *)

Definition listJobs (user : JWTPayload) (projectIdParam : string)
    (query : Query) (statusFilter : option string)
  : M (list JobView * Pagination) :=
  await projectId <- lift (parseIntParam projectIdParam "projectId") ;;
  let organisationId := organisationId user in
  await params <- lift (parsePaginationParams query) ;;
  run verifyProjectAccess projectId organisationId ;;
  await db <- get ;;
  let matching :=
    filter (jobMatches projectId statusFilter) (table_rows (processingJobs db)) in
  let totalCount := Z.of_nat (length matching) in
  let jobs :=
    paginate (limit params) (offset params)
      (merge_sort newest_job_first matching) in
  let formattedJobs := formatJob db <$> jobs in
  ret (formattedJobs,
       calculatePagination (page params) (limit params) totalCount).

(** *** GET /api/jobs/:jobId *)

Definition getJob (user : JWTPayload) (jobIdParam : string) : M JobView :=
  await jobId <- lift (parseIntParam jobIdParam "jobId") ;;
  let organisationId := organisationId user in
  await job <- loadJob jobId organisationId ;;
  await db <- get ;;
  ret (formatJob db job).

(** *** POST /api/projects/:projectId/jobs *)

(** The body of a create request as [createJobSchema] types it. *)
Record CreateJobBody := mkCreateJobBody {
  b_schemaMappingId : Z;
  b_outputFormat : string;
  b_outputName : option string
}.

(** [createJobSchema] on a body of the right shape: a positive mapping
    id, one of the three formats, a name of at most 200 characters. *)
Definition createJobSchema (body : CreateJobBody) : Prop :=
  0 < b_schemaMappingId body /\
  b_outputFormat body ∈ ["json"; "csv"; "jsonl"] /\
  (String.length (default "" (b_outputName body)) <= 200)%nat.

#[global] Instance createJobSchema_dec body : Decision (createJobSchema body).
Proof. unfold createJobSchema. apply _. Defined.

(** [validateBody(createJobSchema)]. *)
Definition validateBody (body : CreateJobBody) : M CreateJobBody :=
  if decide (createJobSchema body) then ret body
  else throw (ThrowApp (BadRequestError "Validation failed" "VALIDATION_ERROR")).

(** [.set({ status: 'processing', startedAt: new Date(),
    currentStage: 'initializing' })]. *)
Definition setProcessing (now : Z) (job : Job.t) : Job.t :=
  Job.mk (Job.id job) (Job.organisationId job) (Job.projectId job)
    (Job.schemaMappingId job) (Job.dataSourceId job)
    "processing"
    (Job.outputFormat job) (Job.outputName job) (Job.inputRecordCount job)
    (Job.outputRecordCount job) (Job.piiDetectedCount job) (Job.progress job)
    (Some "initializing")
    (Job.errorMessage job)
    (Some now)
    (Job.completedAt job) (Job.createdAt job) (Job.updatedAt job).

(** The row that create inserts; columns it does not name take their
    defaults ([null], and the insertion time for the two timestamps). *)
Definition newJob (now organisationId projectId : Z)
    (mapping : SchemaMapping.t) (dataSource : DataSource.t)
    (outputFormat : string) (outputName : option string) (id : Z) : Job.t :=
  Job.mk id organisationId projectId
    (SchemaMapping.id mapping) (DataSource.id dataSource)
    "pending"
    outputFormat
    (Some (match outputName with
           | None | Some "" => DataSource.name dataSource +:+ "-output"
           | Some outputName => outputName
           end))
    (match DataSource.recordCount dataSource with
     | None => 0
     | Some recordCount => recordCount
     end)
    None None
    0
    None None None None now now.

Definition newJobLog (now jobId : Z) (level message : string) (id : Z)
  : JobLog.t :=
  JobLog.mk id jobId level message None now.

Record CreatedJob := mkCreatedJob {
  c_id : Z;
  c_projectId : Z;
  c_dataSourceId : Z;
  c_schemaMappingId : Z;
  c_status : string;
  c_outputFormat : string;
  c_outputName : option string;
  c_progress : Z;
  c_currentStage : string;
  c_createdAt : Z
}.

Definition createJob (now : Z) (user : JWTPayload) (projectIdParam : string)
    (body : CreateJobBody) : M CreatedJob :=
  run requireRole ["admin"; "editor"] user ;;
  await body <- validateBody body ;;
  await projectId <- lift (parseIntParam projectIdParam "projectId") ;;
  let organisationId := organisationId user in
  let schemaMappingId := b_schemaMappingId body in
  let outputFormat := b_outputFormat body in
  let outputName := b_outputName body in
  run verifyProjectAccess projectId organisationId ;;
  await db <- get ;;
  match findMapping schemaMappingId projectId db with
  | None =>
      throw (ThrowApp (NotFoundError "Schema mapping not found in this project"))
  | Some (mapping, dataSource) =>
      if decide (SchemaMapping.isActive mapping <> 1)
      then throw (ThrowApp (BadRequestError "Schema mapping is not active" BAD_REQUEST))
      else
        match dataSource with
        | None =>
            throw (ThrowApp (BadRequestError
                     "Data source is not ready for processing" BAD_REQUEST))
        | Some dataSource =>
            if decide (DataSource.status dataSource <> "ready")
            then throw (ThrowApp (BadRequestError
                          "Data source is not ready for processing" BAD_REQUEST))
            else
              await job <- insertJob
                (newJob now organisationId projectId mapping dataSource
                   outputFormat outputName) ;;
              run insertJobLog
                (newJobLog now (Job.id job) "info"
                   "Job created and queued for processing") ;;
              run updateJob (setProcessing now) (Job.id job) ;;
              ret (mkCreatedJob (Job.id job) (Job.projectId job)
                     (Job.dataSourceId job) (Job.schemaMappingId job)
                     "processing"
                     (Job.outputFormat job) (Job.outputName job)
                     0 "initializing" (Job.createdAt job))
        end
  end.

(** *** GET /api/jobs/:jobId/progress *)

Record ProgressSnapshot := mkProgressSnapshot {
  s_jobId : Z;
  s_status : string;
  s_currentStage : option string;
  s_overallProgress : Z;
  s_processedRecords : Z;
  s_totalRecords : Z;
  s_estimatedTimeRemaining : option Z;
  s_piiDetectedCount : option Z
}.

Definition estimatedTimeRemaining (now : Z) (job : Job.t) : option Z :=
  if decide (Job.status job = "processing") then
    if 0 <? Job.progress job then
      match Job.startedAt job with
      | Some startedAt =>
          let elapsed := inject_Z (now - startedAt) in
          let estimatedTotal :=
            ((elapsed / inject_Z (Job.progress job)) * 100)%Q in
          Some (Math_max 0 (Math_round ((estimatedTotal - elapsed) / 1000)%Q))
      | None => None
      end
    else None
  else None.

Definition processedRecords (job : Job.t) : Z :=
  Math_round
    (inject_Z (Job.inputRecordCount job * Job.progress job) / 100)%Q.

Definition progressOf (now : Z) (job : Job.t) : ProgressSnapshot :=
  mkProgressSnapshot (Job.id job) (Job.status job) (Job.currentStage job)
    (Job.progress job) (processedRecords job) (Job.inputRecordCount job)
    (estimatedTimeRemaining now job) (Job.piiDetectedCount job).

Definition getProgress (now : Z) (user : JWTPayload) (jobIdParam : string)
  : M ProgressSnapshot :=
  await jobId <- lift (parseIntParam jobIdParam "jobId") ;;
  let organisationId := organisationId user in
  await job <- loadJob jobId organisationId ;;
  ret (progressOf now job).

(** *** GET /api/jobs/:jobId/logs *)

Section Logs.

(** [JSON.parse] and the values it produces are taken as given; it
    either returns a value or throws. *)
Variable Json : Type.
Variable JSON_parse : string -> Thrown + Json.

Record LogView := mkLogView {
  l_id : Z;
  l_level : string;
  l_message : string;
  l_details : option Json;
  l_timestamp : Z
}.

(** One step of [logs.map(...)]; an empty [details] is falsy. *)
Definition formatLog (log : JobLog.t) : Thrown + LogView :=
  match JobLog.details log with
  | None | Some "" =>
      inr (mkLogView (JobLog.id log) (JobLog.level log)
             (JobLog.message log) None (JobLog.createdAt log))
  | Some details =>
      match JSON_parse details with
      | inl e => inl e
      | inr value =>
          inr (mkLogView (JobLog.id log) (JobLog.level log)
                 (JobLog.message log) (Some value) (JobLog.createdAt log))
      end
  end.

Fixpoint formatLogs (logs : list JobLog.t) : Thrown + list LogView :=
  match logs with
  | [] => inr []
  | log :: logs =>
      match formatLog log with
      | inl e => inl e
      | inr view =>
          match formatLogs logs with
          | inl e => inl e
          | inr views => inr (view :: views)
          end
      end
  end.

Definition getLogs (user : JWTPayload) (jobIdParam : string) (query : Query)
  : M (list LogView * Pagination) :=
  await jobId <- lift (parseIntParam jobIdParam "jobId") ;;
  let organisationId := organisationId user in
  await params <- lift (parsePaginationParams query) ;;
  run loadJob jobId organisationId ;;
  await db <- get ;;
  let totalCount := Z.of_nat (length (logsOfJob jobId db)) in
  let logs :=
    paginate (limit params) (offset params) (orderedLogsOfJob jobId db) in
  await formattedLogs <- lift (formatLogs logs) ;;
  ret (formattedLogs,
       calculatePagination (page params) (limit params) totalCount).

End Logs.
Arguments mkLogView {Json} _ _ _ _ _.
Arguments l_id {Json} _.
Arguments l_level {Json} _.
Arguments l_message {Json} _.
Arguments l_details {Json} _.
Arguments l_timestamp {Json} _.
Arguments formatLog {Json} _ _.
Arguments formatLogs {Json} _ _.
Arguments getLogs {Json} _ _ _ _.

(** *** POST /api/jobs/:jobId/cancel *)

(** [.set({ status: 'cancelled', completedAt: new Date(),
    updatedAt: new Date() })]. *)
Definition setCancelled (now : Z) (job : Job.t) : Job.t :=
  Job.mk (Job.id job) (Job.organisationId job) (Job.projectId job)
    (Job.schemaMappingId job) (Job.dataSourceId job)
    "cancelled"
    (Job.outputFormat job) (Job.outputName job) (Job.inputRecordCount job)
    (Job.outputRecordCount job) (Job.piiDetectedCount job) (Job.progress job)
    (Job.currentStage job) (Job.errorMessage job) (Job.startedAt job)
    (Some now)
    (Job.createdAt job)
    now.

Definition cancelJob (now : Z) (user : JWTPayload) (jobIdParam : string)
  : M string :=
  run requireRole ["admin"; "editor"] user ;;
  await jobId <- lift (parseIntParam jobIdParam "jobId") ;;
  let organisationId := organisationId user in
  await job <- loadJob jobId organisationId ;;
  if decide (Job.status job ∉ ["pending"; "processing"])
  then throw (ThrowApp (BadRequestError
                "Only pending or processing jobs can be cancelled" BAD_REQUEST))
  else
    run updateJob (setCancelled now) jobId ;;
    run insertJobLog (newJobLog now jobId "info" "Job cancelled by user") ;;
    ret "Job cancelled successfully".

(** *** POST /api/jobs/:jobId/retry *)

(** [.set({ status: 'pending', progress: 0, currentStage: null,
    errorMessage: null, outputRecordCount: null, piiDetectedCount: null,
    startedAt: null, completedAt: null, updatedAt: new Date() })]. *)
Definition setRetried (now : Z) (job : Job.t) : Job.t :=
  Job.mk (Job.id job) (Job.organisationId job) (Job.projectId job)
    (Job.schemaMappingId job) (Job.dataSourceId job)
    "pending"
    (Job.outputFormat job) (Job.outputName job) (Job.inputRecordCount job)
    None None
    0
    None None None None
    (Job.createdAt job)
    now.

Definition retryJob (now : Z) (user : JWTPayload) (jobIdParam : string)
  : M string :=
  run requireRole ["admin"; "editor"] user ;;
  await jobId <- lift (parseIntParam jobIdParam "jobId") ;;
  let organisationId := organisationId user in
  await job <- loadJob jobId organisationId ;;
  if decide (Job.status job <> "failed")
  then throw (ThrowApp (BadRequestError "Only failed jobs can be retried" BAD_REQUEST))
  else
    run updateJob (setRetried now) jobId ;;
    run insertJobLog (newJobLog now jobId "info" "Job queued for retry") ;;
    run updateJob (setProcessing now) jobId ;;
    ret "Job queued for retry".

End Jobs.
Export Jobs.

(* ===================================================================== *)
(** ** The job routes as a machine *)
(* ===================================================================== *)

Module Machine.

Inductive Request :=
| ListJobs (user : JWTPayload) (projectIdParam : string) (query : Query)
    (statusFilter : option string)
| CreateJob (user : JWTPayload) (projectIdParam : string) (body : CreateJobBody)
| GetJob (user : JWTPayload) (jobIdParam : string)
| GetProgress (user : JWTPayload) (jobIdParam : string)
| GetLogs (user : JWTPayload) (jobIdParam : string) (query : Query)
| CancelJob (user : JWTPayload) (jobIdParam : string)
| RetryJob (user : JWTPayload) (jobIdParam : string).

Section Routes.

Variable Json : Type.
Variable JSON_parse : string -> Thrown + Json.

(** The databases that serving [req] at time [now] writes, in order, when
    no other request is served between its statements; the last one, if
    any, is the database the request leaves. Requests in flight together
    are the subject of [Interleaving]. *)
Definition writes (now : Z) (req : Request) (db : Db) : list Db :=
  match req with
  | ListJobs user projectIdParam query statusFilter =>
      trace (listJobs user projectIdParam query statusFilter db)
  | CreateJob user projectIdParam body =>
      trace (createJob now user projectIdParam body db)
  | GetJob user jobIdParam => trace (getJob user jobIdParam db)
  | GetProgress user jobIdParam => trace (getProgress now user jobIdParam db)
  | GetLogs user jobIdParam query =>
      trace (getLogs JSON_parse user jobIdParam query db)
  | CancelJob user jobIdParam => trace (cancelJob now user jobIdParam db)
  | RetryJob user jobIdParam => trace (retryJob now user jobIdParam db)
  end.

(** The databases that the job routes can produce, one request at a
    time, starting with no job
    at all. The other routes of the server never write a job row; they
    can only remove some (deleting a project, a data source or a mapping
    cascades), which the last rule covers. *)
Inductive reachable : Db -> Prop :=
| reachable_init db :
    rows (processingJobs db) = ∅ -> reachable db
| reachable_request db now req db' :
    reachable db -> db' ∈ writes now req db -> reachable db'
| reachable_elsewhere db db' :
    reachable db ->
    rows (processingJobs db') ⊆ rows (processingJobs db) ->
    reachable db'.

End Routes.
Arguments writes {Json} _ _ _ _.
Arguments reachable {Json} _ _.

(** What one write of a job route does to the job rows. *)
Inductive transition (m : gmap Z Job.t) : gmap Z Job.t -> Prop :=
| t_unchanged : transition m m
| t_created key job :
    m !! key = None ->
    Job.status job = "pending" -> Job.completedAt job = None ->
    transition m (<[key := job]> m)
| t_started key job now :
    m !! key = None ->
    Job.status job = "pending" -> Job.completedAt job = None ->
    transition m (<[key := setProcessing now job]> m)
| t_cancelled key job now :
    m !! key = Some job ->
    Job.status job ∈ ["pending"; "processing"] ->
    transition m (<[key := setCancelled now job]> m)
| t_retried key job now :
    m !! key = Some job ->
    Job.status job = "failed" ->
    transition m (<[key := setRetried now job]> m)
| t_restarted key job now now' :
    m !! key = Some job ->
    Job.status job = "failed" ->
    transition m (<[key := setProcessing now' (setRetried now job)]> m).

Definition terminal (status : string) : Prop :=
  status ∈ ["completed"; "failed"; "cancelled"].

(** The invariant of the data model: [completedAt] is set exactly in the
    terminal states. *)
Definition completedAt_iff_terminal (job : Job.t) : Prop :=
  is_Some (Job.completedAt job) <-> terminal (Job.status job).

Definition all_jobs (P : Job.t -> Prop) (db : Db) : Prop :=
  map_Forall (fun _ job => P job) (rows (processingJobs db)).

(** The sequence of a table is ahead of its keys, so that the next
    insertion does not collide. *)
Definition seq_fresh {R} (t : Table R) : Prop :=
  rows t !! nextval t = None.

End Machine.
Export Machine.

(* ===================================================================== *)
(** ** Vocabulary of the statements *)
(* ===================================================================== *)

Module Statements.

(** The statuses that the routes of this snapshot give a job. *)
Definition api_status (job : Job.t) : Prop :=
  Job.status job ∈ ["pending"; "processing"; "cancelled"].

(** The database after the job row [key] has been replaced by [job]. *)
Definition storeJob (key : Z) (job : Job.t) (db : Db) : Db :=
  with_processingJobs
    (mkTable (<[key := job]> (rows (processingJobs db)))
             (nextval (processingJobs db))) db.

(** The database after one more log entry of [jobId]. *)
Definition appendLog (now jobId : Z) (level message : string) (db : Db) : Db :=
  with_jobLogs
    (mkTable (<[nextval (jobLogs db) :=
                  JobLog.mk (nextval (jobLogs db)) jobId level message None now]>
                (rows (jobLogs db)))
             (nextval (jobLogs db) + 1)) db.

(** The database after the insertion of [job] under the next key of the
    job sequence. *)
Definition insertedJob (job : Job.t) (db : Db) : Db :=
  with_processingJobs
    (mkTable (<[nextval (processingJobs db) := job]> (rows (processingJobs db)))
             (nextval (processingJobs db) + 1)) db.

(** What create requires of the mapping and its data source. *)
Definition creatable (schemaMappingId projectId : Z) (db : Db)
    (mapping : SchemaMapping.t) (dataSource : DataSource.t) : Prop :=
  findMapping schemaMappingId projectId db = Some (mapping, Some dataSource) /\
  SchemaMapping.isActive mapping = 1 /\
  DataSource.status dataSource = "ready".

(** The estimate as the specification words it: [estimatedTotal = elapsed /
    (progress / 100)], [remaining = max(0, estimatedTotal - elapsed)]. *)
Definition remaining_as_specified (elapsed : Q) (progress : Z) : Q :=
  let estimatedTotal := (elapsed / (inject_Z progress / 100))%Q in
  Qmax 0 (estimatedTotal - elapsed).

(** Two estimates in order: both null, or both numbers, the first at most
    the second. *)
Definition estimate_le (earlier later : option Z) : Prop :=
  match earlier, later with
  | None, None => True
  | Some a, Some b => a <= b
  | _, _ => False
  end.

End Statements.
Export Statements.

(* ===================================================================== *)
(** ** Sample data *)
(* ===================================================================== *)

Module Sample.

Definition admin : JWTPayload := mkJWTPayload 1 "ada@example.com" 7 "admin".

Definition noJson (_ : string) : Thrown + unit := inr tt.

(** One project of organisation 7 with a ready data source of 100 records
    and an active mapping; no job yet. *)
Definition db0 : Db :=
  mkDb {[ 3 := Project.mk 3 7 None ]}
       {[ 5 := DataSource.mk 5 "customers" (Some 100) "ready" None ]}
       {[ 4 := SchemaMapping.mk 4 3 5 1 ]}
       (mkTable ∅ 1) (mkTable ∅ 1).

Definition body0 : CreateJobBody := mkCreateJobBody 4 "csv" None.


(** After [POST /projects/3/jobs] at time 1000. *)
Definition db1 : Db := final (createJob 1000 admin "3" body0 db0).

(** After [POST /jobs/1/cancel] at time 6000. *)
Definition db2 : Db := final (cancelJob 6000 admin "1" db1).

(** A job row as a stage executor would leave it. *)
Definition jobAt (status : string) (progress : Z) (startedAt completedAt : option Z)
    (errorMessage : option string) : Job.t :=
  Job.mk 1 7 3 4 5 status "csv" (Some "customers-output") 100 None None
    progress (Some "transforming") errorMessage startedAt completedAt 1000 1000.

Definition dbWith (job : Job.t) : Db :=
  mkDb (projects db0) (dataSources db0) (schemaMappings db0)
    (mkTable {[ 1 := job ]} 2)
    (mkTable {[ 1 := newJobLog 1000 1 "info"
                        "Job created and queued for processing" 1 ]} 2).

(** The job completed at time 5000. *)
Definition finished : Db :=
  dbWith (jobAt "completed" 100 (Some 1000) (Some 5000) None).

(** The job failed at 40%. *)
Definition crashedJob : Job.t :=
  jobAt "failed" 40 (Some 1000) (Some 5000) (Some "stage X crashed").
Definition crashed : Db := dbWith crashedJob.

(** The job running at 30% and at 50%, started at time 0. *)
Definition at30 : Db := dbWith (jobAt "processing" 30 (Some 0) None None).
Definition at50 : Db := dbWith (jobAt "processing" 50 (Some 0) None None).

(** A [processing] row at 30% without a start time. *)
Definition unstarted : Db := dbWith (jobAt "processing" 30 None None None).

(** A job of organisation 8 beside the job of organisation 7. *)
Definition foreignJob : Job.t :=
  Job.mk 2 8 6 9 10 "processing" "json" None 5 None None 0
    (Some "initializing") None (Some 500) None 500 500.

Definition shared : Db :=
  mkDb (projects db0) (dataSources db0) (schemaMappings db0)
    (mkTable (<[2 := foreignJob]>
                {[ 1 := jobAt "processing" 0 (Some 1000) None None ]}) 3)
    (mkTable ∅ 1).

Definition viewer : JWTPayload := mkJWTPayload 3 "vic@example.com" 7 "viewer".

Definition outsider : JWTPayload := mkJWTPayload 2 "eve@example.com" 8 "admin".

End Sample.

(* ===================================================================== *)
(** ** What a write of a job route can be *)
(* ===================================================================== *)

Module Effects.

(** The caller of a request. *)
Definition requester (req : Request) : JWTPayload :=
  match req with
  | ListJobs user _ _ _ | CreateJob user _ _ | GetJob user _
  | GetProgress user _ | GetLogs user _ _ | CancelJob user _
  | RetryJob user _ => user
  end.

(** The job table after a write of a request made by [user] at time
    [now], against the table [t] before the request. *)
Inductive job_effect (now : Z) (user : JWTPayload) (t : Table Job.t)
  : Table Job.t -> Prop :=
| je_same : job_effect now user t t
| je_collision job :
    rows t !! nextval t = Some job ->
    job_effect now user t (advance t)
| je_inserted projectId mapping dataSource format name :
    rows t !! nextval t = None ->
    role user ∈ ["admin"; "editor"] ->
    job_effect now user t
      (mkTable (<[nextval t :=
                    newJob now (organisationId user) projectId mapping
                      dataSource format name (nextval t)]> (rows t))
               (nextval t + 1))
| je_started projectId mapping dataSource format name :
    rows t !! nextval t = None ->
    role user ∈ ["admin"; "editor"] ->
    job_effect now user t
      (mkTable (<[nextval t :=
                    setProcessing now
                      (newJob now (organisationId user) projectId mapping
                         dataSource format name (nextval t))]> (rows t))
               (nextval t + 1))
| je_cancelled key job :
    rows t !! key = Some job ->
    Job.organisationId job = organisationId user ->
    role user ∈ ["admin"; "editor"] ->
    Job.status job ∈ ["pending"; "processing"] ->
    job_effect now user t
      (mkTable (<[key := setCancelled now job]> (rows t)) (nextval t))
| je_retried key job :
    rows t !! key = Some job ->
    Job.organisationId job = organisationId user ->
    role user ∈ ["admin"; "editor"] ->
    Job.status job = "failed" ->
    job_effect now user t
      (mkTable (<[key := setRetried now job]> (rows t)) (nextval t))
| je_restarted key job :
    rows t !! key = Some job ->
    Job.organisationId job = organisationId user ->
    role user ∈ ["admin"; "editor"] ->
    Job.status job = "failed" ->
    job_effect now user t
      (mkTable (<[key := setProcessing now (setRetried now job)]> (rows t))
               (nextval t)).

(** The log table after a write of a request at time [now]. *)
Inductive log_effect (now : Z) (t : Table JobLog.t) : Table JobLog.t -> Prop :=
| le_same : log_effect now t t
| le_collision log :
    rows t !! nextval t = Some log ->
    log_effect now t (advance t)
| le_appended jobId message :
    rows t !! nextval t = None ->
    log_effect now t
      (mkTable (<[nextval t :=
                    JobLog.mk (nextval t) jobId "info" message None now]> (rows t))
               (nextval t + 1)).

Definition effect (now : Z) (user : JWTPayload) (db db' : Db) : Prop :=
  job_effect now user (processingJobs db) (processingJobs db') /\
  log_effect now (jobLogs db) (jobLogs db') /\
  projects db' = projects db /\
  dataSources db' = dataSources db /\
  schemaMappings db' = schemaMappings db.

(** Every key of the table is below the next value of its sequence. *)
Definition keys_below_seq {R} (t : Table R) : Prop :=
  forall key row, rows t !! key = Some row -> key < nextval t.

(** The columns of a job that no route sets after the insertion. *)
Definition same_identity (a b : Job.t) : Prop :=
  Job.id a = Job.id b /\
  Job.organisationId a = Job.organisationId b /\
  Job.projectId a = Job.projectId b /\
  Job.schemaMappingId a = Job.schemaMappingId b /\
  Job.dataSourceId a = Job.dataSourceId b /\
  Job.outputFormat a = Job.outputFormat b /\
  Job.outputName a = Job.outputName b /\
  Job.inputRecordCount a = Job.inputRecordCount b /\
  Job.createdAt a = Job.createdAt b.

(** What holds of every job row that the routes of this snapshot have
    written: no progress, no result, no error message, and a start time and
    stage exactly as the last transition set them. *)
Definition api_row (job : Job.t) : Prop :=
  Job.progress job = 0 /\
  Job.outputRecordCount job = None /\
  Job.piiDetectedCount job = None /\
  Job.errorMessage job = None /\
  (Job.status job = "pending" ->
   Job.startedAt job = None /\ Job.currentStage job = None) /\
  (Job.status job = "processing" ->
   is_Some (Job.startedAt job) /\ Job.currentStage job = Some "initializing").

(** The text after a number: nothing, or something that does not start
    with a digit. *)
Definition ends_number (rest : string) : Prop :=
  match rest with
  | EmptyString => True
  | String c _ => digit_value c = None
  end.

End Effects.
Export Effects.

(* ===================================================================== *)
(** ** Where the tables stand for the database *)
(* ===================================================================== *)

Module Limits.

(** The keys of the tables are [serial] and [integer] columns: a query
    that compares one with a number above [INT4_MAX] fails in the database
    instead of finding no row, and so does a query whose offset is not a
    [bigint]. JavaScript keeps integers exactly up to [MAX_SAFE_INTEGER].
    The tables of this development have integer keys without a bound, so
    what is stated of a lookup that finds nothing, of a value that
    [parseInt] returns, or of the status of a response is stated within
    these limits. A text with a NUL character is rejected by the database
    as well. *)
Definition INT4_MAX : Z := 2147483647.

Definition MAX_SAFE_INTEGER : Z := 9007199254740991.

(** The id that the route reads from this parameter fits the id column. *)
Definition id_in_range (param : string) : Prop :=
  forall paramName id, parseIntParam param paramName = inr id -> id <= INT4_MAX.

(** The page and the offset of the query are safe integers. *)
Definition page_in_range (query : Query) : Prop :=
  forall params,
    parsePaginationParams query = inr params ->
    page params <= MAX_SAFE_INTEGER /\ offset params <= MAX_SAFE_INTEGER.

(** A text that a [text] column or parameter can hold: it has no NUL
    character. *)
Definition text_in_range (text : option string) : Prop :=
  forall s, text = Some s -> ~ In Ascii.zero (list_ascii_of_string s).

(** The request asks the database nothing that it rejects. *)
Definition in_range (req : Request) : Prop :=
  match req with
  | ListJobs _ projectIdParam query statusFilter =>
      id_in_range projectIdParam /\ page_in_range query /\
      text_in_range statusFilter
  | CreateJob _ projectIdParam body =>
      id_in_range projectIdParam /\ b_schemaMappingId body <= INT4_MAX /\
      text_in_range (b_outputName body) /\
      text_in_range (Some (b_outputFormat body))
  | GetJob _ jobIdParam | GetProgress _ jobIdParam
  | CancelJob _ jobIdParam | RetryJob _ jobIdParam =>
      id_in_range jobIdParam
  | GetLogs _ jobIdParam query =>
      id_in_range jobIdParam /\ page_in_range query
  end.

End Limits.
Export Limits.

(* ===================================================================== *)
(** ** Requests in flight together *)
(* ===================================================================== *)

Module Interleaving.

(** A handler is an [async] function: it runs alone up to each [await] of
    a database statement, and other requests can be served while it
    waits. No handler opens a transaction, so each awaited statement is
    committed on its own. What is left of a handler is either its result
    or the next statement, applied at the time and to the database at which
    it is executed, and what follows that statement. *)
Inductive Prog (A : Type) : Type :=
| Done (result : Thrown + A)
| Await (statement : Z -> Db -> Db) (rest : Z -> Db -> Prog A).
Arguments Done {A} _.
Arguments Await {A} _ _.

(** One awaited statement, with the code that runs before the next
    [await], followed by [k]; [m] is given the time. *)
Definition atomic {A B} (m : Z -> M A) (k : A -> Prog B) : Prog B :=
  Await (fun now db => final (m now db))
        (fun now db => match outcome (m now db) with
                       | inl e => Done (inl e)
                       | inr a => k a
                       end).

(** The handler served with no other request in between, and the clock
    read once. *)
Fixpoint alone {A} (now : Z) (p : Prog A) (db : Db) : (Thrown + A) * Db :=
  match p with
  | Done result => (result, db)
  | Await statement rest => alone now (rest now db) (statement now db)
  end.

(** [POST /api/projects/:projectId/jobs], statement by statement. The
    middleware and the project query of [verifyProjectAccess]: *)
Definition project_check (user : JWTPayload) (projectIdParam : string)
    (body : CreateJobBody) : M Z :=
  run requireRole ["admin"; "editor"] user ;;
  await body <- validateBody body ;;
  await projectId <- lift (parseIntParam projectIdParam "projectId") ;;
  run verifyProjectAccess projectId (organisationId user) ;;
  ret projectId.

(** The mapping query and the checks on its result: *)
Definition mapping_check (projectId : Z) (body : CreateJobBody)
  : M (SchemaMapping.t * DataSource.t) :=
  await db <- get ;;
  match findMapping (b_schemaMappingId body) projectId db with
  | None =>
      throw (ThrowApp (NotFoundError "Schema mapping not found in this project"))
  | Some (mapping, dataSource) =>
      if decide (SchemaMapping.isActive mapping <> 1)
      then throw (ThrowApp (BadRequestError "Schema mapping is not active" BAD_REQUEST))
      else
        match dataSource with
        | None =>
            throw (ThrowApp (BadRequestError
                     "Data source is not ready for processing" BAD_REQUEST))
        | Some dataSource =>
            if decide (DataSource.status dataSource <> "ready")
            then throw (ThrowApp (BadRequestError
                          "Data source is not ready for processing" BAD_REQUEST))
            else ret (mapping, dataSource)
        end
  end.

(** Then the two insertions and the update, each at its own time. *)
Definition createJob_steps (user : JWTPayload)
    (projectIdParam : string) (body : CreateJobBody) : Prog CreatedJob :=
  atomic (fun _ => project_check user projectIdParam body) (fun projectId =>
  atomic (fun _ => mapping_check projectId body) (fun '(mapping, dataSource) =>
  atomic
    (fun now =>
       insertJob (newJob now (organisationId user) projectId mapping dataSource
                    (b_outputFormat body) (b_outputName body)))
    (fun job =>
  atomic
    (fun now =>
       insertJobLog (newJobLog now (Job.id job) "info"
                       "Job created and queued for processing"))
    (fun _ =>
  atomic (fun now => updateJob (setProcessing now) (Job.id job)) (fun _ =>
  Done (inr (mkCreatedJob (Job.id job) (Job.projectId job)
               (Job.dataSourceId job) (Job.schemaMappingId job)
               "processing"
               (Job.outputFormat job) (Job.outputName job)
               0 "initializing" (Job.createdAt job)))))))).

(** [POST /api/jobs/:jobId/cancel]: the job query with the checks on its
    result, then the update and the insertion. *)
Definition cancel_check (user : JWTPayload) (jobIdParam : string) : M Z :=
  run requireRole ["admin"; "editor"] user ;;
  await jobId <- lift (parseIntParam jobIdParam "jobId") ;;
  await job <- loadJob jobId (organisationId user) ;;
  if decide (Job.status job ∉ ["pending"; "processing"])
  then throw (ThrowApp (BadRequestError
                "Only pending or processing jobs can be cancelled" BAD_REQUEST))
  else ret jobId.

Definition cancelJob_steps (user : JWTPayload) (jobIdParam : string)
  : Prog string :=
  atomic (fun _ => cancel_check user jobIdParam) (fun jobId =>
  atomic (fun now => updateJob (setCancelled now) jobId) (fun _ =>
  atomic
    (fun now => insertJobLog (newJobLog now jobId "info" "Job cancelled by user"))
    (fun _ =>
  Done (inr "Job cancelled successfully")))).

(** [POST /api/jobs/:jobId/retry]: the job query with its checks, then the
    reset, the insertion and the restart. *)
Definition retry_check (user : JWTPayload) (jobIdParam : string) : M Z :=
  run requireRole ["admin"; "editor"] user ;;
  await jobId <- lift (parseIntParam jobIdParam "jobId") ;;
  await job <- loadJob jobId (organisationId user) ;;
  if decide (Job.status job <> "failed")
  then throw (ThrowApp (BadRequestError "Only failed jobs can be retried" BAD_REQUEST))
  else ret jobId.

Definition retryJob_steps (user : JWTPayload) (jobIdParam : string)
  : Prog string :=
  atomic (fun _ => retry_check user jobIdParam) (fun jobId =>
  atomic (fun now => updateJob (setRetried now) jobId) (fun _ =>
  atomic
    (fun now => insertJobLog (newJobLog now jobId "info" "Job queued for retry"))
    (fun _ =>
  atomic (fun now => updateJob (setProcessing now) jobId) (fun _ =>
  Done (inr "Job queued for retry"))))).

(** A read route writes nothing, so where its statements fall between
    those of other requests makes no difference to the database: it is
    taken in one step. *)
Definition read_steps {A} (handler : Z -> M A) : Prog A :=
  atomic handler (fun answer => Done (inr answer)).

(** A request being served: the request and what is left of its
    handler. *)
Inductive Task : Type :=
| task (req : Request) {A : Type} (remaining : Prog A).

(** The database and the requests in flight. *)
Definition World : Type := Db * list Task.

Section Serving.

Context {Json : Type} (JSON_parse : string -> Thrown + Json).

Definition serving (req : Request) : Task :=
  match req with
  | ListJobs user projectIdParam query statusFilter =>
      task req (read_steps (fun _ => listJobs user projectIdParam query statusFilter))
  | CreateJob user projectIdParam body =>
      task req (createJob_steps user projectIdParam body)
  | GetJob user jobIdParam =>
      task req (read_steps (fun _ => getJob user jobIdParam))
  | GetProgress user jobIdParam =>
      task req (read_steps (fun now => getProgress now user jobIdParam))
  | GetLogs user jobIdParam query =>
      task req (read_steps (fun _ => getLogs JSON_parse user jobIdParam query))
  | CancelJob user jobIdParam =>
      task req (cancelJob_steps user jobIdParam)
  | RetryJob user jobIdParam =>
      task req (retryJob_steps user jobIdParam)
  end.

(** One step of the server: a request arrives, the next statement of a
    request in flight is executed at time [now], or the answer of a
    finished handler is sent. *)
Inductive step : World -> World -> Prop :=
| step_arrive db tasks req :
    step (db, tasks) (db, tasks ++ [serving req])
| step_statement db before after req now A statement (rest : Z -> Db -> Prog A) :
    step (db, before ++ task req (Await statement rest) :: after)
         (statement now db, before ++ task req (rest now db) :: after)
| step_answer db before after req A (result : Thrown + A) :
    step (db, before ++ task req (Done result) :: after)
         (db, before ++ after).

(** The worlds that the job routes can produce, starting with no job and
    no request; as in [reachable], the other routes of the server can only
    remove job rows. *)
Inductive interleaved : World -> Prop :=
| interleaved_init db :
    rows (processingJobs db) = ∅ -> interleaved (db, [])
| interleaved_step w w' :
    interleaved w -> step w w' -> interleaved w'
| interleaved_elsewhere db db' tasks :
    interleaved (db, tasks) ->
    rows (processingJobs db') ⊆ rows (processingJobs db) ->
    interleaved (db', tasks).

End Serving.

(** What a scheduler does: the task at position [i] executes its next
    statement at time [now]. *)
Definition advance_task (t : Task) (now : Z) (db : Db) : Db * Task :=
  match t with
  | task req (Await statement rest) => (statement now db, task req (rest now db))
  | task _ (Done _) => (db, t)
  end.

Fixpoint schedule (order : list (nat * Z)) (w : World) : World :=
  match order with
  | [] => w
  | (i, now) :: order =>
      match w.2 !! i with
      | Some t =>
          let '(db, t') := advance_task t now w.1 in
          schedule order (db, <[i := t']> w.2)
      | None => schedule order w
      end
  end.

(** [P] holds after every statement that is left of a handler, whenever
    and on whatever database the statement is executed, as long as [P]
    holds of that database. *)
Fixpoint keeps (P : Db -> Prop) {A} (remaining : Prog A) : Prop :=
  match remaining with
  | Done _ => True
  | Await statement rest =>
      forall now db, P db -> P (statement now db) /\ keeps P (rest now db)
  end.

(** The handler, continued from databases of which [P] holds, does not
    answer: it ends with an error. *)
Fixpoint refuses (P : Db -> Prop) {A} (remaining : Prog A) : Prop :=
  match remaining with
  | Done result => exists t, result = inl t
  | Await statement rest => forall now db, P db -> refuses P (rest now db)
  end.

(** The request is a cancel or a retry of the job [key]. *)
Definition targets (key : Z) (req : Request) : Prop :=
  match req with
  | CancelJob _ jobIdParam | RetryJob _ jobIdParam =>
      parseIntParam jobIdParam "jobId" = inr key
  | _ => False
  end.

(** [P] is kept by what is left of the request; and when the request is a
    cancel or a retry of the job [key], it does not answer. *)
Definition guarded (P : Db -> Prop) (key : option Z) (t : Task) : Prop :=
  match t with
  | task req remaining =>
      keeps P remaining /\
      (forall k, key = Some k -> targets k req -> refuses P remaining)
  end.

(** The row [job] is in the job table under [key]. *)
Definition still (key : Z) (job : Job.t) (db : Db) : Prop :=
  rows (processingJobs db) !! key = Some job.

(** No request is in flight. *)
Definition idle (w : World) : Prop := w.2 = [].

(** The weaker invariant on [completedAt], with the statuses that the
    routes write. *)
Definition completedAt_if_terminal (job : Job.t) : Prop :=
  api_status job /\ (terminal (Job.status job) -> is_Some (Job.completedAt job)).

End Interleaving.
Export Interleaving.

(* ===================================================================== *)
(** ** A cancel that arrives while the job is being created *)
(* ===================================================================== *)

Module SampleRace.

(** Two requests in flight on the sample project: the create of the
    first job and a cancel of job 1. *)
Definition arrivals : World :=
  (Sample.db0,
   [serving Sample.noJson (CreateJob Sample.admin "3" Sample.body0);
    serving Sample.noJson (CancelJob Sample.admin "1")]).

(** Create runs up to and including its two insertions, at times 1000 to
    1003; cancel runs to its end, at times 1500 to 1502; create then
    executes its last statement, at time 1600. *)
Definition raced : World :=
  schedule [(0%nat, 1000); (0%nat, 1001); (0%nat, 1002); (0%nat, 1003);
            (1%nat, 1500); (1%nat, 1501); (1%nat, 1502); (0%nat, 1600)]
    arrivals.

(** Later, with job 1 cancelled and no request in flight: another create
    and a retry of job 1, their statements interleaved. *)
Definition later : World :=
  schedule [(0%nat, 7000); (1%nat, 7100); (0%nat, 7200); (0%nat, 7300);
            (0%nat, 7400); (0%nat, 7500)]
    (Sample.db2,
     [serving Sample.noJson (CreateJob Sample.admin "3" Sample.body0);
      serving Sample.noJson (RetryJob Sample.admin "1")]).

End SampleRace.

(* ===================================================================== *)
(** ** The error of the authentication middleware ([server/errors/index.ts]) *)
(* ===================================================================== *)

Module ErrorClasses.

Definition UnauthorizedError (message : string) : AppError :=
  mkAppError Unauthorized message 401 "UNAUTHORIZED" true.

End ErrorClasses.
Export ErrorClasses.

(* ===================================================================== *)
(** ** String methods used by the middleware *)
(* ===================================================================== *)

Module JsString.

(** [s.startsWith(prefix)]. *)
Definition startsWith (prefix s : string) : bool := String.prefix prefix s.

(** [s.substring(n)]: what follows the first [n] characters. *)
Fixpoint substring_from (n : nat) (s : string) : string :=
  match n, s with
  | O, _ => s
  | S n, String _ r => substring_from n r
  | S _, EmptyString => EmptyString
  end.

(** [s.includes(needle)]. *)
Fixpoint includes (needle s : string) : bool :=
  if String.prefix needle s then true
  else match s with
       | String _ r => includes needle r
       | EmptyString => false
       end.

(** [s.split(sep)] for a separator of one character. *)
Fixpoint split (sep : ascii) (s : string) : list string :=
  match s with
  | EmptyString => [EmptyString]
  | String c r =>
      if Ascii.eqb c sep then EmptyString :: split sep r
      else match split sep r with
           | part :: parts => String c part :: parts
           | [] => [String c EmptyString]
           end
  end.

End JsString.
Export JsString.

(* ===================================================================== *)
(** ** Response envelopes ([server/lib/response.ts]) *)
(* ===================================================================== *)

Module Response.

Record ErrorDetail := mkErrorDetail {
  d_field : string;
  d_message : string
}.

(** The JSON body of a response whose data has type [T]. *)
Inductive Body (T : Type) :=
| DataBody (data : T)
| PaginatedBody (data : T) (pagination : Pagination)
| ErrorBody (code message : string) (details : option (list ErrorDetail)).
Arguments DataBody {T} _.
Arguments PaginatedBody {T} _ _.
Arguments ErrorBody {T} _ _ _.

Record Response (T : Type) := mkResponse {
  status : Z;
  body : Body T
}.
Arguments mkResponse {T} _ _.
Arguments status {T} _.
Arguments body {T} _.

(** [sendSuccess(res, data, statusCode = 200)]. *)
Definition sendSuccess {T} (data : T) (statusCode : option Z) : Response T :=
  mkResponse (default 200 statusCode) (DataBody data).

Definition sendPaginated {T} (data : T) (pagination : Pagination) : Response T :=
  mkResponse 200 (PaginatedBody data pagination).

Definition sendCreated {T} (data : T) : Response T :=
  sendSuccess data (Some 201).

(** [sendError]: the details are part of the body only when there are
    some. *)
Definition sendError {T} (statusCode : Z) (code message : string)
    (details : option (list ErrorDetail)) : Response T :=
  mkResponse statusCode
    (ErrorBody code message
       (match details with
        | Some (detail :: rest) => Some (detail :: rest)
        | Some [] | None => None
        end)).

End Response.
Export Response.

(* ===================================================================== *)
(** ** The global error handler ([server/middleware/error-handler.ts]) *)
(* ===================================================================== *)

Module ErrorHandler.

(** One issue of a [ZodError]: its path, already as strings, and its
    message. *)
Record ZodIssue := mkZodIssue {
  z_path : list string;
  z_message : string
}.

(** An error that is not an [AppError], with the properties that the
    handler reads: [name], [message], the [errors] of a Zod error and the
    [code] of a Multer error. *)
Record JsError := mkJsError {
  e_name : string;
  e_message : string;
  e_errors : option (list ZodIssue);
  e_code : option string
}.

Inductive Caught :=
| CaughtApp (e : AppError)
| CaughtOther (e : JsError).

(** What reaches the handler when a job handler throws. *)
Definition caught (t : Thrown) : Caught :=
  match t with
  | ThrowApp e => CaughtApp e
  | ThrowOther name msg => CaughtOther (mkJsError name msg None None)
  end.

Definition zodDetails (issues : list ZodIssue) : list ErrorDetail :=
  (fun issue => mkErrorDetail (String.concat "." (z_path issue)) (z_message issue))
    <$> issues.

(** [errorHandler(err, req, res, next)]; [NODE_ENV] is the value of
    [process.env.NODE_ENV], absent when the variable is not set. The
    logging to the console is left out. *)
Definition errorHandler {T} (NODE_ENV : option string) (err : Caught)
  : Response T :=
  match err with
  | CaughtApp err =>
      sendError (statusCode err) (code err) (message err) None
  | CaughtOther err =>
      if decide (e_name err = "ZodError") then
        sendError 400 "VALIDATION_ERROR" "Validation failed"
          (zodDetails <$> e_errors err)
      else if decide (e_name err = "JsonWebTokenError") then
        sendError 401 "UNAUTHORIZED" "Invalid authentication token" None
      else if decide (e_name err = "TokenExpiredError") then
        sendError 401 "UNAUTHORIZED" "Authentication token expired" None
      else if decide (e_name err = "MulterError") then
        let message :=
          if decide (e_code err = Some "LIMIT_FILE_SIZE")
          then "File too large (max 100MB)"
          else if decide (e_code err = Some "LIMIT_FILE_COUNT")
          then "Too many files"
          else "File upload error" in
        sendError 400 "VALIDATION_ERROR" message None
      else if includes "unique constraint" (e_message err) then
        sendError 409 "CONFLICT" "Resource already exists" None
      else if includes "foreign key constraint" (e_message err) then
        sendError 400 "VALIDATION_ERROR" "Referenced resource does not exist" None
      else
        sendError 500 "INTERNAL_ERROR"
          (if decide (NODE_ENV = Some "development") then e_message err
           else "An unexpected error occurred")
          None
  end.

(** A route: [asyncHandler] passes what the handler throws to the error
    handler, and the handler sends its answer itself. The result is the
    response and the database that the request leaves. *)
Definition serve {A T} (NODE_ENV : option string) (send : A -> Response T)
    (handled : Run A) : Response T * Db :=
  (match outcome handled with
   | inr answer => send answer
   | inl thrown => errorHandler NODE_ENV (caught thrown)
   end,
   final handled).

End ErrorHandler.
Export ErrorHandler.

(* ===================================================================== *)
(** ** Authentication middleware ([server/middleware/auth.ts]) *)
(* ===================================================================== *)

Module AuthMiddleware.

Section Tokens.

(** [verifyToken] of [server/lib/tokens.ts] checks a signature with the
    [jsonwebtoken] library; it is taken as given: it returns the payload
    or throws. *)
Variable verifyToken : string -> Thrown + JWTPayload.

(** The [catch] clause of [requireAuth]: what is passed to [next]. *)
Definition requireAuth_catch (error : Thrown) : Thrown :=
  match error with
  | ThrowApp e =>
      if decide (cls e = Unauthorized) then error
      else ThrowApp (UnauthorizedError "Invalid token")
  | ThrowOther name _ =>
      if decide (name = "JsonWebTokenError" \/ name = "TokenExpiredError")
      then error
      else ThrowApp (UnauthorizedError "Invalid token")
  end.

(** [requireAuth] on the [authorization] header of the request: the
    error passed to [next], or the user attached to the request. *)
Definition requireAuth (authorization : option string) : Thrown + JWTPayload :=
  let attempt : Thrown + JWTPayload :=
    match authorization with
    | None | Some "" =>
        inl (ThrowApp (UnauthorizedError "Authorization header required"))
    | Some authHeader =>
        if negb (startsWith "Bearer " authHeader)
        then inl (ThrowApp (UnauthorizedError "Invalid authorization format"))
        else
          let token := substring_from 7 authHeader in
          match token with
          | "" => inl (ThrowApp (UnauthorizedError "Token required"))
          | _ => verifyToken token
          end
    end in
  match attempt with
  | inl error => inl (requireAuth_catch error)
  | inr payload => inr payload
  end.

(** [optionalAuth]: the user attached to the request, if any; [next] is
    always called without an error. *)
Definition optionalAuth (authorization : option string) : option JWTPayload :=
  match authorization with
  | None | Some "" => None
  | Some authHeader =>
      if startsWith "Bearer " authHeader then
        let token := substring_from 7 authHeader in
        match token with
        | "" => None
        | _ =>
            match verifyToken token with
            | inr payload => Some payload
            | inl _ => None
            end
        end
      else None
  end.

End Tokens.

End AuthMiddleware.
Export AuthMiddleware.

(* ===================================================================== *)
(** ** The job routes with their responses *)
(* ===================================================================== *)

Module JobRoutes.

(** Each route of [server/routes/jobs.ts] as [router] mounts it: its
    handler under [asyncHandler], answering through the response helpers.
    The data of a body is the record that the handler returns; the JSON
    property that wraps it ([job], [progress], [message]) is left out. *)

Definition listJobsRoute (NODE_ENV : option string) (user : JWTPayload)
    (projectIdParam : string) (query : Query) (statusFilter : option string)
    (db : Db) : Response (list JobView) * Db :=
  serve NODE_ENV (fun '(jobs, pagination) => sendPaginated jobs pagination)
    (listJobs user projectIdParam query statusFilter db).

Definition createJobRoute (NODE_ENV : option string) (now : Z)
    (user : JWTPayload) (projectIdParam : string) (body : CreateJobBody)
    (db : Db) : Response CreatedJob * Db :=
  serve NODE_ENV sendCreated (createJob now user projectIdParam body db).

Definition getJobRoute (NODE_ENV : option string) (user : JWTPayload)
    (jobIdParam : string) (db : Db) : Response JobView * Db :=
  serve NODE_ENV (fun job => sendSuccess job None) (getJob user jobIdParam db).

Definition getProgressRoute (NODE_ENV : option string) (now : Z)
    (user : JWTPayload) (jobIdParam : string) (db : Db)
  : Response ProgressSnapshot * Db :=
  serve NODE_ENV (fun progress => sendSuccess progress None)
    (getProgress now user jobIdParam db).

Definition cancelJobRoute (NODE_ENV : option string) (now : Z)
    (user : JWTPayload) (jobIdParam : string) (db : Db)
  : Response string * Db :=
  serve NODE_ENV (fun message => sendSuccess message None)
    (cancelJob now user jobIdParam db).

Definition retryJobRoute (NODE_ENV : option string) (now : Z)
    (user : JWTPayload) (jobIdParam : string) (db : Db)
  : Response string * Db :=
  serve NODE_ENV (fun message => sendSuccess message None)
    (retryJob now user jobIdParam db).

Section LogsRoute.

Context {Json : Type} (JSON_parse : string -> Thrown + Json).

Definition getLogsRoute (NODE_ENV : option string) (user : JWTPayload)
    (jobIdParam : string) (query : Query) (db : Db)
  : Response (list (LogView Json)) * Db :=
  serve NODE_ENV (fun '(logs, pagination) => sendPaginated logs pagination)
    (getLogs JSON_parse user jobIdParam query db).

Definition status_and_db {T} (served : Response T * Db) : Z * Db :=
  (status served.1, served.2).

(** The status with which a request is answered and the database that it
    leaves. *)
Definition respond (NODE_ENV : option string) (now : Z) (req : Request)
    (db : Db) : Z * Db :=
  match req with
  | ListJobs user projectIdParam query statusFilter =>
      status_and_db (listJobsRoute NODE_ENV user projectIdParam query statusFilter db)
  | CreateJob user projectIdParam body =>
      status_and_db (createJobRoute NODE_ENV now user projectIdParam body db)
  | GetJob user jobIdParam =>
      status_and_db (getJobRoute NODE_ENV user jobIdParam db)
  | GetProgress user jobIdParam =>
      status_and_db (getProgressRoute NODE_ENV now user jobIdParam db)
  | GetLogs user jobIdParam query =>
      status_and_db (getLogsRoute NODE_ENV user jobIdParam query db)
  | CancelJob user jobIdParam =>
      status_and_db (cancelJobRoute NODE_ENV now user jobIdParam db)
  | RetryJob user jobIdParam =>
      status_and_db (retryJobRoute NODE_ENV now user jobIdParam db)
  end.

(** Every [details] that the log table holds is JSON that parses. *)
Definition details_parse (db : Db) : Prop :=
  forall key log details,
    rows (jobLogs db) !! key = Some log ->
    JobLog.details log = Some details ->
    exists value, JSON_parse details = inr value.

End LogsRoute.

(** The status of the answer of a route when its handler does not
    throw. *)
Definition success_status (req : Request) : Z :=
  match req with
  | CreateJob _ _ _ => 201
  | _ => 200
  end.

(** The errors with which the job handlers refuse a request. *)
Definition refusal (t : Thrown) : Prop :=
  exists e,
    t = ThrowApp e /\
    ((cls e = BadRequest /\ statusCode e = 400) \/
     (cls e = Forbidden /\ statusCode e = 403 /\ code e = "FORBIDDEN") \/
     (cls e = NotFound /\ statusCode e = 404 /\ code e = "NOT_FOUND")).

(** A run that answered, or that refused the request before any write. *)
Definition answered_or_refused {A} (db : Db) (handled : Run A) : Prop :=
  (exists answer, outcome handled = inr answer) \/
  (exists t, outcome handled = inl t /\ refusal t /\
             trace handled = [] /\ final handled = db).

End JobRoutes.
Export JobRoutes.

(* ===================================================================== *)
(** ** Encryption of stored secrets ([server/lib/encryption.ts]) *)
(* ===================================================================== *)

Module Encryption.

(** A Node [Buffer]. *)
Definition Buffer : Type := list Byte.byte.

(** One digit of [buffer.toString('hex')]. *)
Definition hex_digit (n : N) : ascii :=
  if (n <? 10)%N then ascii_of_N (48 + n) else ascii_of_N (87 + n).

(** [buffer.toString('hex')]: two lower-case digits for each byte. *)
Fixpoint toHex (buffer : Buffer) : string :=
  match buffer with
  | [] => EmptyString
  | byte :: rest =>
      String (hex_digit (Byte.to_N byte / 16))
        (String (hex_digit (Byte.to_N byte mod 16)) (toHex rest))
  end.

Definition hex_value (a : ascii) : option N :=
  let n := N_of_ascii a in
  if ((48 <=? n) && (n <=? 57))%N then Some (n - 48)%N
  else if ((97 <=? n) && (n <=? 102))%N then Some (n - 87)%N
  else if ((65 <=? n) && (n <=? 70))%N then Some (n - 55)%N
  else None.

(** [Buffer.from(text, 'hex')]: the bytes of the pairs of digits, up to
    the first pair that is not one. *)
Fixpoint fromHex (text : string) : Buffer :=
  match text with
  | String high (String low rest) =>
      match hex_value high, hex_value low with
      | Some h, Some l =>
          match Byte.of_N (16 * h + l) with
          | Some byte => byte :: fromHex rest
          | None => []
          end
      | _, _ => []
      end
  | _ => []
  end.

Definition IV_LENGTH : nat := 16.

Section Cipher.

(** [process.env.ENCRYPTION_KEY]. *)
Variable ENCRYPTION_KEY : option string.

(** AES-256-GCM of Node's [crypto] is taken as given. [cipher key iv text]
    stands for [createCipheriv], [update(text, 'utf8', 'hex')], [final] and
    [getAuthTag]: the bytes of the ciphertext and the tag. [decipher key iv
    authTag encrypted] stands for [createDecipheriv], [setAuthTag],
    [update(encrypted, 'hex', 'utf8')] and [final]. Both can throw. *)
Variable cipher : Buffer -> Buffer -> string -> Thrown + (Buffer * Buffer).
Variable decipher : Buffer -> Buffer -> Buffer -> string -> Thrown + string.

Definition getKey : Thrown + Buffer :=
  match ENCRYPTION_KEY with
  | None | Some "" =>
      inl (ThrowOther "Error"
             "ENCRYPTION_KEY environment variable is required for encryption")
  | Some key =>
      if decide (String.length key <> 64%nat)
      then inl (ThrowOther "Error"
                  "ENCRYPTION_KEY must be exactly 64 hex characters (32 bytes)")
      else inr (fromHex key)
  end.

(** [encrypt(text)], where [iv] is what [crypto.randomBytes(IV_LENGTH)]
    returns. *)
Definition encrypt (iv : Buffer) (text : string) : Thrown + string :=
  match getKey with
  | inl e => inl e
  | inr key =>
      match cipher key iv text with
      | inl e => inl e
      | inr (encrypted, authTag) =>
          inr (toHex iv +:+ ":" +:+ toHex encrypted +:+ ":" +:+ toHex authTag)
      end
  end.

(** A part of the split text that is present and not empty. *)
Definition truthy (part : option string) : bool :=
  match part with
  | None | Some "" => false
  | Some _ => true
  end.

Definition decrypt (encryptedText : string) : Thrown + string :=
  match getKey with
  | inl e => inl e
  | inr key =>
      let parts := split ":" encryptedText in
      let ivHex := parts !! 0%nat in
      let encrypted := parts !! 1%nat in
      let authTagHex := parts !! 2%nat in
      if negb (truthy ivHex) || negb (truthy encrypted) || negb (truthy authTagHex)
      then inl (ThrowOther "Error" "Invalid encrypted data format")
      else
        let iv := fromHex (default "" ivHex) in
        let authTag := fromHex (default "" authTagHex) in
        decipher key iv authTag (default "" encrypted)
  end.

End Cipher.

(** What the development assumes of AES-256-GCM: a tag is never empty, the
    ciphertext is empty exactly for the empty text, and deciphering with the
    same key, [iv] and tag gives the text back. *)
Definition authenticated_cipher
    (cipher : Buffer -> Buffer -> string -> Thrown + (Buffer * Buffer))
    (decipher : Buffer -> Buffer -> Buffer -> string -> Thrown + string) : Prop :=
  forall key iv text encrypted authTag,
    cipher key iv text = inr (encrypted, authTag) ->
    authTag <> [] /\
    (encrypted = [] <-> text = "") /\
    decipher key iv authTag (toHex encrypted) = inr text.

End Encryption.
Export Encryption.

(* ===================================================================== *)
(** ** Environment configuration ([server/config/env.ts]) *)
(* ===================================================================== *)

Module Config.

Section Environment.

(** [process.env], after [dotenv.config()]. *)
Variable process_env : string -> option string.

Definition requireEnv (key : string) : Thrown + string :=
  match process_env key with
  | None | Some "" =>
      inl (ThrowOther "Error" ("Environment variable " +:+ key +:+ " is required"))
  | Some value => inr value
  end.

Definition optionalEnv (key : string) : option string := process_env key.

Record Env := mkEnv {
  DATABASE_URL : string;
  JWT_SECRET : string;
  ENCRYPTION_KEY : string;
  AWS_REGION : string;
  AWS_ACCESS_KEY_ID : string;
  AWS_SECRET_ACCESS_KEY : string;
  AWS_S3_BUCKET : string;
  AWS_ENDPOINT : option string;
  RESEND_API_KEY : option string;
  EMAIL_FROM : option string;
  TEAMWORK_DESK_CLIENT_ID : option string;
  TEAMWORK_DESK_CLIENT_SECRET : option string;
  TEAMWORK_DESK_REDIRECT_URI : option string;
  NODE_ENV : string;
  PORT : JsNum
}.

(** [value || fallback] on a string that may be absent. *)
Definition or_else (value : option string) (fallback : string) : string :=
  match value with
  | None | Some "" => fallback
  | Some value => value
  end.

Definition isDevelopment (env : Env) : bool :=
  bool_decide (NODE_ENV env = "development").

(** Loading the module: the [env] object, then the two checks. *)
Definition loadEnv : Thrown + Env :=
  match requireEnv "DATABASE_URL" with inl e => inl e | inr database_url =>
  match requireEnv "JWT_SECRET" with inl e => inl e | inr jwt_secret =>
  match requireEnv "ENCRYPTION_KEY" with inl e => inl e | inr encryption_key =>
  match requireEnv "AWS_REGION" with inl e => inl e | inr aws_region =>
  match requireEnv "AWS_ACCESS_KEY_ID" with inl e => inl e | inr aws_access_key_id =>
  match requireEnv "AWS_SECRET_ACCESS_KEY" with inl e => inl e | inr aws_secret =>
  match requireEnv "AWS_S3_BUCKET" with inl e => inl e | inr aws_s3_bucket =>
    let env :=
      mkEnv database_url jwt_secret encryption_key aws_region
        aws_access_key_id aws_secret aws_s3_bucket
        (optionalEnv "AWS_ENDPOINT") (optionalEnv "RESEND_API_KEY")
        (optionalEnv "EMAIL_FROM") (optionalEnv "TEAMWORK_DESK_CLIENT_ID")
        (optionalEnv "TEAMWORK_DESK_CLIENT_SECRET")
        (optionalEnv "TEAMWORK_DESK_REDIRECT_URI")
        (or_else (process_env "NODE_ENV") "development")
        (parseInt (or_else (process_env "PORT") "5000")) in
    if decide (String.length (ENCRYPTION_KEY env) <> 64%nat)
    then inl (ThrowOther "Error" "ENCRYPTION_KEY must be exactly 64 hex characters")
    else if decide (String.length (JWT_SECRET env) < 32)%nat
    then inl (ThrowOther "Error" "JWT_SECRET must be at least 32 characters")
    else inr env
  end end end end end end end.

End Environment.

(** The variables without which the server does not start. *)
Definition required : list string :=
  ["DATABASE_URL"; "JWT_SECRET"; "ENCRYPTION_KEY"; "AWS_REGION";
   "AWS_ACCESS_KEY_ID"; "AWS_SECRET_ACCESS_KEY"; "AWS_S3_BUCKET"].

End Config.

(* ===================================================================== *)
(** ** Sample cipher *)
(* ===================================================================== *)

Module SampleCipher.

(** A cipher that hides nothing, with a constant tag. *)
Definition cipher (key iv : Buffer) (text : string) : Thrown + (Buffer * Buffer) :=
  inr (list_byte_of_string text, [Byte.x2a]).

Definition decipher (key iv authTag : Buffer) (encrypted : string)
  : Thrown + string :=
  inr (string_of_list_byte (fromHex encrypted)).

Definition key : string :=
  "000102030405060708090a0b0c0d0e0f101112131415161718191a1b1c1d1e1f".

Definition iv : Buffer := fromHex "a0a1a2a3a4a5a6a7a8a9aaabacadaeaf".

End SampleCipher.

(* ===================================================================== *)
(** ** Sample environment *)
(* ===================================================================== *)

Module SampleEnv.

(** An environment with the seven required variables and nothing else. *)
Definition process_env (key : string) : option string :=
  if String.eqb key "DATABASE_URL" then Some "postgres://localhost/foundry"
  else if String.eqb key "JWT_SECRET" then Some "0123456789abcdef0123456789abcdef"
  else if String.eqb key "ENCRYPTION_KEY" then Some SampleCipher.key
  else if String.eqb key "AWS_REGION" then Some "eu-west-1"
  else if String.eqb key "AWS_ACCESS_KEY_ID" then Some "AKIAEXAMPLE"
  else if String.eqb key "AWS_SECRET_ACCESS_KEY" then Some "secret"
  else if String.eqb key "AWS_S3_BUCKET" then Some "foundry-uploads"
  else None.

End SampleEnv.

(* ===================================================================== *)
(** ** Sample tokens *)
(* ===================================================================== *)

Module SampleAuth.

(** A token check that knows one valid token and one expired token. *)
Definition verify (token : string) : Thrown + JWTPayload :=
  if String.eqb token "good" then inr Sample.admin
  else if String.eqb token "old"
  then inl (ThrowOther "TokenExpiredError" "jwt expired")
  else inl (ThrowOther "JsonWebTokenError" "invalid signature").

End SampleAuth.

(* ===================================================================== *)
(** * Properties *)
(* ===================================================================== *)

(** ** Running a handler *)

Ltac unfold_run :=
  unfold insertJob, insertJobLog, updateJob, loadJob, verifyProjectAccess,
    requireRole, validateBody, bind, lift, throw, ret, get, put in *;
  cbn [outcome trace final app] in *.

Lemma alter_at {A} (f : A -> A) (m : gmap Z A) (k : Z) (a : A) :
  m !! k = Some a -> alter f k m = <[k := f a]> m.
Proof.
  intros Hk. apply map_eq. intros i.
  rewrite lookup_alter, lookup_insert.
  destruct (decide (k = i)) as [->|]; [by rewrite Hk | done].
Qed.

Lemma alter_inserted {A} (f : A -> A) (m : gmap Z A) (k : Z) (a : A) :
  alter f k (<[k := a]> m) = <[k := f a]> m.
Proof.
  rewrite (alter_at f _ k a) by apply lookup_insert_eq.
  apply insert_insert_eq.
Qed.

Ltac split_trace H :=
  repeat (apply elem_of_cons in H as [->|H]); try (by apply elem_of_nil in H).

(** The scrutinee on which a run is stuck. *)
Ltac stuck_on t :=
  lazymatch t with
  | match ?x with _ => _ end => stuck_on x
  | ?f _ =>
      lazymatch f with
      | match ?x with _ => _ end => stuck_on x
      | _ => t
      end
  | _ => t
  end.

Ltac step_run :=
  let go r :=
    let x := stuck_on r in
    destruct x eqn:?; cbn [outcome trace final app] in * in
  match goal with
  | |- context [trace ?r] => go r
  | |- context [outcome ?r] => go r
  | |- context [final ?r] => go r
  end.

Ltac run_cases :=
  unfold_run; unfold insert_row, findJob in *;
  cbn [outcome trace final app] in *;
  repeat step_run; simplify_eq.

(** ** Every write of a job route is a transition of the job machine *)

Lemma listJobs_trace user p query statusFilter db :
  trace (listJobs user p query statusFilter db) = [].
Proof. unfold listJobs. unfold findProject. run_cases; reflexivity. Qed.

Lemma getJob_trace user p db : trace (getJob user p db) = [].
Proof. unfold getJob. run_cases; reflexivity. Qed.

Lemma getProgress_trace now user p db : trace (getProgress now user p db) = [].
Proof. unfold getProgress. run_cases; reflexivity. Qed.

Lemma getLogs_trace {Json} (JSON_parse : string -> Thrown + Json) user p query db :
  trace (getLogs JSON_parse user p query db) = [].
Proof. unfold getLogs. run_cases; reflexivity. Qed.

Lemma cancelJob_transition now user p db db' :
  db' ∈ trace (cancelJob now user p db) ->
  transition (rows (processingJobs db)) (rows (processingJobs db')).
Proof.
  unfold cancelJob. run_cases.
  all: intros Hin; split_trace Hin; cbn.
  all: erewrite alter_at by eassumption.
  all: apply t_cancelled; [done | by apply dec_stable].
Qed.

Lemma retryJob_transition now user p db db' :
  db' ∈ trace (retryJob now user p db) ->
  transition (rows (processingJobs db)) (rows (processingJobs db')).
Proof.
  unfold retryJob. run_cases.
  all: intros Hin; split_trace Hin; cbn.
  all: erewrite (alter_at (setRetried now)) by eassumption.
  all: rewrite ?alter_inserted, ?insert_insert_eq.
  all: first [ apply t_retried | apply t_restarted ]; [done | by apply dec_stable].
Qed.

Lemma createJob_transition now user p body db db' :
  db' ∈ trace (createJob now user p body db) ->
  transition (rows (processingJobs db)) (rows (processingJobs db')).
Proof.
  unfold createJob. run_cases.
  all: intros Hin; split_trace Hin; cbn.
  all: rewrite ?alter_inserted.
  all: first [ apply t_unchanged | by apply t_created | by apply t_started ].
Qed.

Lemma writes_transition {Json} (JSON_parse : string -> Thrown + Json)
    now req db db' :
  db' ∈ writes JSON_parse now req db ->
  transition (rows (processingJobs db)) (rows (processingJobs db')).
Proof.
  destruct req; cbn [writes].
  - rewrite listJobs_trace. by intros ?%elem_of_nil.
  - apply createJob_transition.
  - rewrite getJob_trace. by intros ?%elem_of_nil.
  - rewrite getProgress_trace. by intros ?%elem_of_nil.
  - rewrite getLogs_trace. by intros ?%elem_of_nil.
  - apply cancelJob_transition.
  - apply retryJob_transition.
Qed.

(** ** Invariants of the job rows *)

(** Membership in a list of string literals, and its refutation. *)
Ltac in_list :=
  repeat first [ apply list_elem_of_here | apply list_elem_of_further ].

Ltac not_in_list H :=
  repeat (apply elem_of_cons in H as [H|H]; [discriminate H|]);
  by apply elem_of_nil in H.

Lemma transition_completedAt m m' :
  transition m m' ->
  map_Forall (fun _ job => completedAt_iff_terminal job) m ->
  map_Forall (fun _ job => completedAt_iff_terminal job) m'.
Proof.
  unfold completedAt_iff_terminal, terminal.
  destruct 1 as [|key job Hkey Hst Hdone|key job now Hkey Hst Hdone
                 |key job now Hkey Hst|key job now Hkey Hst
                 |key job now now' Hkey Hst]; intros Hall; [done|..];
    apply map_Forall_insert_2; try done; cbn.
  - rewrite Hst, Hdone. split; [by intros [? [=]] | intros H; not_in_list H].
  - rewrite Hdone. split; [by intros [? [=]] | intros H; not_in_list H].
  - split; [intros _; in_list | by eexists].
  - split; [by intros [? [=]] | intros H; not_in_list H].
  - split; [by intros [? [=]] | intros H; not_in_list H].
Qed.

Lemma transition_api_status m m' :
  transition m m' ->
  map_Forall (fun _ job => api_status job) m ->
  map_Forall (fun _ job => api_status job) m'.
Proof.
  unfold api_status.
  destruct 1 as [|key job Hkey Hst Hdone|key job now Hkey Hst Hdone
                 |key job now Hkey Hst|key job now Hkey Hst
                 |key job now now' Hkey Hst]; intros Hall; [done|..].
  - apply map_Forall_insert_2; [rewrite Hst; in_list | done].
  - apply map_Forall_insert_2; [cbn; in_list | done].
  - apply map_Forall_insert_2; [cbn; in_list | done].
  - specialize (Hall _ _ Hkey). cbn in Hall. rewrite Hst in Hall. not_in_list Hall.
  - specialize (Hall _ _ Hkey). cbn in Hall. rewrite Hst in Hall. not_in_list Hall.
Qed.

Lemma reachable_all_jobs {Json} (JSON_parse : string -> Thrown + Json)
    (P : Job.t -> Prop) :
  (forall m m', transition m m' ->
     map_Forall (fun _ job => P job) m -> map_Forall (fun _ job => P job) m') ->
  forall db, reachable JSON_parse db -> all_jobs P db.
Proof.
  intros Hstep db Hreach. unfold all_jobs.
  induction Hreach as [db Hempty|db now req db' _ IH Hin|db db' _ IH Hsub].
  - rewrite Hempty. apply map_Forall_empty.
  - eapply Hstep; [|exact IH]. by eapply writes_transition.
  - intros key job Hkey. apply (IH key). by eapply lookup_weaken.
Qed.

(** ** Cancel and retry, step by step *)

Section JobRequest.

Variables (now : Z) (user : JWTPayload) (jobIdParam : string).
Variables (jobId : Z) (job : Job.t) (db : Db).

Hypothesis Hrole : role user ∈ ["admin"; "editor"].
Hypothesis Hparam : parseIntParam jobIdParam "jobId" = inr jobId.
Hypothesis Hjob : findJob jobId db = Some job.
Hypothesis Horg : Job.organisationId job = organisationId user.

Ltac prologue :=
  unfold_run; unfold findJob, insert_row in *;
  destruct (decide (role user ∈ _)) as [_|[]]; [|done];
  cbn; rewrite Hparam; cbn; rewrite Hjob;
  destruct (decide (Job.organisationId job <> _)) as [[]|_]; [done|]; cbn.

Lemma cancelJob_refused :
  Job.status job ∉ ["pending"; "processing"] ->
  cancelJob now user jobIdParam db =
    mkRun (inl (ThrowApp (BadRequestError
             "Only pending or processing jobs can be cancelled" "BAD_REQUEST")))
          [] db.
Proof.
  intros Hst. unfold cancelJob. prologue.
  destruct (decide _) as [_|[]]; [|done]. reflexivity.
Qed.

Lemma cancelJob_accepted :
  Job.status job ∈ ["pending"; "processing"] ->
  seq_fresh (jobLogs db) ->
  let db1 := storeJob jobId (setCancelled now job) db in
  let db2 := appendLog now jobId "info" "Job cancelled by user" db1 in
  cancelJob now user jobIdParam db =
    mkRun (inr "Job cancelled successfully") [db1; db2] db2.
Proof.
  intros Hst Hfresh. unfold cancelJob. prologue.
  destruct (decide _) as [[]|_]; [done|]. cbn.
  unfold seq_fresh in Hfresh. rewrite Hfresh. cbn.
  unfold storeJob, appendLog, update_row. cbn.
  rewrite (alter_at _ _ _ _ Hjob). reflexivity.
Qed.

Lemma retryJob_refused :
  Job.status job <> "failed" ->
  retryJob now user jobIdParam db =
    mkRun (inl (ThrowApp (BadRequestError
             "Only failed jobs can be retried" "BAD_REQUEST")))
          [] db.
Proof.
  intros Hst. unfold retryJob. prologue.
  destruct (decide _) as [_|[]]; [|done]. reflexivity.
Qed.

Lemma retryJob_accepted :
  Job.status job = "failed" ->
  seq_fresh (jobLogs db) ->
  let db1 := storeJob jobId (setRetried now job) db in
  let db2 := appendLog now jobId "info" "Job queued for retry" db1 in
  let db3 := storeJob jobId (setProcessing now (setRetried now job)) db2 in
  retryJob now user jobIdParam db =
    mkRun (inr "Job queued for retry") [db1; db2; db3] db3.
Proof.
  intros Hst Hfresh. unfold retryJob. prologue.
  destruct (decide _) as [[]|_]; [done|]. cbn.
  unfold seq_fresh in Hfresh. rewrite Hfresh. cbn.
  unfold storeJob, appendLog, update_row. cbn.
  rewrite (alter_at _ _ _ _ Hjob), alter_inserted, insert_insert_eq.
  reflexivity.
Qed.

End JobRequest.

(** A request on a job is answered only for a job that exists in the
    caller's organisation. *)
Lemma cancelJob_answered now user jobIdParam db msg :
  outcome (cancelJob now user jobIdParam db) = inr msg ->
  exists jobId job,
    parseIntParam jobIdParam "jobId" = inr jobId /\
    findJob jobId db = Some job /\
    Job.status job ∈ ["pending"; "processing"].
Proof.
  unfold cancelJob. run_cases; intros [=].
  eexists _, _. split; [done|]. split; [done|]. by apply dec_stable.
Qed.

Lemma retryJob_answered now user jobIdParam db msg :
  outcome (retryJob now user jobIdParam db) = inr msg ->
  exists jobId job,
    parseIntParam jobIdParam "jobId" = inr jobId /\
    findJob jobId db = Some job /\
    Job.status job = "failed".
Proof.
  unfold retryJob. run_cases; intros [=].
  eexists _, _. split; [done|]. split; [done|]. by apply dec_stable.
Qed.

(** ** Create, step by step *)

Section CreateRequest.

Variables (now : Z) (user : JWTPayload) (projectIdParam : string).
Variables (body : CreateJobBody) (projectId : Z) (project : Project.t) (db : Db).

Hypothesis Hrole : role user ∈ ["admin"; "editor"].
Hypothesis Hbody : createJobSchema body.
Hypothesis Hparam : parseIntParam projectIdParam "projectId" = inr projectId.
Hypothesis Hproject : findProject projectId db = Some project.
Hypothesis Horg : Project.organisationId project = organisationId user.

Ltac prologue :=
  unfold createJob; unfold_run; unfold insert_row in *;
  destruct (decide (role user ∈ _)) as [_|[]]; [|done]; cbn;
  destruct (decide (createJobSchema body)) as [_|[]]; [|exact Hbody]; cbn;
  rewrite Hparam; cbn; rewrite Hproject;
  destruct (decide (Project.organisationId project <> _)) as [[]|_]; [done|]; cbn.




Lemma createJob_accepted mapping dataSource :
  creatable (b_schemaMappingId body) projectId db mapping dataSource ->
  seq_fresh (processingJobs db) ->
  seq_fresh (jobLogs db) ->
  let key := nextval (processingJobs db) in
  let job :=
    newJob now (organisationId user) projectId mapping dataSource
      (b_outputFormat body) (b_outputName body) key in
  let db1 := insertedJob job db in
  let db2 := appendLog now key "info" "Job created and queued for processing" db1 in
  let db3 := storeJob key (setProcessing now job) db2 in
  createJob now user projectIdParam body db =
    mkRun (inr (mkCreatedJob key projectId (DataSource.id dataSource)
                  (SchemaMapping.id mapping) "processing"
                  (b_outputFormat body) (Job.outputName job)
                  0 "initializing" now))
          [db1; db2; db3] db3.
Proof.
  intros (Hmap & Hactive & Hready) Hjobs Hlogs. prologue. rewrite Hmap.
  destruct (decide _) as [[]|_]; [done|].
  destruct (decide _) as [[]|_]; [done|]. cbn.
  unfold seq_fresh in *. rewrite Hjobs. cbn. rewrite Hlogs. cbn.
  unfold storeJob, appendLog, insertedJob, update_row. cbn.
  rewrite alter_inserted, insert_insert_eq. reflexivity.
Qed.

End CreateRequest.


(** ** Statuses that the routes can produce *)

(** C9. In every database that the job routes can produce from one without
    jobs (create, cancel, retry and the read routes, in any order, every
    intermediate write included), each job is [pending], [processing] or
    [cancelled]; none is [completed] or [failed]. *)
Theorem never_completed_or_failed {Json} (JSON_parse : string -> Thrown + Json)
    db key job :
  reachable JSON_parse db ->
  rows (processingJobs db) !! key = Some job ->
  Job.status job ∈ ["pending"; "processing"; "cancelled"] /\
  Job.status job <> "completed" /\ Job.status job <> "failed".
Proof.
  intros Hreach Hkey.
  pose proof (reachable_all_jobs JSON_parse api_status transition_api_status
                db Hreach key job Hkey) as Hst.
  unfold api_status in Hst. split; [done|].
  split; intros Heq; rewrite Heq in Hst; not_in_list Hst.
Qed.

Lemma never_completed_or_failed_witness :
  exists job,
    rows (processingJobs Sample.db2) !! 1 = Some job /\
    Job.status job = "cancelled" /\
    Job.status job <> "completed" /\ Job.status job <> "failed".
Proof.
  eexists. split; [vm_compute; reflexivity|]. split; [reflexivity|].
  refine (proj2 (never_completed_or_failed Sample.noJson Sample.db2 1 _ _ _)).
  - apply reachable_request
      with (db := Sample.db1) (now := 6000) (req := CancelJob Sample.admin "1").
    + apply reachable_request
        with (db := Sample.db0) (now := 1000)
             (req := CreateJob Sample.admin "3" Sample.body0).
      * by apply reachable_init.
      * vm_compute. do 2 apply list_elem_of_further. apply list_elem_of_here.
    + vm_compute. apply list_elem_of_further. apply list_elem_of_here.
  - vm_compute. reflexivity.
Defined.

(** ** Cancel *)

(** C1. [cancel] answers only for a job that is [pending] or [processing].
    For such a job of the caller's organisation it stores the row with
    status [cancelled] and [completedAt] set to the time of the request,
    leaves every other job as it was, and appends one [info] log entry.
    For a job in any other status it throws a [BadRequest] error (400) and
    writes nothing. *)
Theorem cancel_only_pending_or_processing now user jobIdParam db :
  let r := cancelJob now user jobIdParam db in
  (forall msg, outcome r = inr msg ->
     exists jobId job,
       parseIntParam jobIdParam "jobId" = inr jobId /\
       findJob jobId db = Some job /\
       Job.status job ∈ ["pending"; "processing"]) /\
  (forall jobId job,
     role user ∈ ["admin"; "editor"] ->
     parseIntParam jobIdParam "jobId" = inr jobId ->
     findJob jobId db = Some job ->
     Job.organisationId job = organisationId user ->
     (Job.status job ∈ ["pending"; "processing"] ->
      seq_fresh (jobLogs db) ->
      outcome r = inr "Job cancelled successfully" /\
      findJob jobId (final r) = Some (setCancelled now job) /\
      Job.status (setCancelled now job) = "cancelled" /\
      Job.completedAt (setCancelled now job) = Some now /\
      (forall other, other <> jobId -> findJob other (final r) = findJob other db) /\
      rows (jobLogs (final r)) =
        <[nextval (jobLogs db) :=
            JobLog.mk (nextval (jobLogs db)) jobId "info"
              "Job cancelled by user" None now]> (rows (jobLogs db))) /\
     (Job.status job ∉ ["pending"; "processing"] ->
      (exists e, outcome r = inl (ThrowApp e) /\
                 cls e = BadRequest /\ statusCode e = 400) /\
      trace r = [] /\ final r = db)).
Proof.
  intros r. split.
  - intros msg. apply cancelJob_answered.
  - intros jobId job Hrole Hparam Hjob Horg. split.
    + intros Hst Hfresh. subst r.
      rewrite (cancelJob_accepted now user jobIdParam jobId job db) by done.
      cbn. unfold findJob. cbn.
      split; [done|]. split; [apply lookup_insert_eq|].
      split; [done|]. split; [done|]. split; [|done].
      intros other Hother. by apply lookup_insert_ne.
    + intros Hst. subst r.
      rewrite (cancelJob_refused now user jobIdParam jobId job db) by done.
      cbn. split; [|done]. by eexists.
Qed.

Lemma cancel_only_pending_or_processing_witness :
  outcome (cancelJob 6000 Sample.admin "1" Sample.db1)
    = inr "Job cancelled successfully" /\
  final (cancelJob 6000 Sample.admin "1" Sample.finished) = Sample.finished.
Proof.
  split.
  - eapply (proj2 (cancel_only_pending_or_processing
                     6000 Sample.admin "1" Sample.db1) 1).
    + in_list.
    + reflexivity.
    + vm_compute. reflexivity.
    + reflexivity.
    + cbn. in_list.
    + vm_compute. reflexivity.
  - eapply (proj2 (cancel_only_pending_or_processing
                     6000 Sample.admin "1" Sample.finished) 1).
    + in_list.
    + reflexivity.
    + vm_compute. reflexivity.
    + reflexivity.
    + cbn. intros H. not_in_list H.
Defined.

(** ** Retry *)

(** C2. [retry] answers only for a job that is [failed]; for a job in any
    other status it throws a [BadRequest] error and writes nothing. For a
    failed job it makes three writes: the same row, under the same id, is
    reset ([pending], progress 0, no error message, counts, stage or
    timestamps of the run), a log entry is appended, and the row is moved to
    [processing], started at the time of the request in stage
    [initializing]. No job row is added and no other row changes. *)
Theorem retry_only_failed now user jobIdParam db :
  let r := retryJob now user jobIdParam db in
  (forall msg, outcome r = inr msg ->
     exists jobId job,
       parseIntParam jobIdParam "jobId" = inr jobId /\
       findJob jobId db = Some job /\
       Job.status job = "failed") /\
  (forall jobId job,
     role user ∈ ["admin"; "editor"] ->
     parseIntParam jobIdParam "jobId" = inr jobId ->
     findJob jobId db = Some job ->
     Job.organisationId job = organisationId user ->
     (Job.status job <> "failed" ->
      (exists e, outcome r = inl (ThrowApp e) /\
                 cls e = BadRequest /\ statusCode e = 400) /\
      trace r = [] /\ final r = db) /\
     (Job.status job = "failed" ->
      seq_fresh (jobLogs db) ->
      exists db1 db2 db3 reset started,
        outcome r = inr "Job queued for retry" /\
        trace r = [db1; db2; db3] /\ final r = db3 /\
        findJob jobId db1 = Some reset /\
        findJob jobId db2 = Some reset /\
        findJob jobId db3 = Some started /\
        Job.id reset = Job.id job /\ Job.id started = Job.id job /\
        Job.status reset = "pending" /\ Job.status started = "processing" /\
        Job.progress reset = 0 /\ Job.progress started = 0 /\
        Job.errorMessage reset = None /\ Job.errorMessage started = None /\
        Job.outputRecordCount reset = None /\
        Job.outputRecordCount started = None /\
        Job.piiDetectedCount reset = None /\
        Job.piiDetectedCount started = None /\
        Job.completedAt reset = None /\ Job.completedAt started = None /\
        Job.currentStage reset = None /\
        Job.currentStage started = Some "initializing" /\
        Job.startedAt reset = None /\ Job.startedAt started = Some now /\
        dom (rows (processingJobs db3)) = dom (rows (processingJobs db)) /\
        nextval (processingJobs db3) = nextval (processingJobs db) /\
        (forall other, other <> jobId -> findJob other db3 = findJob other db))).
Proof.
  intros r. split.
  - intros msg. apply retryJob_answered.
  - intros jobId job Hrole Hparam Hjob Horg. split.
    + intros Hst. subst r.
      rewrite (retryJob_refused now user jobIdParam jobId job db) by done.
      cbn. split; [|done]. by eexists.
    + intros Hst Hfresh. subst r.
      rewrite (retryJob_accepted now user jobIdParam jobId job db) by done.
      cbn. eexists _, _, _, (setRetried now job),
        (setProcessing now (setRetried now job)).
      split; [reflexivity|]. split; [reflexivity|]. split; [reflexivity|].
      unfold findJob, storeJob, appendLog. cbn.
      rewrite insert_insert_eq, !lookup_insert_eq.
      repeat (split; [reflexivity|]).
      split; [|split; [reflexivity|]].
      * apply dom_insert_lookup_L. by eexists.
      * intros other Hother. by apply lookup_insert_ne.
Qed.

Lemma retry_only_failed_witness :
  exists started,
    findJob 1 (final (retryJob 9000 Sample.admin "1" Sample.crashed))
      = Some started /\
    Job.status started = "processing" /\
    Job.errorMessage started = None /\
    Job.progress started = 0.
Proof.
  destruct (proj2 (proj2 (retry_only_failed 9000 Sample.admin "1" Sample.crashed)
                     1 Sample.crashedJob
                     ltac:(in_list) eq_refl eq_refl eq_refl)
              eq_refl eq_refl)
    as (db1 & db2 & db3 & reset & started & _ & _ & Hfinal & _ & _ & H3 & _ & _
        & _ & Hst & _ & Hpr & _ & Herr & _).
  exists started. rewrite Hfinal. done.
Defined.

(** ** Create *)


(** C4, as stated, on the sample project: after a successful create the
    log of the new job holds the single entry that records the queueing;
    no entry records the start. *)
Lemma create_logs_queued_only :
  (exists created,
     outcome (createJob 1000 Sample.admin "3" Sample.body0 Sample.db0)
       = inr created /\ c_id created = 1) /\
  logsOfJob 1 Sample.db1 =
    [JobLog.mk 1 1 "info" "Job created and queued for processing" None 1000] /\
  ~ (exists queued started,
       logsOfJob 1 Sample.db1 = [queued; started]).
Proof.
  split; [eexists; split; vm_compute; reflexivity|].
  assert (Hlogs : logsOfJob 1 Sample.db1 =
    [JobLog.mk 1 1 "info" "Job created and queued for processing" None 1000])
    by (vm_compute; reflexivity).
  split; [exact Hlogs|].
  intros (queued & started & Heq). rewrite Hlogs in Heq. discriminate Heq.
Qed.

(** C4, amended. A successful create makes three writes. The first inserts
    the job row with status [pending] and progress 0. The second appends
    one [info] log entry, "Job created and queued for processing"; it is
    the only entry that create writes. The third moves the row to
    [processing] with [startedAt] set to the time of the request and
    [currentStage] set to [initializing]. The job in the answer has status
    [processing], progress 0 and stage [initializing]. *)
Theorem create_starts_processing now user projectIdParam body db
    projectId project mapping dataSource :
  role user ∈ ["admin"; "editor"] ->
  createJobSchema body ->
  parseIntParam projectIdParam "projectId" = inr projectId ->
  findProject projectId db = Some project ->
  Project.organisationId project = organisationId user ->
  creatable (b_schemaMappingId body) projectId db mapping dataSource ->
  seq_fresh (processingJobs db) ->
  seq_fresh (jobLogs db) ->
  let r := createJob now user projectIdParam body db in
  let key := nextval (processingJobs db) in
  let entry :=
    JobLog.mk (nextval (jobLogs db)) key "info"
      "Job created and queued for processing" None now in
  exists created db1 db2 db3 inserted started,
    outcome r = inr created /\
    trace r = [db1; db2; db3] /\ final r = db3 /\
    c_id created = key /\ c_status created = "processing" /\
    c_progress created = 0 /\ c_currentStage created = "initializing" /\
    findJob key db = None /\
    findJob key db1 = Some inserted /\
    Job.status inserted = "pending" /\ Job.progress inserted = 0 /\
    Job.startedAt inserted = None /\ Job.currentStage inserted = None /\
    rows (jobLogs db1) = rows (jobLogs db) /\
    findJob key db2 = Some inserted /\
    rows (jobLogs db2) = <[nextval (jobLogs db) := entry]> (rows (jobLogs db)) /\
    findJob key db3 = Some started /\
    Job.status started = "processing" /\ Job.progress started = 0 /\
    Job.startedAt started = Some now /\
    Job.currentStage started = Some "initializing" /\
    Job.completedAt started = None /\
    rows (jobLogs db3) = <[nextval (jobLogs db) := entry]> (rows (jobLogs db)).
Proof.
  intros Hrole Hbody Hparam Hproject Horg Hok Hjobs Hlogs r key entry. subst r.
  erewrite createJob_accepted by eassumption. cbn.
  eexists _, _, _, _, _, _.
  split; [reflexivity|]. split; [reflexivity|]. split; [reflexivity|].
  unfold findJob, storeJob, appendLog, insertedJob. cbn.
  rewrite insert_insert_eq, !lookup_insert_eq.
  repeat (split; [first [reflexivity | exact Hjobs]|]). reflexivity.
Qed.

Lemma create_starts_processing_witness :
  exists created started,
    outcome (createJob 1000 Sample.admin "3" Sample.body0 Sample.db0)
      = inr created /\
    c_status created = "processing" /\
    findJob 1 Sample.db1 = Some started /\
    Job.status started = "processing" /\
    Job.startedAt started = Some 1000.
Proof.
  destruct (create_starts_processing 1000 Sample.admin "3" Sample.body0
              Sample.db0 3 (Project.mk 3 7 None) (SchemaMapping.mk 4 3 5 1)
              (DataSource.mk 5 "customers" (Some 100) "ready" None)
              ltac:(in_list)
              ltac:(split; [done|]; split; [in_list | cbn; lia])
              eq_refl eq_refl eq_refl ltac:(by repeat split) eq_refl eq_refl)
    as (created & db1 & db2 & db3 & inserted & started & Hout & _ & Hfinal & _
        & Hst & _ & _ & _ & _ & _ & _ & _ & _ & _ & _ & _ & Hjob & Hproc & _
        & Hstart & _).
  exists created, started. unfold Sample.db1. rewrite Hfinal.
  repeat split; assumption.
Defined.

(** ** The progress snapshot *)

Lemma inject_Z_nonzero (d : Z) : d <> 0 -> ~ (inject_Z d == 0)%Q.
Proof.
  intros Hd H. apply Hd. unfold Qeq in H. cbn in H. lia.
Qed.

Lemma Math_round_comp (x y : Q) : (x == y)%Q -> Math_round x = Math_round y.
Proof. intros H. unfold Math_round. apply Qfloor_comp. by rewrite H. Qed.

(** Rounding a quotient of integers, in integer arithmetic. *)
Lemma Math_round_div (n d : Z) :
  0 < d -> Math_round (inject_Z n / inject_Z d)%Q = (2 * n + d) / (2 * d).
Proof.
  intros Hd. unfold Math_round. rewrite Zdiv_Qdiv.
  apply Qfloor_comp.
  rewrite !inject_Z_plus, !inject_Z_mult.
  field. apply inject_Z_nonzero. lia.
Qed.

(** [Math_round x] is the integer nearest to [x], a tie going up. *)
Lemma Math_round_nearest (x : Q) :
  (inject_Z (Math_round x) - (1 # 2) <= x < inject_Z (Math_round x) + (1 # 2))%Q.
Proof.
  unfold Math_round.
  pose proof (Qfloor_le (x + (1 # 2))) as Hle.
  pose proof (Qlt_floor (x + (1 # 2))) as Hlt.
  rewrite inject_Z_plus in Hlt. change (inject_Z 1) with 1%Q in Hlt.
  split; lra.
Qed.

(** The time that the estimate rounds: [(estimatedTotal - elapsed) / 1000]
    is [elapsed * (100 - progress) / (1000 * progress)]. *)
Lemma remaining_seconds (elapsed progress : Z) :
  0 < progress ->
  ((inject_Z elapsed / inject_Z progress * 100 - inject_Z elapsed) / 1000 ==
   inject_Z (elapsed * (100 - progress)) / inject_Z (1000 * progress))%Q.
Proof.
  intros Hp.
  replace (elapsed * (100 - progress)) with (elapsed * 100 + - (elapsed * progress))
    by lia.
  rewrite inject_Z_plus, inject_Z_opp, !inject_Z_mult.
  change (inject_Z 100) with 100%Q. change (inject_Z 1000) with 1000%Q.
  field. apply inject_Z_nonzero. lia.
Qed.

Lemma estimatedTimeRemaining_running now job startedAt :
  Job.status job = "processing" ->
  0 < Job.progress job ->
  Job.startedAt job = Some startedAt ->
  estimatedTimeRemaining now job =
    Some (Z.max 0
            (Math_round
               ((inject_Z (now - startedAt) / inject_Z (Job.progress job) * 100
                 - inject_Z (now - startedAt)) / 1000)%Q)).
Proof.
  intros Hst Hp Hstart. unfold estimatedTimeRemaining, Math_max.
  rewrite Hstart. destruct (decide _) as [_|[]]; [|done].
  by destruct (Z.ltb_spec 0 (Job.progress job)); [|lia].
Qed.

Lemma estimatedTimeRemaining_null now job :
  estimatedTimeRemaining now job = None <->
  Job.status job <> "processing" \/ Job.progress job <= 0 \/
  Job.startedAt job = None.
Proof.
  unfold estimatedTimeRemaining.
  destruct (decide (Job.status job = "processing")) as [Hst|Hst];
    [|by split; [left|]].
  destruct (Z.ltb_spec 0 (Job.progress job)) as [Hp|Hp];
    [|by split; [right; left|]].
  destruct (Job.startedAt job) as [startedAt|]; [|by split; [right; right|]].
  split; [done|]. intros [H|[H|H]]; [done|lia|done].
Qed.

(** The estimate in integer arithmetic. *)
Lemma estimatedTimeRemaining_div now job startedAt :
  Job.status job = "processing" ->
  0 < Job.progress job ->
  Job.startedAt job = Some startedAt ->
  estimatedTimeRemaining now job =
    Some (Z.max 0
            ((2 * ((now - startedAt) * (100 - Job.progress job))
              + 1000 * Job.progress job)
             / (2 * (1000 * Job.progress job)))).
Proof.
  intros Hst Hp Hstart.
  rewrite (estimatedTimeRemaining_running now job startedAt) by done.
  rewrite (Math_round_comp _ _ (remaining_seconds _ _ Hp)).
  by rewrite Math_round_div by lia.
Qed.

Section ProgressRequest.

Variables (now : Z) (user : JWTPayload) (jobIdParam : string) (db : Db).

Lemma getProgress_answered snapshot :
  outcome (getProgress now user jobIdParam db) = inr snapshot ->
  exists jobId job,
    parseIntParam jobIdParam "jobId" = inr jobId /\
    findJob jobId db = Some job /\
    Job.organisationId job = organisationId user /\
    snapshot = progressOf now job.
Proof.
  unfold getProgress. run_cases; intros [=<-].
  eexists _, _. split; [done|]. split; [done|]. split; [|done].
  by apply dec_stable.
Qed.

End ProgressRequest.

(** *** The estimate of the remaining time *)

(** C5, as stated, on a job at 30% started one second before the request:
    the snapshot reports 2, which is not the specified remainder, neither
    in milliseconds (7000/3) nor in seconds (7/3). And on a [processing] job
    at 30% without a start time the estimate is null although the progress
    is not 0 and the job is [processing]. *)
Lemma estimate_differs_from_formula :
  (exists snapshot,
     outcome (getProgress 1000 Sample.admin "1" Sample.at30) = inr snapshot /\
     s_estimatedTimeRemaining snapshot = Some 2) /\
  ~ (inject_Z 2 == remaining_as_specified (inject_Z 1000) 30)%Q /\
  ~ (inject_Z 2 == remaining_as_specified 1 30)%Q /\
  (exists snapshot,
     outcome (getProgress 1000 Sample.admin "1" Sample.unstarted)
       = inr snapshot /\
     s_estimatedTimeRemaining snapshot = None /\
     s_overallProgress snapshot <> 0 /\
     s_status snapshot = "processing").
Proof.
  split; [|split; [|split]].
  - eexists. split; vm_compute; reflexivity.
  - intros H. vm_compute in H. discriminate H.
  - intros H. vm_compute in H. discriminate H.
  - eexists. split; [vm_compute; reflexivity|]. cbn. by repeat split.
Qed.

(** C5, amended. The estimate of a snapshot is null exactly when the job is
    not [processing], or its progress is not positive, or it has no start
    time. Otherwise, with [elapsed] the milliseconds since [startedAt] and
    [estimatedTotal = elapsed / (progress / 100)], it is
    [max(0, seconds)], where [seconds] is
    [(estimatedTotal - elapsed) / 1000] rounded to the nearest integer. *)
Theorem getProgress_estimate now user jobIdParam db snapshot :
  outcome (getProgress now user jobIdParam db) = inr snapshot ->
  exists jobId job,
    parseIntParam jobIdParam "jobId" = inr jobId /\
    findJob jobId db = Some job /\
    (s_estimatedTimeRemaining snapshot = None <->
       Job.status job <> "processing" \/ Job.progress job <= 0 \/
       Job.startedAt job = None) /\
    (forall startedAt,
       Job.status job = "processing" ->
       0 < Job.progress job ->
       Job.startedAt job = Some startedAt ->
       let elapsed := inject_Z (now - startedAt) in
       let estimatedTotal := (elapsed / (inject_Z (Job.progress job) / 100))%Q in
       exists seconds,
         s_estimatedTimeRemaining snapshot = Some (Z.max 0 seconds) /\
         (inject_Z seconds - (1 # 2) <= (estimatedTotal - elapsed) / 1000
            < inject_Z seconds + (1 # 2))%Q).
Proof.
  intros Hout.
  destruct (getProgress_answered _ _ _ _ _ Hout)
    as (jobId & job & Hparam & Hjob & _ & ->).
  exists jobId, job. split; [done|]. split; [done|]. cbn. split.
  - apply estimatedTimeRemaining_null.
  - intros startedAt Hst Hp Hstart.
    set (elapsed := inject_Z (now - startedAt)).
    eexists. split.
    + by apply estimatedTimeRemaining_running.
    + fold elapsed.
      assert (Heq : ((elapsed / (inject_Z (Job.progress job) / 100) - elapsed) / 1000 ==
                     (elapsed / inject_Z (Job.progress job) * 100 - elapsed) / 1000)%Q).
      { field. apply inject_Z_nonzero. lia. }
      rewrite Heq. apply Math_round_nearest.
Qed.

Lemma getProgress_estimate_witness :
  exists snapshot seconds,
    outcome (getProgress 1000 Sample.admin "1" Sample.at30) = inr snapshot /\
    s_estimatedTimeRemaining snapshot = Some (Z.max 0 seconds) /\
    (inject_Z seconds - (1 # 2)
       <= (inject_Z 1000 / (inject_Z 30 / 100) - inject_Z 1000) / 1000
       < inject_Z seconds + (1 # 2))%Q.
Proof.
  eexists.
  destruct (getProgress_estimate 1000 Sample.admin "1" Sample.at30 _ eq_refl)
    as (jobId & job & Hparam & Hjob & _ & Hvalue).
  vm_compute in Hparam. injection Hparam as <-.
  vm_compute in Hjob. injection Hjob as <-.
  destruct (Hvalue 0 eq_refl eq_refl eq_refl) as (seconds & Heta & Hnear).
  exists seconds. split; [reflexivity|]. split; [exact Heta|exact Hnear].
Defined.

(** *** Processed records *)

(** C6. The [processedRecords] of a snapshot is [inputRecordCount *
    progress / 100] rounded to the nearest integer (a tie going up), with
    [totalRecords] and [overallProgress] the two factors; a job of 100
    records at 50% reports 50. *)
Theorem processedRecords_rounds :
  (forall now user jobIdParam db snapshot,
     outcome (getProgress now user jobIdParam db) = inr snapshot ->
     exists jobId job,
       parseIntParam jobIdParam "jobId" = inr jobId /\
       findJob jobId db = Some job /\
       s_totalRecords snapshot = Job.inputRecordCount job /\
       s_overallProgress snapshot = Job.progress job /\
       s_processedRecords snapshot =
         Math_round (inject_Z (Job.inputRecordCount job * Job.progress job) / 100)%Q /\
       100 * (2 * s_processedRecords snapshot - 1)
         <= 2 * (Job.inputRecordCount job * Job.progress job)
         < 100 * (2 * s_processedRecords snapshot + 1)) /\
  (forall job,
     Job.inputRecordCount job = 100 -> Job.progress job = 50 ->
     processedRecords job = 50).
Proof.
  split.
  - intros now user jobIdParam db snapshot Hout.
    destruct (getProgress_answered _ _ _ _ _ Hout)
      as (jobId & job & Hparam & Hjob & _ & ->).
    exists jobId, job.
    cbn [s_totalRecords s_overallProgress s_processedRecords progressOf].
    repeat (split; [done|]).
    unfold processedRecords.
    change 100%Q with (inject_Z 100). rewrite Math_round_div by lia.
    set (n := Job.inputRecordCount job * Job.progress job).
    pose proof (Z.div_mod (2 * n + 100) (2 * 100) ltac:(lia)) as Hdiv.
    pose proof (Z.mod_pos_bound (2 * n + 100) (2 * 100) ltac:(lia)) as Hmod.
    lia.
  - intros job Hcount Hprogress. unfold processedRecords.
    rewrite Hcount, Hprogress. reflexivity.
Qed.

Lemma processedRecords_rounds_witness :
  exists snapshot,
    outcome (getProgress 2000 Sample.admin "1" Sample.at50) = inr snapshot /\
    s_processedRecords snapshot = 50.
Proof.
  eexists. split; [reflexivity|].
  cbn [s_processedRecords progressOf].
  apply (proj2 processedRecords_rounds); reflexivity.
Defined.

(** *** Polling the progress of a job that does not advance *)

(** C8, as stated, on a job at 50% started at time 0: polled at 10 s the
    estimate is 10, polled at 20 s it is 20; the later estimate is the
    larger one. *)
Lemma later_estimate_is_larger :
  exists earlier later,
    outcome (getProgress 10000 Sample.admin "1" Sample.at50) = inr earlier /\
    outcome (getProgress 20000 Sample.admin "1" Sample.at50) = inr later /\
    s_estimatedTimeRemaining earlier = Some 10 /\
    s_estimatedTimeRemaining later = Some 20 /\
    ~ estimate_le (s_estimatedTimeRemaining later)
                  (s_estimatedTimeRemaining earlier).
Proof.
  eexists _, _.
  split; [vm_compute; reflexivity|]. split; [vm_compute; reflexivity|].
  cbn. split; [reflexivity|]. split; [reflexivity|]. lia.
Qed.

Lemma estimatedTimeRemaining_grows t1 t2 job :
  t1 <= t2 ->
  Job.progress job <= 100 ->
  estimate_le (estimatedTimeRemaining t1 job) (estimatedTimeRemaining t2 job).
Proof.
  intros Ht Hp.
  destruct (decide (Job.status job = "processing")) as [Hst|Hst];
    [|by unfold estimatedTimeRemaining; destruct (decide _)].
  destruct (Z.ltb_spec 0 (Job.progress job)) as [Hpos|Hpos].
  - destruct (Job.startedAt job) as [startedAt|] eqn:Hstart.
    + rewrite !(estimatedTimeRemaining_div _ job startedAt) by done. cbn.
      apply Z.max_le_compat_l, Z.div_le_mono; [lia|nia].
    + unfold estimatedTimeRemaining. rewrite Hstart.
      destruct (decide _); [|done]. by destruct (0 <? _).
  - unfold estimatedTimeRemaining. destruct (decide _); [|done].
    by destruct (Z.ltb_spec 0 (Job.progress job)); [lia|].
Qed.

(** C8, amended. Two polls of the same job at times [t1 <= t2], with
    nothing written in between, return snapshots that agree on every field
    but the estimate; when the progress is at most 100 the later estimate is
    greater than or equal to the earlier one (both are null when the first
    is): under constant progress the estimate grows with the elapsed time. *)
Theorem polling_estimate_grows t1 t2 user jobIdParam db earlier later :
  t1 <= t2 ->
  outcome (getProgress t1 user jobIdParam db) = inr earlier ->
  outcome (getProgress t2 user jobIdParam db) = inr later ->
  s_jobId earlier = s_jobId later /\
  s_status earlier = s_status later /\
  s_currentStage earlier = s_currentStage later /\
  s_overallProgress earlier = s_overallProgress later /\
  s_processedRecords earlier = s_processedRecords later /\
  s_totalRecords earlier = s_totalRecords later /\
  s_piiDetectedCount earlier = s_piiDetectedCount later /\
  (s_overallProgress earlier <= 100 ->
   estimate_le (s_estimatedTimeRemaining earlier)
               (s_estimatedTimeRemaining later)).
Proof.
  intros Ht H1 H2.
  destruct (getProgress_answered _ _ _ _ _ H1)
    as (jobId & job & Hparam & Hjob & _ & ->).
  destruct (getProgress_answered _ _ _ _ _ H2)
    as (jobId' & job' & Hparam' & Hjob' & _ & ->).
  rewrite Hparam in Hparam'. injection Hparam' as <-.
  rewrite Hjob in Hjob'. injection Hjob' as <-.
  cbn. repeat (split; [reflexivity|]).
  by apply estimatedTimeRemaining_grows.
Qed.

Lemma polling_estimate_grows_witness :
  exists earlier later,
    outcome (getProgress 10000 Sample.admin "1" Sample.at50) = inr earlier /\
    outcome (getProgress 20000 Sample.admin "1" Sample.at50) = inr later /\
    s_processedRecords earlier = s_processedRecords later /\
    estimate_le (s_estimatedTimeRemaining earlier)
                (s_estimatedTimeRemaining later).
Proof.
  eexists _, _.
  split; [reflexivity|]. split; [reflexivity|].
  destruct (polling_estimate_grows 10000 20000 Sample.admin "1" Sample.at50 _ _
              ltac:(lia) eq_refl eq_refl)
    as (_ & _ & _ & _ & Hrecords & _ & _ & Hgrow).
  split; [exact Hrecords|]. apply Hgrow. cbn. lia.
Defined.

(** ** The log of a job *)

#[local] Instance newest_log_first_trans : Transitive newest_log_first.
Proof. unfold newest_log_first. intros a b c ? ?. lia. Qed.

#[local] Instance newest_log_first_total : Total newest_log_first.
Proof. unfold newest_log_first. intros a b. lia. Qed.

Lemma elem_of_logsOfJob jobId db log :
  log ∈ logsOfJob jobId db <->
  (exists key, rows (jobLogs db) !! key = Some log) /\ JobLog.jobId log = jobId.
Proof.
  unfold logsOfJob, table_rows.
  rewrite list_elem_of_filter, list_elem_of_fmap. split.
  - intros (Hjob & [key log'] & -> & Hin%elem_of_map_to_list). eauto.
  - intros ((key & Hkey) & Hjob). split; [done|].
    exists (key, log). split; [done|]. by apply elem_of_map_to_list.
Qed.


Lemma orderedLogsOfJob_perm jobId db :
  orderedLogsOfJob jobId db ≡ₚ logsOfJob jobId db.
Proof. apply merge_sort_Permutation. Qed.

Lemma paginate_sorted {R} (before : R -> R -> Prop) limit offset (l : list R) :
  StronglySorted before l -> StronglySorted before (paginate limit offset l).
Proof.
  intros Hsorted. unfold paginate.
  rewrite <- (take_drop (Z.to_nat offset) l) in Hsorted.
  apply StronglySorted_app_1_r in Hsorted.
  rewrite <- (take_drop (Z.to_nat limit) (drop (Z.to_nat offset) l)) in Hsorted.
  by apply StronglySorted_app_1_l in Hsorted.
Qed.


Section FormatLogs.

Context {Json : Type} (JSON_parse : string -> Thrown + Json).





End FormatLogs.

(** What [parsePaginationParams] accepts. *)
Lemma parseQueryInt_accepts value paramName defaultValue min max parsed :
  parseQueryInt value paramName defaultValue min max = inr parsed ->
  match value with
  | None => parsed = defaultValue
  | Some text =>
      parseInt text = Num parsed /\
      (forall bound, min = Some bound -> bound <= parsed) /\
      (forall bound, max = Some bound -> parsed <= bound)
  end.
Proof.
  unfold parseQueryInt. destruct value as [text|]; [|by intros [=]].
  destruct (parseInt text) as [| |n]; [done|done|].
  destruct min as [lo|], max as [hi|];
    repeat (match goal with
            | |- context [?a <? ?b] => destruct (Z.ltb_spec a b)
            end; [done|]);
    intros [=<-]; repeat split; intros ? [=<-]; lia.
Qed.


Lemma parseQueryInt_BadRequest value paramName defaultValue min max t :
  parseQueryInt value paramName defaultValue min max = inl t ->
  exists e, t = ThrowApp e /\ cls e = BadRequest /\ statusCode e = 400.
Proof.
  unfold parseQueryInt. destruct value as [text|]; [|done].
  destruct (parseInt text) as [| |n]; [by intros [=<-]; eexists..|].
  destruct (match min with Some lo => n <? lo | None => false end);
    [by intros [=<-]; eexists|].
  destruct (match max with Some hi => hi <? n | None => false end);
    [by intros [=<-]; eexists|done].
Qed.

Lemma parseIntParam_BadRequest value paramName t :
  parseIntParam value paramName = inl t ->
  exists e, t = ThrowApp e /\ cls e = BadRequest /\ statusCode e = 400.
Proof.
  unfold parseIntParam.
  destruct (parseInt value) as [| |n]; try (intros [=<-]; by eexists).
  destruct (n <=? 0); intros [=<-]. by eexists.
Qed.

Lemma parsePaginationParams_accepts query params :
  parsePaginationParams query = inr params ->
  match q_page query with
  | None => page params = 1
  | Some text => parseInt text = Num (page params)
  end /\
  match q_page_size query with
  | None => limit params = 20
  | Some text => parseInt text = Num (limit params)
  end /\
  1 <= page params /\
  1 <= limit params <= 100 /\
  offset params = (page params - 1) * limit params.
Proof.
  unfold parsePaginationParams.
  destruct (parseQueryInt (q_page query) _ _ _ _) as [|page] eqn:Hpage; [done|].
  destruct (parseQueryInt (q_page_size query) _ _ _ _) as [|limit] eqn:Hlimit;
    [done|].
  intros [=<-]. cbn.
  apply parseQueryInt_accepts in Hpage, Hlimit.
  destruct (q_page query), (q_page_size query); cbn in *.
  - destruct Hpage as (? & Hlo & _), Hlimit as (? & Hlo' & Hhi').
    specialize (Hlo _ eq_refl). specialize (Hlo' _ eq_refl).
    specialize (Hhi' _ eq_refl). repeat split; (done || lia).
  - destruct Hpage as (? & Hlo & _). specialize (Hlo _ eq_refl).
    repeat split; (done || lia).
  - destruct Hlimit as (? & Hlo' & Hhi').
    specialize (Hlo' _ eq_refl). specialize (Hhi' _ eq_refl).
    repeat split; (done || lia).
  - repeat split; (done || lia).
Qed.





(* ===================================================================== *)
(** * Further properties of the job routes *)
(* ===================================================================== *)

(** ** The shape of every write *)

Lemma effect_same now user db : effect now user db db.
Proof. unfold effect. by repeat split; constructor. Qed.

Ltac effect_goal :=
  unfold effect, update_row, newJobLog; cbn in *;
  try (erewrite (alter_at (setCancelled _)) by eassumption);
  try (erewrite (alter_at (setRetried _)) by eassumption);
  rewrite ?alter_inserted, ?insert_insert_eq;
  split;
  [ first [ apply je_same
          | eapply je_collision; eassumption
          | apply je_inserted
          | apply je_started
          | apply je_cancelled
          | apply je_retried
          | apply je_restarted ];
    first [ done | by apply dec_stable ]
  | split; [|done];
    first [ apply le_same
          | eapply le_collision; eassumption
          | by apply le_appended ] ].

Ltac effect_cases :=
  run_cases; intros Hin; split_trace Hin; effect_goal.

Lemma cancelJob_effect now user p db db' :
  db' ∈ trace (cancelJob now user p db) -> effect now user db db'.
Proof. unfold cancelJob. effect_cases. Qed.

Lemma retryJob_effect now user p db db' :
  db' ∈ trace (retryJob now user p db) -> effect now user db db'.
Proof. unfold retryJob. effect_cases. Qed.

Lemma createJob_effect now user p body db db' :
  db' ∈ trace (createJob now user p body db) -> effect now user db db'.
Proof. unfold createJob. effect_cases. Qed.

Lemma writes_effect {Json} (JSON_parse : string -> Thrown + Json)
    now req db db' :
  db' ∈ writes JSON_parse now req db -> effect now (requester req) db db'.
Proof.
  destruct req; cbn [writes requester].
  - rewrite listJobs_trace. by intros ?%elem_of_nil.
  - apply createJob_effect.
  - rewrite getJob_trace. by intros ?%elem_of_nil.
  - rewrite getProgress_trace. by intros ?%elem_of_nil.
  - rewrite getLogs_trace. by intros ?%elem_of_nil.
  - apply cancelJob_effect.
  - apply retryJob_effect.
Qed.

(** ** Tenants and roles *)

(** X1. No write of any job route changes, removes or replaces a job row
    of an organisation other than the caller's. *)
Theorem other_organisations_untouched {Json}
    (JSON_parse : string -> Thrown + Json) now req db db' key job :
  db' ∈ writes JSON_parse now req db ->
  rows (processingJobs db) !! key = Some job ->
  Job.organisationId job <> organisationId (requester req) ->
  rows (processingJobs db') !! key = Some job.
Proof.
  intros Hin Hkey Horg.
  destruct (writes_effect _ _ _ _ _ Hin) as (Hjobs & _).
  destruct Hjobs as [|other Hother|projectId mapping dataSource format name Hfree _
                     |projectId mapping dataSource format name Hfree _
                     |key' job' Hkey' Horg' _ _|key' job' Hkey' Horg' _ _
                     |key' job' Hkey' Horg' _ _]; cbn; try done.
  all: rewrite lookup_insert_ne; [done|]; intros <-; congruence.
Qed.

Lemma other_organisations_untouched_witness :
  rows (processingJobs (final (cancelJob 6000 Sample.admin "1" Sample.shared))) !! 2
    = Some Sample.foreignJob.
Proof.
  apply (other_organisations_untouched Sample.noJson 6000
           (CancelJob Sample.admin "1") Sample.shared).
  - vm_compute. apply list_elem_of_further, list_elem_of_here.
  - vm_compute. reflexivity.
  - cbn. lia.
Defined.

(** X2. A caller whose role is neither [admin] nor [editor] cannot create,
    cancel or retry: whatever the other inputs, each of the three handlers
    throws [Forbidden] ("Insufficient permissions") and writes nothing. *)
Theorem writers_need_a_role now user jobIdParam projectIdParam body db :
  role user ∉ ["admin"; "editor"] ->
  let denied : Thrown := ThrowApp (ForbiddenError "Insufficient permissions") in
  createJob now user projectIdParam body db = mkRun (inl denied) [] db /\
  cancelJob now user jobIdParam db = mkRun (inl denied) [] db /\
  retryJob now user jobIdParam db = mkRun (inl denied) [] db.
Proof.
  intros Hrole denied. unfold createJob, cancelJob, retryJob. unfold_run.
  by destruct (decide (role user ∈ _)) as [?|_].
Qed.

Lemma writers_need_a_role_witness :
  final (cancelJob 6000 Sample.viewer "1" Sample.db1) = Sample.db1 /\
  trace (createJob 6000 Sample.viewer "3" Sample.body0 Sample.db0) = [].
Proof.
  assert (Hrole : role Sample.viewer ∉ ["admin"; "editor"])
    by (intros H; not_in_list H).
  split.
  - by rewrite (proj1 (proj2 (writers_need_a_role 6000 Sample.viewer "1" "3"
                                Sample.body0 Sample.db1 Hrole))).
  - by rewrite (proj1 (writers_need_a_role 6000 Sample.viewer "1" "3"
                         Sample.body0 Sample.db0 Hrole)).
Defined.

(** X3. For a well-formed job id that fits the id column ([INT4_MAX] at
    most), every [/jobs/:jobId] handler throws
    [NotFound] ("Job not found") when no row has that id and [Forbidden]
    ("Access denied to this job") when the row belongs to another
    organisation; in both cases nothing is written and nothing of the row
    is returned. (The two handlers that write check the role first, the log
    handler the pagination.) *)
Theorem job_lookup_errors {Json} (JSON_parse : string -> Thrown + Json)
    now user jobIdParam jobId query params db :
  parseIntParam jobIdParam "jobId" = inr jobId ->
  jobId <= INT4_MAX ->
  parsePaginationParams query = inr params ->
  forall refusal : Thrown,
    (findJob jobId db = None /\
     refusal = ThrowApp (NotFoundError "Job not found")) \/
    (exists job, findJob jobId db = Some job /\
                 Job.organisationId job <> organisationId user /\
                 refusal = ThrowApp (ForbiddenError "Access denied to this job")) ->
    getJob user jobIdParam db = mkRun (inl refusal) [] db /\
    getProgress now user jobIdParam db = mkRun (inl refusal) [] db /\
    getLogs JSON_parse user jobIdParam query db = mkRun (inl refusal) [] db /\
    (role user ∈ ["admin"; "editor"] ->
     cancelJob now user jobIdParam db = mkRun (inl refusal) [] db /\
     retryJob now user jobIdParam db = mkRun (inl refusal) [] db).
Proof.
  intros Hparam _ Hparams refusal Hcase.
  unfold getJob, getProgress, getLogs, cancelJob, retryJob. unfold_run.
  rewrite Hparam, Hparams. cbn.
  destruct Hcase as [[Hnone ->]|(job & Hjob & Horg & ->)].
  - rewrite Hnone. do 3 (split; [done|]).
    intros Hrole. destruct (decide (role user ∈ _)) as [_|[]]; [|done].
    cbn. by rewrite Hnone.
  - rewrite Hjob.
    destruct (decide (Job.organisationId job <> _)) as [_|[]]; [|done].
    do 3 (split; [done|]).
    intros Hrole. destruct (decide (role user ∈ _)) as [_|[]]; [|done].
    cbn. rewrite Hjob.
    by destruct (decide (Job.organisationId job <> _)) as [_|[]].
Qed.

Lemma job_lookup_errors_witness :
  outcome (getProgress 6000 Sample.outsider "1" Sample.db1)
    = inl (ThrowApp (ForbiddenError "Access denied to this job")) /\
  outcome (getJob Sample.admin "5" Sample.db1)
    = inl (ThrowApp (NotFoundError "Job not found")).
Proof.
  split.
  - destruct (job_lookup_errors Sample.noJson 6000 Sample.outsider "1" 1
                (mkQuery None None) _ Sample.db1 eq_refl ltac:(by vm_compute)
                eq_refl
                (ThrowApp (ForbiddenError "Access denied to this job")))
      as (_ & -> & _); [|done].
    right. eexists. split; [vm_compute; reflexivity|]. split; [cbn; lia|done].
  - destruct (job_lookup_errors Sample.noJson 6000 Sample.admin "5" 5
                (mkQuery None None) _ Sample.db1 eq_refl ltac:(by vm_compute)
                eq_refl
                (ThrowApp (NotFoundError "Job not found")))
      as (-> & _); [|done].
    left. split; [vm_compute; reflexivity|done].
Defined.

(** ** What the routes never change *)

(** X5. A job row is never removed by a job route, and the columns that
    identify it (id, organisation, project, mapping, data source, output
    format and name, input record count, creation time) keep their values
    through every write. *)
Theorem job_identity_is_kept {Json}
    (JSON_parse : string -> Thrown + Json) now req db db' key job :
  db' ∈ writes JSON_parse now req db ->
  rows (processingJobs db) !! key = Some job ->
  exists job',
    rows (processingJobs db') !! key = Some job' /\ same_identity job job'.
Proof.
  intros Hin Hkey.
  destruct (writes_effect _ _ _ _ _ Hin) as (Hjobs & _).
  assert (Hrefl : same_identity job job) by (by repeat split).
  destruct Hjobs as [|other Hother|projectId mapping dataSource format name Hfree _
                     |projectId mapping dataSource format name Hfree _
                     |key' job' Hkey' _ _ _|key' job' Hkey' _ _ _
                     |key' job' Hkey' _ _ _]; cbn; try by exists job.
  1,2: exists job; split; [|done];
       rewrite lookup_insert_ne; [done|]; intros <-; congruence.
  all: destruct (decide (key' = key)) as [->|Hne];
    [ rewrite Hkey in Hkey'; injection Hkey' as <-;
      eexists; split; [apply lookup_insert_eq|by repeat split]
    | exists job; split; [by rewrite lookup_insert_ne|done] ].
Qed.

Lemma job_identity_is_kept_witness :
  exists job',
    rows (processingJobs Sample.db2) !! 1 = Some job' /\
    Job.inputRecordCount job' = 100 /\ Job.createdAt job' = 1000.
Proof.
  destruct (job_identity_is_kept Sample.noJson 6000 (CancelJob Sample.admin "1")
              Sample.db1 Sample.db2 1
              (setProcessing 1000
                 (newJob 1000 7 3 (SchemaMapping.mk 4 3 5 1)
                    (DataSource.mk 5 "customers" (Some 100) "ready" None)
                    "csv" None 1)))
    as (job' & Hjob & Hsame).
  - vm_compute. apply list_elem_of_further, list_elem_of_here.
  - vm_compute. reflexivity.
  - exists job'. split; [exact Hjob|].
    destruct Hsame as (_ & _ & _ & _ & _ & _ & _ & Hcount & Hcreated).
    split; [by rewrite <- Hcount | by rewrite <- Hcreated].
Defined.

(** X6. When the keys of the job and log tables are below the next values
    of their sequences, they still are after every write of a job route,
    the sequences never go back, and the next insertion into either table
    finds its key free. *)
Theorem sequences_stay_ahead {Json}
    (JSON_parse : string -> Thrown + Json) now req db db' :
  db' ∈ writes JSON_parse now req db ->
  keys_below_seq (processingJobs db) ->
  keys_below_seq (jobLogs db) ->
  keys_below_seq (processingJobs db') /\
  keys_below_seq (jobLogs db') /\
  nextval (processingJobs db) <= nextval (processingJobs db') /\
  nextval (jobLogs db) <= nextval (jobLogs db') /\
  seq_fresh (processingJobs db') /\
  seq_fresh (jobLogs db').
Proof.
  intros Hin Hjobs Hlogs.
  assert (Hfresh : forall R (t : Table R), keys_below_seq t -> seq_fresh t).
  { intros R t Hbelow. unfold seq_fresh.
    destruct (rows t !! nextval t) as [row|] eqn:Hrow; [|done].
    apply Hbelow in Hrow. lia. }
  assert (Hins : forall R (t : Table R) (row : R),
             keys_below_seq t ->
             keys_below_seq (mkTable (<[nextval t := row]> (rows t)) (nextval t + 1))).
  { intros R t row Hbelow key row'. cbn.
    rewrite lookup_insert. destruct (decide (nextval t = key)) as [<-|_]; [lia|].
    intros Hkey%Hbelow. lia. }
  assert (Hupd : forall R (t : Table R) (key : Z) (row row' : R),
             keys_below_seq t -> rows t !! key = Some row ->
             keys_below_seq (mkTable (<[key := row']> (rows t)) (nextval t))).
  { intros R t key row row' Hbelow Hrow key' row''. cbn.
    rewrite lookup_insert. destruct (decide (key = key')) as [<-|_].
    - intros _. by apply Hbelow in Hrow.
    - apply Hbelow. }
  assert (Hadv : forall R (t : Table R),
             keys_below_seq t -> keys_below_seq (advance t)).
  { intros R t Hbelow key row Hkey%Hbelow. cbn. lia. }
  destruct (writes_effect _ _ _ _ _ Hin) as (Hj & Hl & _).
  assert (keys_below_seq (processingJobs db') /\
          nextval (processingJobs db) <= nextval (processingJobs db')) as [Hj' ?].
  { destruct Hj; cbn; (split; [|lia]); eauto. }
  assert (keys_below_seq (jobLogs db') /\
          nextval (jobLogs db) <= nextval (jobLogs db')) as [Hl' ?].
  { destruct Hl; cbn; (split; [|lia]); eauto. }
  repeat split; auto.
Qed.

Lemma sequences_stay_ahead_witness :
  seq_fresh (processingJobs Sample.db1) /\ seq_fresh (jobLogs Sample.db1).
Proof.
  assert (Hempty : forall R, keys_below_seq (mkTable (∅ : gmap Z R) 1))
    by (by intros R key row).
  destruct (sequences_stay_ahead Sample.noJson 1000
              (CreateJob Sample.admin "3" Sample.body0) Sample.db0 Sample.db1)
    as (_ & _ & _ & _ & Hjobs & Hlogs).
  - vm_compute. do 2 apply list_elem_of_further. apply list_elem_of_here.
  - apply Hempty.
  - apply Hempty.
  - by split.
Defined.

(** X7. The log is append-only for the job routes: a write keeps every
    entry as it is, and an entry that a write adds sits under the next key
    of the log sequence, carries that key as its id, has level [info], no
    details and the time of the request. *)
Theorem log_is_append_only {Json}
    (JSON_parse : string -> Thrown + Json) now req db db' :
  db' ∈ writes JSON_parse now req db ->
  (forall key log,
     rows (jobLogs db) !! key = Some log ->
     rows (jobLogs db') !! key = Some log) /\
  (forall key log,
     rows (jobLogs db') !! key = Some log ->
     rows (jobLogs db) !! key = Some log \/
     (key = nextval (jobLogs db) /\ JobLog.id log = key /\
      JobLog.level log = "info" /\ JobLog.details log = None /\
      JobLog.createdAt log = now)).
Proof.
  intros Hin.
  destruct (writes_effect _ _ _ _ _ Hin) as (_ & Hlogs & _).
  destruct Hlogs as [|other Hother|jobId message Hfree]; cbn.
  - by split; [|left].
  - by split; [|left].
  - split.
    + intros key log Hkey. rewrite lookup_insert_ne; [done|].
      intros <-. congruence.
    + intros key log. rewrite lookup_insert.
      destruct (decide (nextval (jobLogs db) = key)) as [<-|_].
      * intros [=<-]. by right.
      * by left.
Qed.

Lemma log_is_append_only_witness :
  rows (jobLogs Sample.db2) !! 1
    = Some (JobLog.mk 1 1 "info" "Job created and queued for processing"
              None 1000).
Proof.
  apply (proj1 (log_is_append_only Sample.noJson 6000
                  (CancelJob Sample.admin "1") Sample.db1 Sample.db2
                  ltac:(vm_compute; apply list_elem_of_further,
                                          list_elem_of_here))).
  vm_compute. reflexivity.
Defined.

(** ** What the routes of this snapshot can reach *)

Lemma reachable_rows {Json} (JSON_parse : string -> Thrown + Json)
    (P : Z -> Job.t -> Prop) :
  (forall now user t t',
     job_effect now user t t' ->
     map_Forall P (rows t) -> map_Forall P (rows t')) ->
  forall db, reachable JSON_parse db -> map_Forall P (rows (processingJobs db)).
Proof.
  intros Hstep db Hreach.
  induction Hreach as [db Hempty|db now req db' _ IH Hin|db db' _ IH Hsub].
  - rewrite Hempty. apply map_Forall_empty.
  - destruct (writes_effect _ _ _ _ _ Hin) as (Hjobs & _).
    by eapply Hstep.
  - intros key job Hkey. apply (IH key). by eapply lookup_weaken.
Qed.

Lemma job_effect_api_row now user t t' :
  job_effect now user t t' ->
  map_Forall (fun key job => Job.id job = key /\ api_row job) (rows t) ->
  map_Forall (fun key job => Job.id job = key /\ api_row job) (rows t').
Proof.
  unfold api_row.
  destruct 1 as [|other Hother|projectId mapping dataSource format name Hfree _
                 |projectId mapping dataSource format name Hfree _
                 |key job Hkey _ _ Hst|key job Hkey _ _ Hst
                 |key job Hkey _ _ Hst]; intros Hall; cbn; try done.
  - apply map_Forall_insert_2; [|done]. cbn. by repeat split.
  - apply map_Forall_insert_2; [|done]. cbn. repeat split; first [done | by eexists].
  - apply map_Forall_insert_2; [|done].
    destruct (Hall _ _ Hkey) as (Hid & Hp & Ho & Hpii & Herr & _). cbn.
    by repeat split.
  - apply map_Forall_insert_2; [|done].
    destruct (Hall _ _ Hkey) as (Hid & _). cbn. by repeat split.
  - apply map_Forall_insert_2; [|done].
    destruct (Hall _ _ Hkey) as (Hid & _). cbn.
    repeat split; first [done | by eexists].
Qed.

(** X8. In every database that the job routes produce from one without
    jobs, each job row sits under its own id, has progress 0, no output
    count, no PII count and no error message; a [pending] row has neither
    start time nor stage, and a [processing] row has a start time and the
    stage [initializing]. *)
Theorem api_rows_carry_no_result {Json}
    (JSON_parse : string -> Thrown + Json) db key job :
  reachable JSON_parse db ->
  rows (processingJobs db) !! key = Some job ->
  Job.id job = key /\
  Job.progress job = 0 /\
  Job.outputRecordCount job = None /\
  Job.piiDetectedCount job = None /\
  Job.errorMessage job = None /\
  (Job.status job = "pending" ->
   Job.startedAt job = None /\ Job.currentStage job = None) /\
  (Job.status job = "processing" ->
   is_Some (Job.startedAt job) /\ Job.currentStage job = Some "initializing").
Proof.
  intros Hreach Hkey.
  exact (reachable_rows JSON_parse _ job_effect_api_row db Hreach key job Hkey).
Qed.

Lemma sample_db2_reachable : reachable Sample.noJson Sample.db2.
Proof.
  apply reachable_request
    with (db := Sample.db1) (now := 6000) (req := CancelJob Sample.admin "1").
  - apply reachable_request
      with (db := Sample.db0) (now := 1000)
           (req := CreateJob Sample.admin "3" Sample.body0).
    + by apply reachable_init.
    + vm_compute. do 2 apply list_elem_of_further. apply list_elem_of_here.
  - vm_compute. apply list_elem_of_further. apply list_elem_of_here.
Defined.

Lemma api_rows_carry_no_result_witness :
  exists job,
    rows (processingJobs Sample.db2) !! 1 = Some job /\
    Job.progress job = 0 /\ Job.errorMessage job = None.
Proof.
  eexists. split; [vm_compute; reflexivity|].
  destruct (api_rows_carry_no_result Sample.noJson Sample.db2 1 _
              sample_db2_reachable ltac:(vm_compute; reflexivity))
    as (_ & Hprogress & _ & _ & Herror & _).
  by split.
Defined.

(** X9. In such a database the progress route, whenever it answers,
    reports the id asked for, overall progress 0, 0 processed records, no
    PII count and a null estimate of the remaining time, at any time of the
    request. *)
Theorem api_progress_is_empty {Json}
    (JSON_parse : string -> Thrown + Json) now user jobIdParam db snapshot :
  reachable JSON_parse db ->
  outcome (getProgress now user jobIdParam db) = inr snapshot ->
  parseIntParam jobIdParam "jobId" = inr (s_jobId snapshot) /\
  s_overallProgress snapshot = 0 /\
  s_processedRecords snapshot = 0 /\
  s_piiDetectedCount snapshot = None /\
  s_estimatedTimeRemaining snapshot = None.
Proof.
  intros Hreach Hout.
  destruct (getProgress_answered _ _ _ _ _ Hout)
    as (jobId & job & Hparam & Hjob & _ & ->).
  destruct (reachable_rows JSON_parse _ job_effect_api_row db Hreach jobId job Hjob)
    as (Hid & Hprogress & _ & Hpii & _).
  cbn. rewrite Hid. split; [done|]. split; [done|].
  split; [|split; [done|]].
  - unfold processedRecords. rewrite Hprogress, Z.mul_0_r. reflexivity.
  - apply estimatedTimeRemaining_null. right. left. lia.
Qed.

Lemma api_progress_is_empty_witness :
  exists snapshot,
    outcome (getProgress 9000 Sample.admin "1" Sample.db2) = inr snapshot /\
    s_estimatedTimeRemaining snapshot = None /\
    s_processedRecords snapshot = 0.
Proof.
  eexists. split; [reflexivity|].
  destruct (api_progress_is_empty Sample.noJson 9000 Sample.admin "1" Sample.db2
              _ sample_db2_reachable eq_refl)
    as (_ & _ & Hrecords & _ & Hestimate).
  by split.
Defined.

(** X11. The four read routes (job list, job, progress, log) leave the
    database exactly as they found it, whether they answer or throw. *)
Theorem reads_write_nothing {Json}
    (JSON_parse : string -> Thrown + Json)
    now user param query statusFilter db :
  (trace (listJobs user param query statusFilter db) = [] /\
   final (listJobs user param query statusFilter db) = db) /\
  (trace (getJob user param db) = [] /\ final (getJob user param db) = db) /\
  (trace (getProgress now user param db) = [] /\
   final (getProgress now user param db) = db) /\
  (trace (getLogs JSON_parse user param query db) = [] /\
   final (getLogs JSON_parse user param query db) = db).
Proof.
  repeat split.
  - apply listJobs_trace.
  - unfold listJobs, findProject. run_cases; reflexivity.
  - apply getJob_trace.
  - unfold getJob. run_cases; reflexivity.
  - apply getProgress_trace.
  - unfold getProgress. run_cases; reflexivity.
  - apply getLogs_trace.
  - unfold getLogs. run_cases; reflexivity.
Qed.

(** ** The job list *)

#[local] Instance newest_job_first_trans : Transitive newest_job_first.
Proof. unfold newest_job_first. intros a b c ? ?. lia. Qed.

#[local] Instance newest_job_first_total : Total newest_job_first.
Proof. unfold newest_job_first. intros a b. lia. Qed.

Lemma paginate_length_exact {R} limit offset (l : list R) :
  0 <= limit -> 0 <= offset ->
  Z.of_nat (length (paginate limit offset l))
    = Z.max 0 (Z.min limit (Z.of_nat (length l) - offset)).
Proof.
  intros Hlimit Hoffset. unfold paginate.
  rewrite length_take, length_drop. lia.
Qed.

Lemma paginate_subseteq {R} limit offset (l : list R) :
  paginate limit offset l ⊆ l.
Proof.
  unfold paginate. etrans; [apply subseteq_take|apply subseteq_drop].
Qed.

Lemma listJobs_answered user projectIdParam query statusFilter db views pagination :
  outcome (listJobs user projectIdParam query statusFilter db)
    = inr (views, pagination) ->
  exists projectId project params,
    parseIntParam projectIdParam "projectId" = inr projectId /\
    parsePaginationParams query = inr params /\
    findProject projectId db = Some project /\
    Project.organisationId project = organisationId user /\
    views = formatJob db <$>
              paginate (limit params) (offset params)
                (merge_sort newest_job_first
                   (filter (jobMatches projectId statusFilter)
                      (table_rows (processingJobs db)))) /\
    pagination =
      calculatePagination (page params) (limit params)
        (Z.of_nat (length (filter (jobMatches projectId statusFilter)
                             (table_rows (processingJobs db))))).
Proof.
  unfold listJobs. run_cases; intros [= <- <-].
  eexists _, _, _. repeat (split; [first [done | by apply dec_stable]|]).
  done.
Qed.

(** X12. When the job list answers, the project exists, is not deleted
    and belongs to the caller's organisation, and the answer is one page of
    the jobs of that project (of those with the status asked for, when the
    query names one), newest first by creation time: the jobs from position
    [(page - 1) * pageSize] on, at most [pageSize] of them, each shown with
    the columns of its row. The pagination reports the page, the page size
    and, as [totalCount], the number of all the matching rows, with the
    number of pages that this count needs. *)
Theorem listJobs_answer user projectIdParam query statusFilter db views pagination :
  outcome (listJobs user projectIdParam query statusFilter db)
    = inr (views, pagination) ->
  exists projectId project params ordered,
    parseIntParam projectIdParam "projectId" = inr projectId /\
    parsePaginationParams query = inr params /\
    findProject projectId db = Some project /\
    Project.organisationId project = organisationId user /\
    (forall job, job ∈ ordered <->
       (exists key, rows (processingJobs db) !! key = Some job) /\
       Job.projectId job = projectId /\
       (forall wanted, statusFilter = Some wanted -> wanted <> "" ->
                       Job.status job = wanted)) /\
    ordered ≡ₚ filter (jobMatches projectId statusFilter)
                 (table_rows (processingJobs db)) /\
    StronglySorted (fun a b => Job.createdAt b <= Job.createdAt a) ordered /\
    views = formatJob db <$>
              take (Z.to_nat (limit params))
                (drop (Z.to_nat ((page params - 1) * limit params)) ordered) /\
    StronglySorted (fun a b => v_createdAt b <= v_createdAt a) views /\
    Z.of_nat (length views)
      = Z.max 0 (Z.min (limit params)
                   (Z.of_nat (length ordered) - (page params - 1) * limit params)) /\
    pg_page pagination = page params /\
    pg_pageSize pagination = limit params /\
    pg_totalCount pagination = Z.of_nat (length ordered) /\
    pagination = calculatePagination (page params) (limit params)
                   (Z.of_nat (length ordered)).
Proof.
  intros Hout.
  destruct (listJobs_answered _ _ _ _ _ _ _ Hout)
    as (projectId & project & params & Hparam & Hparams & Hproject & Horg & -> & ->).
  destruct (parsePaginationParams_accepts _ _ Hparams)
    as (_ & _ & Hpage & Hlimit & Hoffset).
  set (matching := filter (jobMatches projectId statusFilter)
                     (table_rows (processingJobs db))).
  pose proof (merge_sort_Permutation newest_job_first matching) as Hperm.
  exists projectId, project, params, (merge_sort newest_job_first matching).
  do 4 (split; [done|]).
  split.
  { intros job. rewrite Hperm. subst matching.
    rewrite list_elem_of_filter. unfold table_rows, jobMatches.
    rewrite list_elem_of_fmap. split.
    - intros [[Hproject' Hstatus] ([key job'] & -> & Hrow%elem_of_map_to_list)].
      split; [by exists key|]. split; [done|].
      intros wanted -> Hne. by destruct wanted.
    - intros ((key & Hkey) & Hproject' & Hstatus). split.
      + split; [done|]. destruct statusFilter as [[|c wanted]|]; [done| |done].
        by apply Hstatus.
      + exists (key, job). split; [done|]. by apply elem_of_map_to_list. }
  split; [exact Hperm|].
  assert (Hsorted : StronglySorted newest_job_first
                      (merge_sort newest_job_first matching))
    by (apply StronglySorted_merge_sort; apply _).
  split; [exact Hsorted|].
  split; [by rewrite <- Hoffset|].
  split.
  { apply (StronglySorted_fmap _ newest_job_first); [by intros a b|].
    by apply paginate_sorted. }
  split.
  { rewrite length_fmap, paginate_length_exact by nia. by rewrite Hoffset. }
  rewrite (Permutation_length Hperm). done.
Qed.

Lemma listJobs_answer_witness :
  exists views pagination ordered,
    outcome (listJobs Sample.admin "3" (mkQuery None None) (Some "processing")
               Sample.shared) = inr (views, pagination) /\
    views = formatJob Sample.shared <$> take 20 (drop 0 ordered) /\
    pg_totalCount pagination = Z.of_nat (length ordered).
Proof.
  destruct (listJobs_answer Sample.admin "3" (mkQuery None None)
              (Some "processing") Sample.shared _ _ eq_refl)
    as (projectId & project & params & ordered & _ & Hparams & _ & _ & _ & _ & _
        & Hviews & _ & _ & _ & _ & Hcount & _).
  injection Hparams as <-.
  eexists _, _, ordered. split; [reflexivity|]. by split.
Defined.

(** ** The answer of create *)

Lemma createJob_answered_run now user projectIdParam body db created :
  outcome (createJob now user projectIdParam body db) = inr created ->
  exists projectId mapping dataSource,
    parseIntParam projectIdParam "projectId" = inr projectId /\
    creatable (b_schemaMappingId body) projectId db mapping dataSource /\
    seq_fresh (processingJobs db) /\
    let key := nextval (processingJobs db) in
    let job :=
      newJob now (organisationId user) projectId mapping dataSource
        (b_outputFormat body) (b_outputName body) key in
    created = mkCreatedJob key projectId (DataSource.id dataSource)
                (SchemaMapping.id mapping) "processing"
                (b_outputFormat body) (Job.outputName job)
                0 "initializing" now /\
    findJob key (final (createJob now user projectIdParam body db))
      = Some (setProcessing now job).
Proof.
  unfold createJob. run_cases; intros [=<-].
  eexists _, _, _. split; [done|]. unfold creatable, seq_fresh.
  split; [by repeat split; first [done | by apply dec_stable]|].
  split; [done|]. cbn. split; [done|].
  unfold findJob, update_row. cbn. rewrite alter_inserted.
  apply lookup_insert_eq.
Qed.

(** X14. When create, served with no other request between its
    statements, answers, the job of the answer is the row that it leaves in
    the table under the next key of the sequence: same id, project, data
    source, mapping, output format, output name and creation time. The
    answer spells out the status [processing], the progress 0 and the stage
    [initializing], and those are the values of the row, which also has the
    time of the request as its start time. The project is the one of the
    path, the mapping the one of the body and the data source the one of the
    mapping. The output name is the one asked for, or the name of the data
    source followed by "-output" when none (or an empty one) was given; the
    input record count is that of the data source, 0 when it has none. *)
Theorem create_answer_is_the_stored_row now user projectIdParam body db created :
  outcome (createJob now user projectIdParam body db) = inr created ->
  exists job mapping dataSource,
    findJob (c_id created) (final (createJob now user projectIdParam body db))
      = Some job /\
    findMapping (b_schemaMappingId body) (c_projectId created) db
      = Some (mapping, Some dataSource) /\
    parseIntParam projectIdParam "projectId" = inr (c_projectId created) /\
    c_id created = nextval (processingJobs db) /\
    c_status created = "processing" /\
    c_progress created = 0 /\
    c_currentStage created = "initializing" /\
    c_createdAt created = now /\
    c_schemaMappingId created = SchemaMapping.id mapping /\
    c_dataSourceId created = DataSource.id dataSource /\
    c_outputFormat created = b_outputFormat body /\
    Job.id job = c_id created /\
    Job.organisationId job = organisationId user /\
    Job.projectId job = c_projectId created /\
    Job.dataSourceId job = c_dataSourceId created /\
    Job.schemaMappingId job = c_schemaMappingId created /\
    Job.status job = "processing" /\
    Job.outputFormat job = c_outputFormat created /\
    Job.outputName job = c_outputName created /\
    Job.progress job = 0 /\
    Job.currentStage job = Some "initializing" /\
    Job.createdAt job = c_createdAt created /\
    Job.startedAt job = Some now /\
    Job.completedAt job = None /\
    c_outputName created =
      Some (match b_outputName body with
            | None | Some "" => DataSource.name dataSource +:+ "-output"
            | Some name => name
            end) /\
    Job.inputRecordCount job = default 0 (DataSource.recordCount dataSource).
Proof.
  intros Hout.
  destruct (createJob_answered_run _ _ _ _ _ _ Hout)
    as (projectId & mapping & dataSource & Hparam & (Hmap & _) & _ & -> & Hjob).
  eexists _, mapping, dataSource. cbn.
  split; [exact Hjob|]. split; [exact Hmap|]. split; [exact Hparam|].
  cbn. repeat (split; [reflexivity|]).
  by destruct (DataSource.recordCount dataSource).
Qed.

Lemma create_answer_is_the_stored_row_witness :
  exists job,
    findJob 1 Sample.db1 = Some job /\
    Job.status job = "processing" /\
    Job.outputName job = Some "customers-output" /\
    Job.inputRecordCount job = 100.
Proof.
  destruct (create_answer_is_the_stored_row 1000 Sample.admin "3" Sample.body0
              Sample.db0 _ eq_refl)
    as (job & mapping & dataSource & Hjob & Hmap & _ & _ & _ & _ & _ & _ & _ & _
        & _ & _ & _ & _ & _ & _ & Hstatus & _ & Hname & _ & _ & _ & _ & _
        & Hdefault & Hcount).
  vm_compute in Hmap. injection Hmap as <- <-.
  exists job. split; [exact Hjob|]. split; [exact Hstatus|].
  split; [|exact Hcount].
  rewrite Hname. exact Hdefault.
Defined.

(* ===================================================================== *)
(** * Further properties of the parameter parsing *)
(* ===================================================================== *)

(** ** Reading what was written in decimal *)

Lemma digit_value_pretty_N_char (d : N) :
  (d < 10)%N -> digit_value (pretty_N_char d) = Some (Z.of_N d).
Proof.
  intros Hd.
  assert (d = 0 \/ d = 1 \/ d = 2 \/ d = 3 \/ d = 4 \/ d = 5 \/ d = 6 \/ d = 7
          \/ d = 8 \/ d = 9)%N as Hcases by lia.
  repeat (destruct Hcases as [->|Hcases]; [reflexivity|]). by subst.
Qed.

Lemma pretty_N_go_app (x : N) (s rest : string) :
  pretty_N_go x s +:+ rest = pretty_N_go x (s +:+ rest).
Proof.
  revert s. induction (N.lt_wf_0 x) as [x _ IH]; intros s.
  destruct (decide (0 < x)%N) as [Hx|Hx].
  - rewrite (pretty_N_go_step x s), (pretty_N_go_step x (s +:+ rest)) by done.
    rewrite IH by (by apply N.div_lt). done.
  - replace x with 0%N by lia. by rewrite !pretty_N_go_0.
Qed.

Lemma leading_digits_pretty_N_go (x : N) (s : string) :
  (0 < x)%N ->
  leading_digits None (pretty_N_go x s) = leading_digits (Some (Z.of_N x)) s.
Proof.
  revert s. induction (N.lt_wf_0 x) as [x _ IH]; intros s Hx.
  rewrite pretty_N_go_step by done.
  pose proof (N.mod_lt x 10 ltac:(lia)) as Hmod.
  pose proof (N.div_mod x 10 ltac:(lia)) as Hdiv.
  assert (Hx10 : 10 * Z.of_N (x `div` 10) + Z.of_N (x `mod` 10) = Z.of_N x) by lia.
  destruct (decide (0 < x `div` 10)%N) as [Hq|Hq].
  - rewrite IH by (done || by apply N.div_lt). cbn [leading_digits].
    rewrite digit_value_pretty_N_char by done.
    change (default 0 (Some (Z.of_N (x `div` 10)))) with (Z.of_N (x `div` 10)).
    by rewrite Hx10.
  - assert (Hzero : (x `div` 10 = 0)%N) by lia.
    rewrite Hzero in *. rewrite pretty_N_go_0.
    cbn [leading_digits]. rewrite digit_value_pretty_N_char by done.
    change (default 0 None) with 0. do 2 f_equal. lia.
Qed.

Lemma leading_digits_stop (v : Z) (rest : string) :
  ends_number rest -> leading_digits (Some v) rest = Some v.
Proof. destruct rest as [|c r]; cbn; [done|]. by intros ->. Qed.

Lemma leading_digits_decimal (n : Z) (rest : string) :
  0 <= n -> ends_number rest ->
  leading_digits None (pretty n +:+ rest) = Some n.
Proof.
  intros Hn Hrest. destruct n as [|p|p]; [| |lia].
  - transitivity (leading_digits (Some 0) rest);
      [reflexivity | by apply leading_digits_stop].
  - change (pretty (Z.pos p)) with (pretty_N_go (N.pos p) "").
    rewrite pretty_N_go_app, leading_digits_pretty_N_go by lia.
    by apply leading_digits_stop.
Qed.

(** A text that starts with digits starts with a character that is
    neither white space nor a sign. *)
Lemma leading_digits_head (s : string) (v : Z) :
  leading_digits None s = Some v ->
  exists c r, s = String c r /\ is_white_space c = false /\
              c <> "-"%char /\ c <> "+"%char.
Proof.
  destruct s as [|c r]; cbn; [done|].
  destruct (digit_value c) as [d|] eqn:Hd; [|done]. intros _.
  exists c, r. split; [done|].
  unfold digit_value in Hd. unfold is_white_space.
  destruct (_ && _) eqn:Hrange in Hd; [|done].
  apply andb_true_iff in Hrange as [H1%Z.leb_le H2%Z.leb_le].
  split; [|split].
  - apply orb_false_iff. split.
    + apply andb_false_iff. right. apply Z.leb_gt. lia.
    + apply Z.eqb_neq. lia.
  - intros ->. change (Z.of_nat (nat_of_ascii "-")) with 45 in H1. lia.
  - intros ->. change (Z.of_nat (nat_of_ascii "+")) with 43 in H1. lia.
Qed.

Lemma trim_start_app (ws s : string) :
  trim_start ws = "" -> trim_start (ws +:+ s) = trim_start s.
Proof.
  induction ws as [|c ws IH]; [done|].
  change (String c ws +:+ s) with (String c (ws +:+ s)). cbn [trim_start].
  destruct (is_white_space c); [exact IH|done].
Qed.

Lemma parseInt_unsigned (s : string) (v : Z) :
  leading_digits None s = Some v -> parseInt s = to_number v.
Proof.
  intros Hdigits.
  destruct (leading_digits_head s v Hdigits) as (c & r & -> & Hws & Hminus & Hplus).
  unfold parseInt. cbn [trim_start]. rewrite Hws.
  assert (Hsign : (match String c r with
                   | String "-" r0 => (-1, r0)
                   | String "+" r0 => (1, r0)
                   | _ => (1, String c r)
                   end) = (1, String c r)).
  { destruct c as [[] [] [] [] [] [] [] []]; try reflexivity; congruence. }
  rewrite Hsign, Hdigits. f_equal. lia.
Qed.

Lemma parseInt_signed (s : string) (v : Z) :
  leading_digits None s = Some v ->
  parseInt (String "-" s) = to_number (- v) /\
  parseInt (String "+" s) = to_number v.
Proof.
  intros Hdigits. unfold parseInt.
  change (trim_start (String "-" s)) with (String "-" s).
  change (trim_start (String "+" s)) with (String "+" s).
  cbv beta iota. rewrite Hdigits.
  split; f_equal; lia.
Qed.

Lemma parseInt_skips_white_space (ws s : string) :
  trim_start ws = "" -> parseInt (ws +:+ s) = parseInt s.
Proof.
  intros Hws. unfold parseInt. rewrite (trim_start_app ws s Hws). done.
Qed.

Lemma leading_digits_pretty_positive (p : positive) :
  leading_digits None (pretty p) = Some (Z.pos p).
Proof.
  change (pretty p) with (pretty_N_go (N.pos p) "").
  by rewrite leading_digits_pretty_N_go by lia.
Qed.

Lemma parseInt_pretty (z : Z) : parseInt (pretty z) = to_number z.
Proof.
  destruct z as [|p|p].
  - reflexivity.
  - apply parseInt_unsigned, leading_digits_pretty_positive.
  - change (pretty (Z.neg p)) with (String "-" (pretty p)).
    apply (parseInt_signed _ _ (leading_digits_pretty_positive p)).
Qed.

(** X16. [parseIntParam] on the decimal writing of an integer [n]. It is
    accepted exactly when [0 < n] and [n] is in the range of a double, and
    the value returned is [n] itself when [n] is a safe integer (at most
    [MAX_SAFE_INTEGER]; beyond it JavaScript returns a double near [n]). For
    zero, for a negative number and for a number out of range it throws
    [BadRequest] with code [INVALID_ID]. The check is lenient: ASCII white
    space (TAB, LF, VT, FF, CR, space) before the digits and any text after
    them that does not start with a digit are ignored, so that [12abc] is
    read as 12. Whatever the text, an accepted value is positive. *)
Theorem parseIntParam_decimal (n : Z) (paramName : string) :
  (0 < n <= MAX_SAFE_INTEGER ->
   parseIntParam (pretty n) paramName = inr n /\
   forall ws rest,
     trim_start ws = "" -> ends_number rest ->
     parseIntParam (ws +:+ pretty n +:+ rest) paramName = inr n) /\
  (0 < n < overflow_threshold ->
   exists parsed, parseIntParam (pretty n) paramName = inr parsed /\ 0 < parsed) /\
  (n <= 0 \/ overflow_threshold <= n ->
   parseIntParam (pretty n) paramName =
     inl (ThrowApp (BadRequestError
            ("Invalid " +:+ paramName +:+ ": must be a positive integer")
            "INVALID_ID"))) /\
  (forall text parsed,
     parseIntParam text paramName = inr parsed ->
     parseInt text = Num parsed /\ 0 < parsed).
Proof.
  assert (Hsafe : MAX_SAFE_INTEGER < overflow_threshold) by (by vm_compute).
  assert (Haccepted : forall text,
             parseInt text = to_number n -> 0 < n < overflow_threshold ->
             parseIntParam text paramName = inr n).
  { intros text Htext Hn. unfold parseIntParam. rewrite Htext. unfold to_number.
    destruct (Z.ltb_spec (Z.abs n) overflow_threshold); [|lia].
    by destruct (Z.leb_spec n 0); [lia|]. }
  split; [|split; [|split]].
  - intros Hn. split; [apply Haccepted; [apply parseInt_pretty|lia]|].
    intros ws rest Hws Hrest. apply Haccepted; [|lia].
    rewrite (parseInt_skips_white_space ws) by done.
    apply parseInt_unsigned, leading_digits_decimal; [lia|done].
  - intros Hn. exists n. split; [|lia].
    apply Haccepted; [apply parseInt_pretty|done].
  - intros Hn. unfold parseIntParam. rewrite parseInt_pretty. unfold to_number.
    destruct (Z.ltb_spec (Z.abs n) overflow_threshold); [|done].
    by destruct (Z.leb_spec n 0); [|lia].
  - intros text parsed. unfold parseIntParam.
    destruct (parseInt text) as [| |z] eqn:Hparsed; [done|done|].
    destruct (Z.leb_spec z 0) as [|Hpos]; [done|]. by intros [=<-].
Qed.

Lemma parseIntParam_decimal_witness :
  parseIntParam "17" "jobId" = inr 17 /\
  parseIntParam " 17abc" "jobId" = inr 17 /\
  parseIntParam "-3" "jobId" =
    inl (ThrowApp (BadRequestError "Invalid jobId: must be a positive integer"
                     "INVALID_ID")).
Proof.
  split; [|split].
  - exact (proj1 (proj1 (parseIntParam_decimal 17 "jobId") ltac:(by vm_compute))).
  - exact (proj2 (proj1 (parseIntParam_decimal 17 "jobId") ltac:(by vm_compute))
             " " "abc" eq_refl eq_refl).
  - exact (proj1 (proj2 (proj2 (parseIntParam_decimal (-3) "jobId")))
             ltac:(left; lia)).
Defined.

(** ** Query integers and pagination *)

(** X17. [parseQueryInt] in full. An absent value gives the default, which
    is not checked against the bounds. A present value is accepted exactly
    when [parseInt] reads a finite integer within the bounds that are given,
    and that integer is returned. Every refusal is a [BadRequest] error
    (400) with code [VALIDATION_ERROR]. *)
Theorem parseQueryInt_total value paramName defaultValue min max :
  match parseQueryInt value paramName defaultValue min max with
  | inr parsed =>
      match value with
      | None => parsed = defaultValue
      | Some text =>
          parseInt text = Num parsed /\
          (forall bound, min = Some bound -> bound <= parsed) /\
          (forall bound, max = Some bound -> parsed <= bound)
      end
  | inl thrown =>
      exists text e,
        value = Some text /\ thrown = ThrowApp e /\
        cls e = BadRequest /\ statusCode e = 400 /\
        code e = "VALIDATION_ERROR" /\
        (forall parsed, parseInt text = Num parsed ->
           (exists bound, min = Some bound /\ parsed < bound) \/
           (exists bound, max = Some bound /\ bound < parsed))
  end.
Proof.
  destruct (parseQueryInt value paramName defaultValue min max)
    as [thrown|parsed] eqn:Hrun.
  - unfold parseQueryInt in Hrun. destruct value as [text|]; [|done].
    exists text.
    destruct (parseInt text) as [| |n]; [injection Hrun as <-..|].
    1,2: eexists; by repeat split.
    destruct min as [lo|].
    + destruct (Z.ltb_spec n lo).
      { injection Hrun as <-. eexists. repeat split; try done.
        intros ? [=<-]. left. eauto. }
      destruct max as [hi|]; [|done].
      destruct (Z.ltb_spec hi n); [|done].
      injection Hrun as <-. eexists. repeat split; try done.
      intros ? [=<-]. right. eauto.
    + destruct max as [hi|]; [|done].
      destruct (Z.ltb_spec hi n); [|done].
      injection Hrun as <-. eexists. repeat split; try done.
      intros ? [=<-]. right. eauto.
  - by apply parseQueryInt_accepts in Hrun.
Qed.

(** X18. [parsePaginationParams] on a page [p] and a page size [n] written
    in decimal. It returns [p], [n] and the offset [(p - 1) * n] when
    [1 <= p], [1 <= n <= 100] and the page and the offset are safe integers
    (beyond [MAX_SAFE_INTEGER] JavaScript rounds them). The page is checked
    first: a page below 1 is refused as such whatever the page size; then a
    page size below 1 and a page size above 100 are refused, each with its
    own message. *)
Theorem parsePaginationParams_decimal (p n : Z) :
  let query := mkQuery (Some (pretty p)) (Some (pretty n)) in
  let refused message : Thrown + PaginationParams :=
    inl (ThrowApp (BadRequestError message "VALIDATION_ERROR")) in
  (- overflow_threshold < p < 1 ->
   parsePaginationParams query = refused "Invalid page: must be at least 1") /\
  (1 <= p < overflow_threshold ->
   (- overflow_threshold < n < 1 ->
    parsePaginationParams query
      = refused "Invalid page_size: must be at least 1") /\
   (100 < n < overflow_threshold ->
    parsePaginationParams query
      = refused "Invalid page_size: must be at most 100")) /\
  (1 <= p <= MAX_SAFE_INTEGER ->
   1 <= n <= 100 ->
   (p - 1) * n <= MAX_SAFE_INTEGER ->
   parsePaginationParams query = inr (mkPaginationParams p n ((p - 1) * n))).
Proof.
  intros query refused.
  assert (Hnum : forall z, - overflow_threshold < z < overflow_threshold ->
                           parseInt (pretty z) = Num z).
  { intros z Hz. rewrite parseInt_pretty. unfold to_number.
    by destruct (Z.ltb_spec (Z.abs z) overflow_threshold); [|lia]. }
  assert (Hbig : MAX_SAFE_INTEGER < overflow_threshold) by (by vm_compute).
  assert (Hsafe : MAX_SAFE_INTEGER = 9007199254740991) by reflexivity.
  unfold parsePaginationParams, parseQueryInt. cbn [q_page q_page_size query].
  split; [|split].
  - intros Hp. rewrite (Hnum p) by lia.
    by destruct (Z.ltb_spec p 1); [|lia].
  - intros Hp. rewrite (Hnum p) by lia.
    destruct (Z.ltb_spec p 1); [lia|]. split.
    + intros Hn. rewrite (Hnum n) by lia.
      by destruct (Z.ltb_spec n 1); [|lia].
    + intros Hn. rewrite (Hnum n) by lia.
      destruct (Z.ltb_spec n 1); [lia|].
      by destruct (Z.ltb_spec 100 n); [|lia].
  - intros Hp Hn _. rewrite (Hnum p) by lia.
    destruct (Z.ltb_spec p 1); [lia|].
    rewrite (Hnum n) by lia.
    destruct (Z.ltb_spec n 1); [lia|].
    by destruct (Z.ltb_spec 100 n); [lia|].
Qed.

Lemma parsePaginationParams_decimal_witness :
  parsePaginationParams (mkQuery (Some "3") (Some "25"))
    = inr (mkPaginationParams 3 25 50) /\
  parsePaginationParams (mkQuery (Some "0") (Some "500"))
    = inl (ThrowApp (BadRequestError "Invalid page: must be at least 1"
                       "VALIDATION_ERROR")).
Proof.
  assert (Hbig : 100 < overflow_threshold) by (by vm_compute).
  split.
  - exact (proj2 (proj2 (parsePaginationParams_decimal 3 25))
             ltac:(by vm_compute) ltac:(lia) ltac:(by vm_compute)).
  - exact (proj1 (parsePaginationParams_decimal 0 500) ltac:(lia)).
Defined.

(** X19. The number of pages that [calculatePagination] reports for a
    positive page size and a count that is not negative is
    [Math.ceil(totalCount / limit)]: the least number of pages of [limit]
    entries that hold [totalCount] entries; it is 0 exactly for a count
    of 0. *)
Theorem totalPages_is_ceiling (page limit totalCount : Z) :
  0 < limit ->
  0 <= totalCount ->
  let totalPages := pg_totalPages (calculatePagination page limit totalCount) in
  totalPages = Qceiling (inject_Z totalCount / inject_Z limit) /\
  (totalPages - 1) * limit < totalCount <= totalPages * limit /\
  (totalPages = 0 <-> totalCount = 0).
Proof.
  intros Hlimit Hcount totalPages. subst totalPages. cbn.
  pose proof (Z.div_mod (totalCount + limit - 1) limit ltac:(lia)) as Hdiv.
  pose proof (Z.mod_pos_bound (totalCount + limit - 1) limit Hlimit) as Hmod.
  set (pages := (totalCount + limit - 1) / limit) in *.
  assert (Hbounds : (pages - 1) * limit < totalCount <= pages * limit) by nia.
  split; [|split; [done|nia]].
  unfold Qceiling.
  assert (Hneg : (- (inject_Z totalCount / inject_Z limit)
                  == inject_Z (- totalCount) / inject_Z limit)%Q).
  { rewrite inject_Z_opp. field. apply inject_Z_nonzero. lia. }
  rewrite (Qfloor_comp _ _ Hneg), <- Zdiv_Qdiv.
  pose proof (Z.div_mod (- totalCount) limit ltac:(lia)) as Hdiv'.
  pose proof (Z.mod_pos_bound (- totalCount) limit Hlimit) as Hmod'.
  nia.
Qed.

Lemma totalPages_is_ceiling_witness :
  pg_totalPages (calculatePagination 1 20 41) = 3 /\
  pg_totalPages (calculatePagination 1 20 0) = 0.
Proof.
  split.
  - destruct (totalPages_is_ceiling 1 20 41 ltac:(lia) ltac:(lia)) as (_ & H & _).
    lia.
  - by apply (proj2 (proj2 (totalPages_is_ceiling 1 20 0 ltac:(lia) ltac:(lia)))).
Defined.

Lemma totalPages_bounds (page limit totalCount : Z) :
  0 < limit -> 0 <= totalCount ->
  let totalPages := pg_totalPages (calculatePagination page limit totalCount) in
  0 <= totalPages /\
  (totalPages - 1) * limit < totalCount <= totalPages * limit.
Proof.
  intros Hlimit Hcount. cbn.
  pose proof (Z.div_mod (totalCount + limit - 1) limit ltac:(lia)) as Hdiv.
  pose proof (Z.mod_pos_bound (totalCount + limit - 1) limit Hlimit) as Hmod.
  nia.
Qed.

Lemma join_pages {R} (n m : nat) (l : list R) :
  mjoin ((fun k : nat => take n (drop (k * n) l)) <$> seq 0 m) = take (m * n) l.
Proof.
  induction m as [|m IH]; [done|].
  rewrite seq_S, fmap_app, join_app, IH. cbn [fmap list_fmap mjoin list_join].
  rewrite app_nil_r, Nat.add_0_l, take_take_drop. f_equal. lia.
Qed.

(** X20. The pages of a list cover it exactly. With a positive page size
    and the number of pages that [calculatePagination] reports for the
    length of the list, the pages 1 to that number, each cut at offset
    [(page - 1) * limit], concatenate to the list; every page before the
    last is full and every page after the last is empty. *)
Theorem pages_cover_the_list {R} (limit : Z) (l : list R) :
  0 < limit ->
  let totalPages :=
    pg_totalPages (calculatePagination 1 limit (Z.of_nat (length l))) in
  mjoin ((fun page => paginate limit ((page - 1) * limit) l) <$> seqZ 1 totalPages)
    = l /\
  (forall page, 1 <= page < totalPages ->
     Z.of_nat (length (paginate limit ((page - 1) * limit) l)) = limit) /\
  (forall page, totalPages < page ->
     paginate limit ((page - 1) * limit) l = []).
Proof.
  intros Hlimit totalPages.
  destruct (totalPages_bounds 1 limit (Z.of_nat (length l)) Hlimit ltac:(lia))
    as [Hpages Hbounds].
  fold totalPages in Hpages, Hbounds.
  split; [|split].
  - unfold seqZ. rewrite <- list_fmap_compose.
    erewrite (list_fmap_ext _ (fun k : nat =>
                take (Z.to_nat limit) (drop (k * Z.to_nat limit) l))).
    + rewrite join_pages. apply take_ge, Nat2Z.inj_le.
      rewrite Nat2Z.inj_mul, !Z2Nat.id by lia. lia.
    + intros i k _. unfold paginate. cbn. do 2 f_equal.
      apply Nat2Z.inj. rewrite Nat2Z.inj_mul, !Z2Nat.id by nia. ring.
  - intros page Hpage. rewrite paginate_length_exact by nia. nia.
  - intros page Hpage. unfold paginate.
    rewrite drop_ge; [by destruct (Z.to_nat limit)|].
    apply Nat2Z.inj_le. rewrite Z2Nat.id by nia. nia.
Qed.

Lemma pages_cover_the_list_witness :
  mjoin ((fun page => paginate 2 ((page - 1) * 2) [10; 20; 30; 40; 50])
           <$> seqZ 1 3) = [10; 20; 30; 40; 50] /\
  paginate 2 ((4 - 1) * 2) [10; 20; 30; 40; 50] = [].
Proof.
  destruct (pages_cover_the_list 2 [10; 20; 30; 40; 50] ltac:(lia))
    as (Hjoin & _ & Hempty).
  split; [exact Hjoin|]. apply Hempty. reflexivity.
Defined.


(* ===================================================================== *)
(** * Properties of the middleware and of the responses *)
(* ===================================================================== *)

(** ** The error handler *)

(** X21. Outside development, the response to an error that is not an
    [AppError] never carries the message of the error: its status, code and
    message are one of nine fixed triples, chosen by the name of the error,
    the code of a Multer error and two phrases looked for in the message;
    only a Zod error gets details. *)
Theorem errorHandler_hides_messages (NODE_ENV : option string) (err : JsError) :
  NODE_ENV <> Some "development" ->
  exists status code message details,
    errorHandler (T := unit) NODE_ENV (CaughtOther err)
      = mkResponse status (ErrorBody code message details) /\
    (details <> None -> e_name err = "ZodError") /\
    (status, code, message) ∈
      [ (400, "VALIDATION_ERROR", "Validation failed");
        (401, "UNAUTHORIZED", "Invalid authentication token");
        (401, "UNAUTHORIZED", "Authentication token expired");
        (400, "VALIDATION_ERROR", "File too large (max 100MB)");
        (400, "VALIDATION_ERROR", "Too many files");
        (400, "VALIDATION_ERROR", "File upload error");
        (409, "CONFLICT", "Resource already exists");
        (400, "VALIDATION_ERROR", "Referenced resource does not exist");
        (500, "INTERNAL_ERROR", "An unexpected error occurred") ].
Proof.
  intros Henv. unfold errorHandler, sendError.
  repeat (destruct (decide _) as [?|?]; try done).
  all: try destruct (includes "unique constraint" _).
  all: try destruct (includes "foreign key constraint" _).
  all: eexists _, _, _, _; (split; [reflexivity|]); (split; [try done|in_list]).
Qed.

Lemma errorHandler_hides_messages_witness :
  errorHandler (T := unit) (Some "production")
    (CaughtOther (mkJsError "Error" "connect ECONNREFUSED 10.0.0.5:5432"
                    None None))
  = mkResponse 500 (ErrorBody "INTERNAL_ERROR" "An unexpected error occurred" None).
Proof.
  destruct (errorHandler_hides_messages (Some "production")
              (mkJsError "Error" "connect ECONNREFUSED 10.0.0.5:5432" None None)
              ltac:(discriminate))
    as (status & code & message & details & Hresponse & _ & _).
  rewrite Hresponse. vm_compute in Hresponse. exact (eq_sym Hresponse).
Defined.

(** ** Authentication *)

Lemma prefix_app (p s : string) :
  String.prefix p s = true <-> exists rest, s = p +:+ rest.
Proof.
  revert s. induction p as [|a p IH]; intros s.
  - split; [intros _; exists s; reflexivity|by destruct s].
  - destruct s as [|b s]; [split; [discriminate|intros [rest [=]]]|].
    change (String a p +:+ ?r) with (String a (p +:+ r)).
    cbn [String.prefix].
    destruct (ascii_dec a b) as [->|Hne].
    + rewrite IH. split.
      * intros [rest ->]. exists rest. reflexivity.
      * intros [rest [= ->]]. exists rest. reflexivity.
    + split; [discriminate|]. intros [rest [= ? ?]]. by destruct Hne.
Qed.

Lemma substring_from_app (p rest : string) :
  substring_from (String.length p) (p +:+ rest) = rest.
Proof. induction p as [|a p IH]; [by destruct rest|exact IH]. Qed.

(** X22. [requireAuth] lets a request through exactly when its
    [authorization] header is "Bearer " followed by a token that is not
    empty and that [verifyToken] accepts; the user attached to the request
    is then the payload of that token. *)
Theorem requireAuth_accepts (verifyToken : string -> Thrown + JWTPayload)
    (authorization : option string) (user : JWTPayload) :
  requireAuth verifyToken authorization = inr user <->
  exists token,
    token <> "" /\
    authorization = Some ("Bearer " +:+ token) /\
    verifyToken token = inr user.
Proof.
  unfold requireAuth, startsWith. split.
  - destruct authorization as [[|c header]|]; [done| |done].
    destruct (String.prefix "Bearer " (String c header)) eqn:Hprefix; [|done].
    apply prefix_app in Hprefix as [token Htoken]. rewrite Htoken.
    change 7%nat with (String.length "Bearer ").
    rewrite substring_from_app. cbn [negb].
    destruct token as [|t token]; [done|].
    destruct (verifyToken (String t token)) as [|payload] eqn:Hverify; [done|].
    intros [=->]. by exists (String t token).
  - intros (token & Hne & -> & Hverify).
    destruct token as [|t token]; [done|].
    change ("Bearer " +:+ String t token)
      with (String "B" ("earer " +:+ String t token)).
    cbv iota.
    change (String.prefix "Bearer " (String "B" ("earer " +:+ String t token)))
      with true.
    change (substring_from 7 (String "B" ("earer " +:+ String t token)))
      with (String t token).
    cbn [negb]. by rewrite Hverify.
Qed.

Lemma requireAuth_accepts_witness :
  requireAuth SampleAuth.verify (Some "Bearer good") = inr Sample.admin.
Proof.
  apply requireAuth_accepts. exists "good". by repeat split.
Defined.

(** X23. When [verifyToken] throws no [AppError] (the [jsonwebtoken]
    library throws its own errors), every request that [requireAuth] stops
    is answered by the error handler with status 401 and code
    [UNAUTHORIZED], whatever the header and whatever [verifyToken] threw. *)
Theorem unauthenticated_is_401 (verifyToken : string -> Thrown + JWTPayload)
    (NODE_ENV : option string) (authorization : option string) (stopped : Thrown) :
  (forall token e, verifyToken token <> inl (ThrowApp e)) ->
  requireAuth verifyToken authorization = inl stopped ->
  exists message,
    errorHandler (T := unit) NODE_ENV (caught stopped)
      = mkResponse 401 (ErrorBody "UNAUTHORIZED" message None).
Proof.
  intros Hlib. unfold requireAuth.
  destruct authorization as [[|c header]|]; [by intros [=<-]; eexists| |by intros [=<-]; eexists].
  destruct (negb _); [by intros [=<-]; eexists|].
  destruct (substring_from 7 (String c header)) as [|t token];
    [by intros [=<-]; eexists|].
  destruct (verifyToken (String t token)) as [[e|name msg]|payload] eqn:Hverify;
    [by destruct (Hlib _ _ Hverify)| |done].
  intros [=<-]. unfold requireAuth_catch.
  destruct (decide (name = "JsonWebTokenError" \/ name = "TokenExpiredError"))
    as [[->| ->]|_]; by eexists.
Qed.

Lemma unauthenticated_is_401_witness :
  errorHandler (T := unit) (Some "production")
    (caught (ThrowOther "TokenExpiredError" "jwt expired"))
  = mkResponse 401 (ErrorBody "UNAUTHORIZED" "Authentication token expired" None).
Proof.
  destruct (unauthenticated_is_401 SampleAuth.verify (Some "production")
              (Some "Bearer old") (ThrowOther "TokenExpiredError" "jwt expired"))
    as [message Hresponse].
  - intros token e. unfold SampleAuth.verify.
    by destruct (String.eqb token "good"), (String.eqb token "old").
  - reflexivity.
  - reflexivity.
Defined.

(** X24. [optionalAuth] attaches a user exactly when [requireAuth] would
    let the request through, and the same user; in every other case it
    attaches none and still lets the request through. *)
Theorem optionalAuth_agrees (verifyToken : string -> Thrown + JWTPayload)
    (authorization : option string) :
  optionalAuth verifyToken authorization =
    match requireAuth verifyToken authorization with
    | inr user => Some user
    | inl _ => None
    end.
Proof.
  unfold optionalAuth, requireAuth.
  destruct authorization as [[|c header]|]; [done| |done].
  destruct (startsWith "Bearer " (String c header)); [|done]. cbn [negb].
  destruct (substring_from 7 (String c header)) as [|t token]; [done|].
  by destruct (verifyToken (String t token)).
Qed.

(** ** The status codes of the job routes *)

Lemma parsePaginationParams_BadRequest query t :
  parsePaginationParams query = inl t ->
  exists e, t = ThrowApp e /\ cls e = BadRequest /\ statusCode e = 400.
Proof.
  unfold parsePaginationParams.
  destruct (parseQueryInt (q_page query) _ _ _ _) as [t'|page] eqn:Hpage.
  - intros [=<-]. by apply parseQueryInt_BadRequest in Hpage.
  - destruct (parseQueryInt (q_page_size query) _ _ _ _) as [t'|limit] eqn:Hlimit;
      [|done].
    intros [=<-]. by apply parseQueryInt_BadRequest in Hlimit.
Qed.

Lemma refusal_parse t :
  (exists e, t = ThrowApp e /\ cls e = BadRequest /\ statusCode e = 400) ->
  refusal t.
Proof. intros (e & -> & ? & ?). exists e. split; [done|]. by left. Qed.

Lemma refusal_BadRequest message code : refusal (ThrowApp (BadRequestError message code)).
Proof. eexists. split; [done|]. by left. Qed.

Lemma refusal_Forbidden message : refusal (ThrowApp (ForbiddenError message)).
Proof. eexists. split; [done|]. right. by left. Qed.

Lemma refusal_NotFound message : refusal (ThrowApp (NotFoundError message)).
Proof. eexists. split; [done|]. right. by right. Qed.

Ltac settle :=
  first
    [ left; by eexists
    | right; eexists; split; [reflexivity|];
      split; [|done];
      first [ apply refusal_BadRequest | apply refusal_Forbidden
            | apply refusal_NotFound
            | apply refusal_parse; eauto using parseIntParam_BadRequest,
                parsePaginationParams_BadRequest ]
    | exfalso; unfold seq_fresh in *; cbn in *; congruence ].

Lemma listJobs_settles user projectIdParam query statusFilter db :
  answered_or_refused db (listJobs user projectIdParam query statusFilter db).
Proof.
  unfold answered_or_refused, listJobs, findProject. run_cases; settle.
Qed.

Lemma getJob_settles user jobIdParam db :
  answered_or_refused db (getJob user jobIdParam db).
Proof. unfold answered_or_refused, getJob. run_cases; settle. Qed.

Lemma getProgress_settles now user jobIdParam db :
  answered_or_refused db (getProgress now user jobIdParam db).
Proof. unfold answered_or_refused, getProgress. run_cases; settle. Qed.

Lemma cancelJob_settles now user jobIdParam db :
  seq_fresh (jobLogs db) ->
  answered_or_refused db (cancelJob now user jobIdParam db).
Proof. intros Hlogs. unfold answered_or_refused, cancelJob. run_cases; settle. Qed.

Lemma retryJob_settles now user jobIdParam db :
  seq_fresh (jobLogs db) ->
  answered_or_refused db (retryJob now user jobIdParam db).
Proof. intros Hlogs. unfold answered_or_refused, retryJob. run_cases; settle. Qed.

Lemma createJob_settles now user projectIdParam body db :
  seq_fresh (processingJobs db) ->
  seq_fresh (jobLogs db) ->
  answered_or_refused db (createJob now user projectIdParam body db).
Proof.
  intros Hjobs Hlogs. unfold answered_or_refused, createJob, findProject, findMapping.
  run_cases; settle.
Qed.

Lemma formatLogs_parsed {Json} (JSON_parse : string -> Thrown + Json) logs :
  Forall (fun log => forall details, JobLog.details log = Some details ->
                     exists value, JSON_parse details = inr value) logs ->
  exists views, formatLogs JSON_parse logs = inr views.
Proof.
  induction 1 as [|log logs Hlog _ [views IH]]; [by eexists|].
  cbn. rewrite IH. unfold formatLog.
  destruct (JobLog.details log) as [[|c details]|]; [by eexists| |by eexists].
  destruct (Hlog _ eq_refl) as [value ->]. by eexists.
Qed.

Lemma getLogs_settles {Json} (JSON_parse : string -> Thrown + Json)
    user jobIdParam query db :
  details_parse JSON_parse db ->
  answered_or_refused db (getLogs JSON_parse user jobIdParam query db).
Proof.
  intros Hparse. unfold answered_or_refused, getLogs.
  unfold_run. unfold findJob.
  destruct (parseIntParam jobIdParam "jobId") as [t|jobId] eqn:Hid; cbn; [settle|].
  destruct (parsePaginationParams query) as [t|params] eqn:Hparams; cbn; [settle|].
  destruct (rows (processingJobs db) !! jobId) as [job|]; cbn; [|settle].
  destruct (decide (Job.organisationId job <> _)) as [_|_]; cbn; [settle|].
  destruct (formatLogs_parsed JSON_parse
              (paginate (limit params) (offset params) (orderedLogsOfJob jobId db)))
    as [views ->]; [|cbn; settle].
  apply Forall_forall. intros log Hlog%paginate_subseteq details Hdetails.
  rewrite orderedLogsOfJob_perm in Hlog.
  apply elem_of_logsOfJob in Hlog as [[key Hkey] _]. eauto.
Qed.

Lemma serve_status {A T} NODE_ENV (send : A -> Response T) (ok : Z)
    (handled : Run A) (db : Db) :
  (forall answer, status (send answer) = ok) ->
  answered_or_refused db handled ->
  let served := status_and_db (serve NODE_ENV send handled) in
  served.1 = ok \/
  (served.1 ∈ [400; 403; 404] /\ served.2 = db /\ trace handled = []).
Proof.
  intros Hok [[answer Hout]|(t & Hout & (e & -> & Hclass) & Htrace & Hfinal)];
    unfold serve, status_and_db; rewrite Hout; cbn.
  - by left.
  - right. split; [|done].
    destruct Hclass as [[_ ->]|[(_ & -> & _)|(_ & -> & _)]]; in_list.
Qed.

(** X25. A job request whose ids fit the id column, whose page and
    offset are safe integers and whose texts have no NUL character
    ([in_range]), served alone on a database with
    both sequences ahead of their tables and log details that parse, is
    answered with its success status, 201 for create and 200 for the other
    routes, or refused with 400, 403 or 404; a refused request has written
    nothing and leaves the database as it found it. (The request is
    authenticated and let through by the rate limiter. Outside these limits
    the database rejects the query and the answer is 500.) *)
Theorem refused_requests_change_nothing {Json}
    (JSON_parse : string -> Thrown + Json) NODE_ENV now req db :
  in_range req ->
  seq_fresh (processingJobs db) ->
  seq_fresh (jobLogs db) ->
  details_parse JSON_parse db ->
  exists status db',
    respond JSON_parse NODE_ENV now req db = (status, db') /\
    (status = success_status req \/
     (status ∈ [400; 403; 404] /\ db' = db /\ writes JSON_parse now req db = [])).
Proof.
  intros _ Hjobs Hlogs Hparse.
  exists (respond JSON_parse NODE_ENV now req db).1,
         (respond JSON_parse NODE_ENV now req db).2.
  split; [by destruct (respond _ _ _ _ _)|].
  destruct req; cbn [respond success_status writes];
    unfold listJobsRoute, createJobRoute, getJobRoute, getProgressRoute,
      getLogsRoute, cancelJobRoute, retryJobRoute.
  - apply serve_status; [by intros []|apply listJobs_settles].
  - apply serve_status; [done|by apply createJob_settles].
  - apply serve_status; [done|apply getJob_settles].
  - apply serve_status; [done|apply getProgress_settles].
  - apply serve_status; [by intros []|by apply getLogs_settles].
  - apply serve_status; [done|by apply cancelJob_settles].
  - apply serve_status; [done|by apply retryJob_settles].
Qed.

Lemma refused_requests_change_nothing_witness :
  respond Sample.noJson (Some "production") 7000
    (CancelJob Sample.viewer "1") Sample.db1 = (403, Sample.db1).
Proof.
  destruct (refused_requests_change_nothing Sample.noJson (Some "production") 7000
              (CancelJob Sample.viewer "1") Sample.db1)
    as (status & db' & Hrespond & _).
  - intros paramName id Hid. vm_compute in Hid. injection Hid as <-.
    by vm_compute.
  - reflexivity.
  - reflexivity.
  - intros key log details _ _. by exists tt.
  - reflexivity.
Defined.

(** * Properties of the encryption helpers *)

Lemma hex_pair (byte : Byte.byte) :
  let high := hex_digit (Byte.to_N byte / 16) in
  let low := hex_digit (Byte.to_N byte mod 16) in
  match hex_value high, hex_value low with
  | Some h, Some l => Byte.of_N (16 * h + l) = Some byte
  | _, _ => False
  end /\
  Ascii.eqb high ":" = false /\ Ascii.eqb low ":" = false.
Proof. destruct byte; vm_compute; done. Qed.

Lemma fromHex_toHex (buffer : Buffer) : fromHex (toHex buffer) = buffer.
Proof.
  induction buffer as [|byte rest IH]; [done|].
  cbn [toHex fromHex]. destruct (hex_pair byte) as (Hpair & _). cbn zeta in Hpair.
  destruct (hex_value _) as [h|]; [|done].
  destruct (hex_value _) as [l|]; [|done].
  by rewrite Hpair, IH.
Qed.

Lemma split_toHex (buffer : Buffer) :
  split ":" (toHex buffer) = [toHex buffer].
Proof.
  induction buffer as [|byte rest IH]; [done|].
  cbn [toHex split]. destruct (hex_pair byte) as (_ & -> & ->). by rewrite IH.
Qed.

Lemma split_toHex_colon (buffer : Buffer) (rest : string) :
  split ":" (toHex buffer +:+ String ":" rest) = toHex buffer :: split ":" rest.
Proof.
  induction buffer as [|byte buffer IH]; [done|].
  cbn [toHex].
  change (String ?a (String ?b ?s) +:+ ?r) with (String a (String b (s +:+ r))).
  cbn [split]. destruct (hex_pair byte) as (_ & -> & ->). by rewrite IH.
Qed.

Lemma toHex_empty (buffer : Buffer) : toHex buffer = "" <-> buffer = [].
Proof. by destruct buffer. Qed.

(** X26. [decrypt] undoes [encrypt] for every text but the empty one:
    with a cipher that behaves as AES-256-GCM does, what [encrypt] returns
    for a text that is not empty decrypts to that text, while what it returns
    for the empty text is refused by [decrypt] as "Invalid encrypted data
    format", because the part between the two colons is empty. *)
Theorem decrypt_undoes_encrypt ENCRYPTION_KEY cipher decipher
    (iv : Buffer) (text sealed : string) :
  authenticated_cipher cipher decipher ->
  length iv = IV_LENGTH ->
  encrypt ENCRYPTION_KEY cipher iv text = inr sealed ->
  decrypt ENCRYPTION_KEY decipher sealed =
    if decide (text = "")
    then inl (ThrowOther "Error" "Invalid encrypted data format")
    else inr text.
Proof.
  intros Hcipher Hiv. unfold encrypt, decrypt.
  destruct (getKey ENCRYPTION_KEY) as [|key]; [done|].
  destruct (cipher key iv text) as [|[encrypted authTag]] eqn:Hsealed; [done|].
  intros [=<-].
  destruct (Hcipher _ _ _ _ _ Hsealed) as (Htag & Hempty & Hback).
  change (?a +:+ ":" +:+ ?b +:+ ":" +:+ ?c)
    with (a +:+ String ":" (b +:+ String ":" c)).
  rewrite !split_toHex_colon, split_toHex. cbn [lookup list_lookup default].
  destruct iv as [|i iv]; [done|]. destruct authTag as [|a authTag]; [done|].
  change (truthy (Some (toHex (i :: iv)))) with true.
  change (truthy (Some (toHex (a :: authTag)))) with true.
  destruct (decide (text = "")) as [Htext|Htext].
  - apply Hempty in Htext as ->. reflexivity.
  - destruct encrypted as [|e encrypted]; [by destruct Htext; apply Hempty|].
    change (truthy (Some (toHex (e :: encrypted)))) with true.
    cbn [negb orb]. cbv beta iota. unfold id. by rewrite !fromHex_toHex.
Qed.

Lemma decrypt_undoes_encrypt_witness :
  decrypt (Some SampleCipher.key) SampleCipher.decipher
    "a0a1a2a3a4a5a6a7a8a9aaabacadaeaf:746f6b656e:2a" = inr "token" /\
  decrypt (Some SampleCipher.key) SampleCipher.decipher
    "a0a1a2a3a4a5a6a7a8a9aaabacadaeaf::2a"
    = inl (ThrowOther "Error" "Invalid encrypted data format").
Proof.
  assert (Hcipher : authenticated_cipher SampleCipher.cipher SampleCipher.decipher).
  { intros key iv text encrypted authTag [=<- <-]. split; [done|]. split.
    - split; [|by intros ->].
      intros Hbytes. rewrite <- (string_of_list_byte_of_string text).
      by rewrite Hbytes.
    - unfold SampleCipher.decipher.
      by rewrite fromHex_toHex, string_of_list_byte_of_string. }
  split.
  - exact (decrypt_undoes_encrypt (Some SampleCipher.key) SampleCipher.cipher
             SampleCipher.decipher SampleCipher.iv "token" _
             Hcipher eq_refl eq_refl).
  - exact (decrypt_undoes_encrypt (Some SampleCipher.key) SampleCipher.cipher
             SampleCipher.decipher SampleCipher.iv "" _
             Hcipher eq_refl eq_refl).
Defined.

(** * Properties of the environment configuration *)

Lemma requireEnv_value process_env key value :
  Config.requireEnv process_env key = inr value ->
  process_env key = Some value /\ value <> "".
Proof.
  unfold Config.requireEnv.
  destruct (process_env key) as [[|c v]|]; [done| |done]. by intros [=<-].
Qed.

(** X27. When the configuration loads, each of the seven required
    variables is set and not empty, the JWT secret has at least 32
    characters, and the key check of [encryption.ts] passes: [getKey] on the
    same environment returns the bytes of [ENCRYPTION_KEY] and so neither
    [encrypt] nor [decrypt] can fail for want of a key. *)
Theorem loaded_env_has_a_key process_env env :
  Config.loadEnv process_env = inr env ->
  Forall (fun key => exists value, process_env key = Some value /\ value <> "")
    Config.required /\
  (32 <= String.length (Config.JWT_SECRET env))%nat /\
  process_env "ENCRYPTION_KEY" = Some (Config.ENCRYPTION_KEY env) /\
  getKey (process_env "ENCRYPTION_KEY") = inr (fromHex (Config.ENCRYPTION_KEY env)).
Proof.
  unfold Config.loadEnv.
  repeat match goal with
         | |- context [Config.requireEnv process_env ?key] =>
             let H := fresh "H" in
             destruct (Config.requireEnv process_env key) eqn:H; [done|];
             apply requireEnv_value in H as [? ?]
         end.
  cbn [Config.ENCRYPTION_KEY Config.JWT_SECRET].
  destruct (decide (String.length _ <> _)) as [|Hkey%dec_stable]; [done|].
  destruct (decide (String.length _ < _)%nat) as [|Hsecret]; [done|].
  intros [=<-]. cbn [Config.ENCRYPTION_KEY Config.JWT_SECRET].
  split; [repeat constructor; eauto|]. split; [lia|]. split; [done|].
  unfold getKey.
  match goal with H : process_env "ENCRYPTION_KEY" = _ |- _ => rewrite H end.
  match goal with
  | |- context [fromHex ?key] => destruct key; [done|]
  end.
  by destruct (decide _).
Qed.

Lemma loaded_env_has_a_key_witness :
  getKey (SampleEnv.process_env "ENCRYPTION_KEY") = inr (fromHex SampleCipher.key).
Proof.
  destruct (Config.loadEnv SampleEnv.process_env) as [|env] eqn:Hload;
    [by vm_compute in Hload|].
  destruct (loaded_env_has_a_key SampleEnv.process_env env Hload)
    as (_ & _ & Hkey & ->).
  change (SampleEnv.process_env "ENCRYPTION_KEY")
    with (Some SampleCipher.key) in Hkey.
  by injection Hkey as <-.
Defined.

(** X28. The two readings of [NODE_ENV] disagree when the variable is not
    set (or is empty): the configuration falls back to [development], so
    [isDevelopment] holds, while the error handler, which reads the variable
    itself, answers every error exactly as it does in production and does
    not show the message of an unexpected error. *)
Theorem unset_NODE_ENV_is_read_twice process_env env :
  process_env "NODE_ENV" = None \/ process_env "NODE_ENV" = Some "" ->
  Config.loadEnv process_env = inr env ->
  Config.isDevelopment env = true /\
  forall T (err : Caught),
    errorHandler (T := T) (process_env "NODE_ENV") err
      = errorHandler (Some "production") err.
Proof.
  intros Hunset Hload. split.
  - revert Hload. unfold Config.loadEnv.
    repeat match goal with
           | |- context [Config.requireEnv process_env ?key] =>
               destruct (Config.requireEnv process_env key); [done|]
           end.
    destruct (decide _); [done|]. destruct (decide _); [done|].
    intros [=<-]. unfold Config.isDevelopment. cbn [Config.NODE_ENV].
    by destruct Hunset as [-> | ->].
  - intros T [e|e]; [done|]. unfold errorHandler.
    by destruct Hunset as [-> | ->].
Qed.

Lemma unset_NODE_ENV_is_read_twice_witness :
  errorHandler (T := unit) (SampleEnv.process_env "NODE_ENV")
    (CaughtOther (mkJsError "TypeError" "x is not a function" None None))
  = mkResponse 500 (ErrorBody "INTERNAL_ERROR" "An unexpected error occurred" None).
Proof.
  destruct (Config.loadEnv SampleEnv.process_env) as [|env] eqn:Hload;
    [by vm_compute in Hload|].
  destruct (unset_NODE_ENV_is_read_twice SampleEnv.process_env env
              (or_introl eq_refl) Hload) as [_ ->].
  reflexivity.
Defined.

(* ===================================================================== *)
(** * Requests in flight together *)
(* ===================================================================== *)

(** ** A handler served alone is the handler of the routes *)

Ltac scrutinee t :=
  lazymatch t with
  | match ?x with _ => _ end => scrutinee x
  | outcome ?x => scrutinee x
  | final ?x => scrutinee x
  | ?f _ =>
      lazymatch f with
      | match ?x with _ => _ end => scrutinee x
      | _ => t
      end
  | _ => t
  end.

Ltac alone_cases :=
  unfold createJob_steps, cancelJob_steps, retryJob_steps, atomic,
    project_check, mapping_check, cancel_check, retry_check;
  cbn [alone]; unfold_run; unfold insert_row, findJob;
  cbn [alone outcome trace final app];
  repeat (match goal with
          | |- alone _ ?p _ = _ =>
              let x := scrutinee p in
              destruct x; cbn [alone outcome trace final app]; try reflexivity
          end).

Lemma alone_createJob now user projectIdParam body db :
  alone now (createJob_steps user projectIdParam body) db =
    (outcome (createJob now user projectIdParam body db),
     final (createJob now user projectIdParam body db)).
Proof. unfold createJob. alone_cases. Qed.

Lemma alone_cancelJob now user jobIdParam db :
  alone now (cancelJob_steps user jobIdParam) db =
    (outcome (cancelJob now user jobIdParam db),
     final (cancelJob now user jobIdParam db)).
Proof. unfold cancelJob. alone_cases. Qed.

Lemma alone_retryJob now user jobIdParam db :
  alone now (retryJob_steps user jobIdParam) db =
    (outcome (retryJob now user jobIdParam db),
     final (retryJob now user jobIdParam db)).
Proof. unfold retryJob. alone_cases. Qed.

(** ** Invariants of the requests in flight *)

Lemma keeps_atomic (P : Db -> Prop) {A B} (m : Z -> M A) (k : A -> Prog B) :
  (forall now db, P db ->
     P (final (m now db)) /\
     forall a, outcome (m now db) = inr a -> keeps P (k a)) ->
  keeps P (atomic m k).
Proof.
  intros Hm now db HP. destruct (Hm now db HP) as [Hfinal Hk]. cbn.
  split; [done|]. destruct (outcome (m now db)); [done|by apply Hk].
Qed.

Lemma refuses_atomic (P : Db -> Prop) {A B} (m : Z -> M A) (k : A -> Prog B) :
  (forall now db a, P db -> outcome (m now db) = inr a -> refuses P (k a)) ->
  refuses P (atomic m k).
Proof.
  intros Hm now db HP. cbn.
  destruct (outcome (m now db)) eqn:Hout; [by eexists|by eapply Hm].
Qed.

Lemma keeps_read (P : Db -> Prop) {A} (handler : Z -> M A) :
  (forall now db, final (handler now db) = db) -> keeps P (read_steps handler).
Proof.
  intros Hread. apply keeps_atomic. intros now db HP. rewrite Hread.
  split; [done|]. by intros.
Qed.

Section Guarded.

Context {Json : Type} (JSON_parse : string -> Thrown + Json).
Variables (P : Db -> Prop) (key : option Z).
Hypothesis Hserving : forall req, guarded P key (serving JSON_parse req).

Lemma step_guarded w w' :
  step JSON_parse w w' ->
  P w.1 -> Forall (guarded P key) w.2 ->
  P w'.1 /\ Forall (guarded P key) w'.2.
Proof.
  destruct 1 as [db tasks req
                |db before after req now A statement rest
                |db before after req A result]; cbn; intros HP Htasks.
  - split; [done|]. apply Forall_app. split; [done|]. by apply Forall_singleton.
  - apply Forall_app in Htasks as [Hbefore Htasks].
    apply Forall_cons in Htasks as [[Hkeeps Hrefuses] Hafter].
    destruct (Hkeeps now db HP) as [Hnext Hrest]. split; [done|].
    apply Forall_app. split; [done|]. apply Forall_cons. split; [|done].
    split; [done|]. intros k Hk Htarget. by apply (Hrefuses k Hk Htarget now db).
  - split; [done|].
    apply Forall_app in Htasks as [Hbefore Htasks].
    apply Forall_cons in Htasks as [_ Hafter].
    apply Forall_app. by split.
Qed.

Lemma steps_guarded w w' :
  rtc (step JSON_parse) w w' ->
  P w.1 -> Forall (guarded P key) w.2 ->
  P w'.1 /\ Forall (guarded P key) w'.2.
Proof.
  induction 1 as [w|w w' w'' Hstep _ IH]; [done|].
  intros HP Htasks. destruct (step_guarded _ _ Hstep HP Htasks). by apply IH.
Qed.

Lemma interleaved_guarded :
  (forall db, rows (processingJobs db) = ∅ -> P db) ->
  (forall db db', P db ->
     rows (processingJobs db') ⊆ rows (processingJobs db) -> P db') ->
  forall w, interleaved JSON_parse w -> P w.1 /\ Forall (guarded P key) w.2.
Proof.
  intros Hinit Helsewhere w Hw.
  induction Hw as [db Hempty|w w' _ [HP Htasks] Hstep
                  |db db' tasks _ [HP Htasks] Hsub]; cbn in *.
  - split; [by apply Hinit|constructor].
  - by eapply step_guarded.
  - split; [by eapply Helsewhere|done].
Qed.

End Guarded.

(** The scheduler takes steps of the server. *)
Lemma schedule_steps {Json} (JSON_parse : string -> Thrown + Json) order w :
  rtc (step JSON_parse) w (schedule order w).
Proof.
  revert w. induction order as [|[i now] order IH]; intros [db tasks]; cbn;
    [done|].
  destruct (tasks !! i) as [t|] eqn:Ht; [|apply IH].
  destruct t as [req A [result|statement rest]]; cbn.
  - rewrite list_insert_id by done. apply IH.
  - eapply rtc_l; [|apply IH].
    rewrite <- (take_drop_middle tasks i _ Ht) at 1.
    rewrite insert_take_drop by (by eapply lookup_lt_Some).
    apply step_statement.
Qed.

Lemma interleaved_steps {Json} (JSON_parse : string -> Thrown + Json) w w' :
  interleaved JSON_parse w -> rtc (step JSON_parse) w w' ->
  interleaved JSON_parse w'.
Proof.
  intros Hw Hsteps. induction Hsteps as [w|w w' w'' Hstep _ IH]; [done|].
  apply IH. by eapply interleaved_step.
Qed.

(** ** What each statement does to the job rows *)

Lemma all_jobs_insertJob (Q : Job.t -> Prop) values db :
  all_jobs Q db -> (forall key, Q (values key)) ->
  all_jobs Q (final (insertJob values db)).
Proof.
  intros Hall Hnew. unfold all_jobs, insertJob. run_cases; cbn; [done|].
  by apply map_Forall_insert_2.
Qed.

Lemma all_jobs_insertJobLog (Q : Job.t -> Prop) values db :
  all_jobs Q db -> all_jobs Q (final (insertJobLog values db)).
Proof. intros Hall. unfold all_jobs, insertJobLog. by run_cases. Qed.

Lemma all_jobs_updateJob (Q : Job.t -> Prop) set key db :
  all_jobs Q db -> (forall job, Q job -> Q (set job)) ->
  all_jobs Q (final (updateJob set key db)).
Proof.
  intros Hall Hset. unfold all_jobs, updateJob. unfold_run. cbn.
  intros k job. rewrite lookup_alter.
  destruct (decide (key = k)) as [<-|_].
  - destruct (rows (processingJobs db) !! key) as [old|] eqn:Hold; [|done].
    intros [=<-]. apply Hset. by apply (Hall key).
  - apply Hall.
Qed.

Lemma project_check_final user projectIdParam body db :
  final (project_check user projectIdParam body db) = db.
Proof. unfold project_check, findProject. by run_cases. Qed.

Lemma mapping_check_final projectId body db :
  final (mapping_check projectId body db) = db.
Proof. unfold mapping_check. by run_cases. Qed.

Lemma cancel_check_final user jobIdParam db :
  final (cancel_check user jobIdParam db) = db.
Proof. unfold cancel_check. by run_cases. Qed.

Lemma retry_check_final user jobIdParam db :
  final (retry_check user jobIdParam db) = db.
Proof. unfold retry_check. by run_cases. Qed.

Lemma listJobs_final user p query statusFilter db :
  final (listJobs user p query statusFilter db) = db.
Proof. unfold listJobs, findProject. by run_cases. Qed.

Lemma getJob_final user p db : final (getJob user p db) = db.
Proof. unfold getJob. by run_cases. Qed.

Lemma getProgress_final now user p db : final (getProgress now user p db) = db.
Proof. unfold getProgress. by run_cases. Qed.

Lemma getLogs_final {Json} (JSON_parse : string -> Thrown + Json) user p query db :
  final (getLogs JSON_parse user p query db) = db.
Proof. unfold getLogs. by run_cases. Qed.

(** ** The invariant on [completedAt], with requests in flight together *)

Lemma serving_keeps_completedAt {Json} (JSON_parse : string -> Thrown + Json)
    req :
  guarded (all_jobs completedAt_if_terminal) None (serving JSON_parse req).
Proof.
  assert (Hnew : forall now organisationId projectId mapping dataSource format name key,
             completedAt_if_terminal
               (newJob now organisationId projectId mapping dataSource format name key)).
  { intros. split; [unfold api_status; cbn; in_list|].
    cbn. intros H. not_in_list H. }
  assert (Hprocessing : forall now job,
             completedAt_if_terminal job ->
             completedAt_if_terminal (setProcessing now job)).
  { intros now job _. split; [unfold api_status; cbn; in_list|].
    cbn. intros H. not_in_list H. }
  assert (Hcancelled : forall now job,
             completedAt_if_terminal job ->
             completedAt_if_terminal (setCancelled now job)).
  { intros now job _. split; [unfold api_status; cbn; in_list|]. by eexists. }
  assert (Hretried : forall now job,
             completedAt_if_terminal job ->
             completedAt_if_terminal (setRetried now job)).
  { intros now job _. split; [unfold api_status; cbn; in_list|].
    cbn. intros H. not_in_list H. }
  destruct req; cbn [serving guarded]; (split; [|by intros k [=]]).
  - apply keeps_read. intros _. apply listJobs_final.
  - unfold createJob_steps.
    apply keeps_atomic. intros ? db HP. rewrite project_check_final.
    split; [done|]. intros projectId _.
    apply keeps_atomic. intros ? db1 HP1. rewrite mapping_check_final.
    split; [done|]. intros [mapping dataSource] _.
    apply keeps_atomic. intros ? db2 HP2.
    split; [apply all_jobs_insertJob; eauto|]. intros job _.
    apply keeps_atomic. intros ? db3 HP3.
    split; [by apply all_jobs_insertJobLog|]. intros _ _.
    apply keeps_atomic. intros ? db4 HP4.
    split; [apply all_jobs_updateJob; eauto|]. by intros.
  - apply keeps_read. intros _. apply getJob_final.
  - apply keeps_read. intros ?. apply getProgress_final.
  - apply keeps_read. intros _. apply getLogs_final.
  - unfold cancelJob_steps.
    apply keeps_atomic. intros ? db HP. rewrite cancel_check_final.
    split; [done|]. intros jobId _.
    apply keeps_atomic. intros ? db1 HP1.
    split; [apply all_jobs_updateJob; eauto|]. intros _ _.
    apply keeps_atomic. intros ? db2 HP2.
    split; [by apply all_jobs_insertJobLog|]. by intros.
  - unfold retryJob_steps.
    apply keeps_atomic. intros ? db HP. rewrite retry_check_final.
    split; [done|]. intros jobId _.
    apply keeps_atomic. intros ? db1 HP1.
    split; [apply all_jobs_updateJob; eauto|]. intros _ _.
    apply keeps_atomic. intros ? db2 HP2.
    split; [by apply all_jobs_insertJobLog|]. intros _ _.
    apply keeps_atomic. intros ? db3 HP3.
    split; [apply all_jobs_updateJob; eauto|]. by intros.
Qed.

(** C7, as stated, when a cancel of the job arrives between the insertion
    and the last statement of its create: the update that starts the job
    has no condition on its status, so the row ends [processing] with the
    [completedAt] that the cancel has set. *)
Lemma cancel_during_create_breaks_invariant :
  interleaved Sample.noJson SampleRace.raced /\
  (exists job,
     rows (processingJobs SampleRace.raced.1) !! 1 = Some job /\
     Job.status job = "processing" /\
     Job.completedAt job = Some 1501) /\
  ~ all_jobs completedAt_iff_terminal SampleRace.raced.1.
Proof.
  assert (Hrow : exists job,
             rows (processingJobs SampleRace.raced.1) !! 1 = Some job /\
             Job.status job = "processing" /\
             Job.completedAt job = Some 1501)
    by (eexists; repeat split; vm_compute; reflexivity).
  split; [|split; [exact Hrow|]].
  - eapply interleaved_steps; [|apply schedule_steps].
    eapply interleaved_step; [|apply step_arrive with (tasks := [_])].
    eapply interleaved_step; [|apply step_arrive with (tasks := [])].
    by apply interleaved_init.
  - destruct Hrow as (job & Hjob & Hstatus & Hdone). intros Hall.
    destruct (Hall 1 job Hjob) as [Hterminal _].
    unfold terminal in Hterminal. rewrite Hstatus, Hdone in Hterminal.
    specialize (Hterminal ltac:(by eexists)). not_in_list Hterminal.
Qed.

(** C7, amended. While the requests are served one at a time, every write
    of every job route keeps the invariant that a job's [completedAt] is
    set if and only if its status is [completed], [failed] or [cancelled],
    so it holds in every database reached that way from one without jobs,
    intermediate states included. When requests are in flight together,
    with their statements interleaved in any order, one direction remains:
    a job whose status is [completed], [failed] or [cancelled] has its
    [completedAt] set (and the status is one of [pending], [processing] and
    [cancelled]). *)
Theorem completedAt_invariant {Json} (JSON_parse : string -> Thrown + Json) :
  (forall now req db db',
      all_jobs completedAt_iff_terminal db ->
      db' ∈ writes JSON_parse now req db ->
      all_jobs completedAt_iff_terminal db') /\
  (forall db, reachable JSON_parse db -> all_jobs completedAt_iff_terminal db) /\
  (forall w, interleaved JSON_parse w -> all_jobs completedAt_if_terminal w.1).
Proof.
  split; [|split].
  - intros now req db db' Hall Hin. unfold all_jobs in *.
    eapply transition_completedAt; [|exact Hall].
    by eapply writes_transition.
  - apply reachable_all_jobs. apply transition_completedAt.
  - intros w Hw.
    apply (interleaved_guarded JSON_parse (all_jobs completedAt_if_terminal) None);
      [apply serving_keeps_completedAt| | |exact Hw].
    + intros db Hempty. unfold all_jobs. rewrite Hempty. apply map_Forall_empty.
    + intros db db' Hall Hsub key job Hkey. apply (Hall key).
      by eapply lookup_weaken.
Qed.

Lemma completedAt_invariant_witness :
  all_jobs completedAt_iff_terminal Sample.db2 /\
  all_jobs completedAt_if_terminal SampleRace.raced.1.
Proof.
  split.
  - apply (proj1 (proj2 (completedAt_invariant Sample.noJson))).
    apply reachable_request
      with (db := Sample.db1) (now := 6000) (req := CancelJob Sample.admin "1").
    + apply reachable_request
        with (db := Sample.db0) (now := 1000)
             (req := CreateJob Sample.admin "3" Sample.body0).
      * by apply reachable_init.
      * vm_compute. do 2 apply list_elem_of_further. apply list_elem_of_here.
    + vm_compute. apply list_elem_of_further. apply list_elem_of_here.
  - apply (proj2 (proj2 (completedAt_invariant Sample.noJson))).
    eapply interleaved_steps; [|apply schedule_steps].
    eapply interleaved_step; [|apply step_arrive with (tasks := [_])].
    eapply interleaved_step; [|apply step_arrive with (tasks := [])].
    by apply interleaved_init.
Defined.

(** ** Settled jobs, with requests in flight together *)

Lemma cancel_check_passed user jobIdParam db jobId :
  outcome (cancel_check user jobIdParam db) = inr jobId ->
  parseIntParam jobIdParam "jobId" = inr jobId /\
  exists job,
    rows (processingJobs db) !! jobId = Some job /\
    Job.status job ∈ ["pending"; "processing"].
Proof.
  unfold cancel_check. run_cases; intros [=<-].
  split; [done|]. eexists. split; [done|]. by apply dec_stable.
Qed.

Lemma retry_check_passed user jobIdParam db jobId :
  outcome (retry_check user jobIdParam db) = inr jobId ->
  parseIntParam jobIdParam "jobId" = inr jobId /\
  exists job,
    rows (processingJobs db) !! jobId = Some job /\ Job.status job = "failed".
Proof.
  unfold retry_check. run_cases; intros [=<-].
  split; [done|]. eexists. split; [done|]. by apply dec_stable.
Qed.

Lemma insertJob_inserted values db job :
  outcome (insertJob values db) = inr job ->
  rows (processingJobs db) !! nextval (processingJobs db) = None /\
  job = values (nextval (processingJobs db)).
Proof. unfold insertJob. run_cases; by intros [=<-]. Qed.

Section Settled.

Variables (key : Z) (settled : Job.t).
Hypothesis Hsettled : Job.status settled ∉ ["pending"; "processing"; "failed"].

Lemma still_insertJob values db :
  still key settled db -> still key settled (final (insertJob values db)).
Proof.
  unfold still, insertJob. intros Hrow. run_cases; cbn; [done|].
  rewrite lookup_insert_ne; [done|]. intros Heq. congruence.
Qed.

Lemma still_insertJobLog values db :
  still key settled db -> still key settled (final (insertJobLog values db)).
Proof. unfold still, insertJobLog. intros Hrow. by run_cases. Qed.

Lemma still_updateJob set other db :
  other <> key -> still key settled db -> still key settled (final (updateJob set other db)).
Proof.
  unfold still, updateJob. intros Hother Hrow. unfold_run. cbn.
  by rewrite lookup_alter_ne.
Qed.

Lemma serving_guards_settled {Json} (JSON_parse : string -> Thrown + Json)
    req :
  guarded (still key settled) (Some key) (serving JSON_parse req).
Proof.
  assert (Hpending : "pending" ∈ ["pending"; "processing"; "failed"]) by in_list.
  assert (Hprocessing : "processing" ∈ ["pending"; "processing"; "failed"])
    by in_list.
  assert (Hfailed : "failed" ∈ ["pending"; "processing"; "failed"]) by in_list.
  destruct req; cbn [serving guarded targets].
  - split; [|by intros k _ []]. apply keeps_read. intros _. apply listJobs_final.
  - split; [|by intros k _ []]. unfold createJob_steps.
    apply keeps_atomic. intros ? db HP. rewrite project_check_final.
    split; [done|]. intros projectId _.
    apply keeps_atomic. intros ? db1 HP1. rewrite mapping_check_final.
    split; [done|]. intros [mapping dataSource] _.
    apply keeps_atomic. intros ? db2 HP2.
    split; [by apply still_insertJob|]. intros job [Hfree ->]%insertJob_inserted.
    assert (nextval (processingJobs db2) <> key)
      by (intros Heq; unfold still in HP2; congruence).
    apply keeps_atomic. intros ? db3 HP3.
    split; [by apply still_insertJobLog|]. intros _ _.
    apply keeps_atomic. intros ? db4 HP4.
    split; [by apply still_updateJob|]. by intros.
  - split; [|by intros k _ []]. apply keeps_read. intros _. apply getJob_final.
  - split; [|by intros k _ []]. apply keeps_read. intros ?. apply getProgress_final.
  - split; [|by intros k _ []]. apply keeps_read. intros _. apply getLogs_final.
  - assert (Hother : forall db jobId,
               still key settled db -> outcome (cancel_check user jobIdParam db) = inr jobId ->
               jobId <> key).
    { intros db jobId HP (_ & job & Hjob & Hstatus)%cancel_check_passed ->.
      unfold still in HP. rewrite HP in Hjob. injection Hjob as <-.
      apply Hsettled.
      apply elem_of_cons in Hstatus as [->|Hstatus]; [done|].
      apply elem_of_cons in Hstatus as [->|Hstatus]; [done|].
      by apply elem_of_nil in Hstatus. }
    split.
    + unfold cancelJob_steps.
      apply keeps_atomic. intros ? db HP. rewrite cancel_check_final.
      split; [done|]. intros jobId HjobId%(Hother db); [|done].
      apply keeps_atomic. intros ? db1 HP1.
      split; [by apply still_updateJob|]. intros _ _.
      apply keeps_atomic. intros ? db2 HP2.
      split; [by apply still_insertJobLog|]. by intros.
    + intros k [=<-] Htarget. unfold cancelJob_steps.
      apply refuses_atomic. intros ? db jobId HP Hout.
      destruct (Hother db jobId HP Hout).
      apply cancel_check_passed in Hout as [Hparam _]. congruence.
  - assert (Hother : forall db jobId,
               still key settled db -> outcome (retry_check user jobIdParam db) = inr jobId ->
               jobId <> key).
    { intros db jobId HP (_ & job & Hjob & Hstatus)%retry_check_passed ->.
      unfold still in HP. rewrite HP in Hjob. injection Hjob as <-.
      apply Hsettled. by rewrite Hstatus. }
    split.
    + unfold retryJob_steps.
      apply keeps_atomic. intros ? db HP. rewrite retry_check_final.
      split; [done|]. intros jobId HjobId%(Hother db); [|done].
      apply keeps_atomic. intros ? db1 HP1.
      split; [by apply still_updateJob|]. intros _ _.
      apply keeps_atomic. intros ? db2 HP2.
      split; [by apply still_insertJobLog|]. intros _ _.
      apply keeps_atomic. intros ? db3 HP3.
      split; [by apply still_updateJob|]. by intros.
    + intros k [=<-] Htarget. unfold retryJob_steps.
      apply refuses_atomic. intros ? db jobId HP Hout.
      destruct (Hother db jobId HP Hout).
      apply retry_check_passed in Hout as [Hparam _]. congruence.
Qed.

End Settled.



(** X13. A settled job is cancelled and retried no more: once a job is
    [cancelled] (or [completed]) and no request is in flight, every cancel
    and every retry of it that arrives afterwards ends with an error,
    whoever asks and however the statements of the later requests
    interleave. *)
Theorem cancel_at_most_once {Json}
    (JSON_parse : string -> Thrown + Json) w w' key job :
  idle w ->
  still key job w.1 ->
  Job.status job ∉ ["pending"; "processing"; "failed"] ->
  rtc (step JSON_parse) w w' ->
  forall req A (result : Thrown + A),
    task req (Done result) ∈ w'.2 ->
    targets key req ->
    exists t, result = inl t.
Proof.
  intros Hidle Hrow Hsettled Hsteps req A result Hin Htarget.
  assert (Hguarded : Forall (guarded (still key job) (Some key)) w'.2).
  { refine (proj2 (steps_guarded JSON_parse (still key job) (Some key)
                     _ w w' Hsteps Hrow _)).
    - by apply serving_guards_settled.
    - rewrite Hidle. constructor. }
  rewrite Forall_forall in Hguarded.
  destruct (Hguarded _ Hin) as [_ Hrefuses].
  exact (Hrefuses key eq_refl Htarget).
Qed.

Lemma cancel_at_most_once_witness :
  exists t,
    SampleRace.later.2 !! 1%nat
      = Some (task (RetryJob Sample.admin "1") (Done (A := string) (inl t))).
Proof.
  pose (result := inl (ThrowApp (BadRequestError "Only failed jobs can be retried"
                                   BAD_REQUEST)) : Thrown + string).
  assert (Hlater : SampleRace.later.2 !! 1%nat
                   = Some (task (RetryJob Sample.admin "1") (Done result)))
    by (vm_compute; reflexivity).
  destruct (cancel_at_most_once Sample.noJson (Sample.db2, []) SampleRace.later
              1 (setCancelled 6000
                   (setProcessing 1000
                      (newJob 1000 7 3 (SchemaMapping.mk 4 3 5 1)
                         (DataSource.mk 5 "customers" (Some 100) "ready" None)
                         "csv" None 1)))
              eq_refl ltac:(vm_compute; reflexivity)
              ltac:(cbn; intros H; not_in_list H)
              ltac:(eapply rtc_l; [apply step_arrive with (tasks := [])|];
                    eapply rtc_l; [apply step_arrive with (tasks := [_])|];
                    apply schedule_steps)
              (RetryJob Sample.admin "1") string result)
    as [t Ht].
  - by eapply list_elem_of_lookup_2.
  - reflexivity.
  - exists t. by rewrite <- Ht.
Defined.

(** ** Retry in this snapshot *)

Lemma retryJob_unanswered now user jobIdParam db :
  (forall jobId job, findJob jobId db = Some job -> Job.status job <> "failed") ->
  exists t,
    retryJob now user jobIdParam db = mkRun (inl t) [] db /\ refusal t.
Proof.
  intros Hnone. unfold retryJob. unfold_run. unfold findJob in *.
  destruct (decide (role user ∈ _)) as [_|_]; cbn;
    [|eexists; split; [done|apply refusal_Forbidden]].
  destruct (parseIntParam jobIdParam "jobId") as [t|jobId] eqn:Hparam; cbn.
  { eexists. split; [done|]. apply refusal_parse.
    by apply parseIntParam_BadRequest in Hparam. }
  destruct (rows (processingJobs db) !! jobId) as [job|] eqn:Hjob; cbn;
    [|eexists; split; [done|apply refusal_NotFound]].
  destruct (decide (Job.organisationId job <> _)); cbn;
    [eexists; split; [done|apply refusal_Forbidden]|].
  destruct (decide (Job.status job <> "failed")) as [_|[]]; cbn;
    [eexists; split; [done|apply refusal_BadRequest]|].
  by eapply Hnone.
Qed.

(** X10. In a database that the job routes have produced from one without
    jobs, with the requests served one at a time or in flight together,
    retry never answers: whoever asks, for whatever id and at whatever time,
    it ends with an error and writes nothing, because no job is ever
    [failed]. For an id that fits the id column the error is one of the
    handler's own, answered with 400, 403 or 404. *)
Theorem retry_never_answers {Json}
    (JSON_parse : string -> Thrown + Json) now user jobIdParam db :
  reachable JSON_parse db \/ (exists tasks, interleaved JSON_parse (db, tasks)) ->
  exists t,
    retryJob now user jobIdParam db = mkRun (inl t) [] db /\
    (id_in_range jobIdParam -> refusal t).
Proof.
  intros Hreach.
  assert (Hapi : all_jobs api_status db).
  { destruct Hreach as [Hreach|[tasks Hreach]].
    - exact (reachable_all_jobs JSON_parse api_status transition_api_status
               db Hreach).
    - pose proof (proj1 (interleaved_guarded JSON_parse
                           (all_jobs completedAt_if_terminal) None
                           (serving_keeps_completedAt JSON_parse)
                           (fun db Hempty => ltac:(unfold all_jobs; rewrite Hempty;
                                                   apply map_Forall_empty))
                           (fun db db' Hall Hsub key job Hkey =>
                              Hall key job (lookup_weaken _ _ _ _ Hkey Hsub))
                           (db, tasks) Hreach)) as Hall.
      intros key job Hkey. exact (proj1 (Hall key job Hkey)). }
  destruct (retryJob_unanswered now user jobIdParam db) as (t & Hrun & Hrefusal).
  - intros jobId job Hjob Hst. pose proof (Hapi jobId job Hjob) as Hjob'.
    unfold api_status in Hjob'. rewrite Hst in Hjob'. not_in_list Hjob'.
  - exists t. by split.
Qed.

Lemma retry_never_answers_witness :
  exists t,
    retryJob 9000 Sample.admin "1" Sample.db2 = mkRun (inl t) [] Sample.db2 /\
    refusal t.
Proof.
  destruct (retry_never_answers Sample.noJson 9000 Sample.admin "1" Sample.db2
              (or_introl sample_db2_reachable))
    as (t & Hrun & Hrefusal).
  exists t. split; [exact Hrun|]. apply Hrefusal.
  intros paramName id Hid. vm_compute in Hid. injection Hid as <-. by vm_compute.
Defined.

(** ** The checks of create *)


